(** * glyph: the control-problem library and the application harness

    A shallow embedding of [examples/control/control_problem.py], of
    [glyph/application.py] and of [read] of [setup.py].  Python values are modelled by the closest Rocq
    data: unbounded [int]s by [Z], sequences by [list], keyword dictionaries
    and the file system by [gmap], raised exceptions by the [Raise] branch
    of [Res]. *)

From stdpp Require Import base option list gmap strings.
From Stdlib Require Import ZArith QArith Lia.

Open Scope Z_scope.

(** ** Python exceptions and fallible computations *)

Inductive PyExc :=
| RuntimeError
| ZeroDivisionError
| IndexError
| AssertionError
| ValueError
| AttributeError
| KeyError
| TypeError
| FileNotFoundError
| NetworkXError.

Inductive Res (A : Type) :=
| Ok (a : A)
| Raise (e : PyExc).
Arguments Ok {A} a.
Arguments Raise {A} e.

#[export] Instance res_ret : MRet Res := λ A a, Ok a.
#[export] Instance res_bind : MBind Res := λ A B k m,
  match m with
  | Ok a => k a
  | Raise e => Raise e
  end.

(** [xs[i]] on a Python sequence, for a non-negative literal index. *)
Definition py_index {A} (xs : list A) (i : nat) : Res A :=
  match xs !! i with
  | Some x => Ok x
  | None => Raise IndexError
  end.

(** ** Numbers

    The control problems are written against whatever numeric type the
    caller supplies (Python floats, numpy scalars).  The embedding is
    generic in that type: [Scalar T] lists the operations the source
    applies to it. *)

Class Scalar (T : Type) := {
  s_of_Z : Z → T;              (* numeric literals: 0.0, 3.0 *)
  s_nan : T;                   (* np.NAN *)
  s_add : T → T → T;
  s_sub : T → T → T;
  s_mul : T → T → T;
  s_neg : T → T;
  s_quot : T → T → T;          (* x / y for a divisor y that is not zero *)
  s_pow : T → Z → T;           (* x ** n for an integer literal n *)
  s_eqb : T → T → bool;        (* x == y *)
  s_three_nonzero : s_eqb (s_of_Z 3) (s_of_Z 0) = false
}.

Definition s_is_zero `{Scalar T} (x : T) : bool := s_eqb x (s_of_Z 0).

(** Rationals as an instance, used to run the definitions; [s_nan] is a
    marker value there. *)
#[export] Instance Q_Scalar : Scalar Q := {|
  s_of_Z := inject_Z;
  s_nan := (0 # 1)%Q;
  s_add := Qplus;
  s_sub := Qminus;
  s_mul := Qmult;
  s_neg := Qopp;
  s_quot := Qdiv;
  s_pow := Qpower;
  s_eqb := Qeq_bool;
  s_three_nonzero := eq_refl
|}.

(** numpy values as the oscillators see them: a scalar or a one-dimensional
    array. *)
Inductive NpVal (T : Type) :=
| NpScalar (x : T)
| NpArray (xs : list T).
Arguments NpScalar {T} x.
Arguments NpArray {T} xs.

(** A two-dimensional array with its shape: [a2_rows] holds [a2_nrows] rows
    of [a2_ncols] entries each. *)
Record Array2 (T : Type) := mkArray2 {
  a2_nrows : nat;
  a2_ncols : nat;
  a2_rows : list (list T)
}.
Arguments mkArray2 {T}.
Arguments a2_nrows {T}.
Arguments a2_ncols {T}.
Arguments a2_rows {T}.

(** What [integrate] returns: [y[0, :]] (one-dimensional) or [y]. *)
Inductive NdArray (T : Type) :=
| Flat (xs : list T)
| TwoDim (a : Array2 T).
Arguments Flat {T} xs.
Arguments TwoDim {T} a.

(** The [A] argument of the coupled oscillators: the default [0.0], a plain
    Python float, or a coupling matrix. *)
Inductive Coupling (T : Type) :=
| PyFloat (x : T)
| CouplingMatrix (m : list (list T)).
Arguments PyFloat {T} x.
Arguments CouplingMatrix {T} m.

(** [scipy.integrate.ode], reduced to what [odeint] uses of it: the state
    vector, the abscissa reached and the success flag.  The numerical method
    is scipy's and stays a parameter: [integrator_run f y t value] advances
    the state [y] from [t] to [value], calling the derivative [f] on the
    way.  It returns the state reached and whether the step succeeded; an
    exception raised by a call of [f] is not caught by scipy and leaves
    [ode.integrate]. *)
Record Ode (T : Type) := mkOde {
  ode_y : list T;
  ode_t : T;
  ode_successful : bool
}.
Arguments mkOde {T}.
Arguments ode_y {T}.
Arguments ode_t {T}.
Arguments ode_successful {T}.

Class Integrator (T : Type) := {
  integrator_run :
    (T → list T → Res (list T)) → list T → T → T → Res (list T * bool)
}.

Module Control.

Section Systems.
Context {T : Type} `{Scalar T}.

(** *** numpy arithmetic on scalars and one-dimensional arrays *)

Definition np_elems {A} (v : NpVal A) : list A :=
  match v with
  | NpScalar x => [x]
  | NpArray xs => xs
  end.

Definition np_map {A B} (f : A → B) (v : NpVal A) : NpVal B :=
  match v with
  | NpScalar x => NpScalar (f x)
  | NpArray xs => NpArray (map f xs)
  end.

(** Element-wise application with numpy's broadcasting: equal lengths pair
    up, a length-one operand is stretched, anything else is a shape error. *)
Definition broadcast {A B C} (f : A → B → C) (u : NpVal A) (v : NpVal B)
  : Res (NpVal C) :=
  match u, v with
  | NpScalar x, NpScalar y => Ok (NpScalar (f x y))
  | NpScalar x, NpArray ys => Ok (NpArray (map (f x) ys))
  | NpArray xs, NpScalar y => Ok (NpArray (map (λ x, f x y) xs))
  | NpArray xs, NpArray ys =>
      if decide (length xs = length ys) then Ok (NpArray (zip_with f xs ys))
      else match xs, ys with
           | [x], _ => Ok (NpArray (map (f x) ys))
           | _, [y] => Ok (NpArray (map (λ x, f x y) xs))
           | _, _ => Raise ValueError
           end
  end.

Definition np_add := broadcast (@s_add T _).
Definition np_sub := broadcast (@s_sub T _).
Definition np_mul := broadcast (@s_mul T _).
Definition np_pow (v : NpVal T) (n : Z) : NpVal T := np_map (λ x, s_pow x n) v.

(** Division.  numpy reports a zero divisor with a RuntimeWarning and an
    inf/nan entry, Python scalars raise; the model makes every division
    whose divisor is zero observable as [ZeroDivisionError]. *)
Definition np_div (u v : NpVal T) : Res (NpVal T) :=
  ps ← broadcast pair u v;
  if existsb (λ p, s_is_zero p.2) (np_elems ps) then Raise ZeroDivisionError
  else Ok (np_map (λ p, s_quot p.1 p.2) ps).

(** [A.dot(v)]: a Python float has no [dot]; a matrix needs rows as long as
    [v]. *)
Definition dot_row (row v : list T) : T :=
  foldr s_add (s_of_Z 0) (zip_with s_mul row v).

Definition coupling_dot (A : Coupling T) (v : list T) : Res (NpVal T) :=
  match A with
  | PyFloat _ => Raise AttributeError
  | CouplingMatrix m =>
      if forallb (λ row, bool_decide (length row = length v)) m
      then Ok (NpArray (map (λ row, dot_row row v) m))
      else Raise ValueError
  end.

Definition np_hstack (vs : list (NpVal T)) : list T :=
  concat (map np_elems vs).

(** *** harmonic_oscillator

    The actuator is called with the unpacked state followed by the unpacked
    extra arguments: one positional argument list [y ++ args]. *)
Definition harmonic_oscillator (actuator : list T → T) (omega : T)
  : T → list T → list T → Res (list T) :=
  λ t y args,
    dy0 ← py_index y 1;
    y0 ← py_index y 0;
    let dy1 := s_add (s_mul (s_neg (s_pow omega 2)) y0) (actuator (y ++ args)) in
    Ok [dy0; dy1].

(** *** fitzhugh_nagumo *)
Definition fitzhugh_nagumo (actuator : list T → NpVal T)
  (sensor : list T → list T) (a b tau : T) (A : Coupling T)
  : Res (T → list T → list T → Res (list T)) :=
  if s_is_zero tau then Raise RuntimeError
  else Ok (λ t y args,
    let N := (length y / 2)%nat in
    let y0 := NpArray (take N y) in
    let y1 := NpArray (drop N y) in
    q ← np_div (np_pow y0 3) (NpScalar (s_of_Z 3));
    d ← np_sub y0 q;
    dy0 ← np_sub d y1;
    s ← np_add y0 (NpScalar a);
    by1 ← np_mul (NpScalar b) y1;
    n ← np_sub s by1;
    q1 ← np_div n (NpScalar tau);
    c ← coupling_dot A (drop N y);
    s1 ← np_add q1 c;
    dy1 ← np_add s1 (actuator (sensor y ++ args));
    Ok (np_hstack [dy0; dy1])).

(** *** The other simple systems *)

Definition anharmonic_oscillator (actuator : list T → T) (omega c k : T)
  : T → list T → list T → Res (list T) :=
  λ t y args,
    dy0 ← py_index y 1;
    y0 ← py_index y 0;
    y0' ← py_index y 0;
    y1 ← py_index y 1;
    let dy1 :=
      s_add
        (s_sub
           (s_sub (s_mul (s_neg (s_pow omega 2)) y0) (s_mul k (s_pow y0' 2)))
           (s_mul c y1))
        (actuator (y ++ args)) in
    Ok [dy0; dy1].

Definition lorenz_in_3 (actuator : list T → T) (s r b : T)
  : T → list T → list T → Res (list T) :=
  λ t y args,
    y1 ← py_index y 1;
    y0 ← py_index y 0;
    let dy0 := s_mul s (s_sub y1 y0) in
    y0 ← py_index y 0;
    y1 ← py_index y 1;
    y0' ← py_index y 0;
    y2 ← py_index y 2;
    let dy1 := s_sub (s_sub (s_mul r y0) y1) (s_mul y0' y2) in
    y0 ← py_index y 0;
    y1 ← py_index y 1;
    y2 ← py_index y 2;
    let dy2 := s_add (s_sub (s_mul y0 y1) (s_mul b y2)) (actuator (y ++ args)) in
    Ok [dy0; dy1; dy2].

Definition lorenz_in_2 (actuator : list T → T) (s r b : T)
  : T → list T → list T → Res (list T) :=
  λ t y args,
    y1 ← py_index y 1;
    y0 ← py_index y 0;
    let dy0 := s_mul s (s_sub y1 y0) in
    y0 ← py_index y 0;
    y1 ← py_index y 1;
    y0' ← py_index y 0;
    y2 ← py_index y 2;
    let dy1 :=
      s_add (s_sub (s_sub (s_mul r y0) y1) (s_mul y0' y2)) (actuator (y ++ args)) in
    y0 ← py_index y 0;
    y1 ← py_index y 1;
    y2 ← py_index y 2;
    let dy2 := s_sub (s_mul y0 y1) (s_mul b y2) in
    Ok [dy0; dy1; dy2].

(** *** The other coupled systems *)

Definition van_der_pol (actuator : list T → NpVal T) (sensor : list T → list T)
  (omega a b : T) (A : Coupling T) : T → list T → list T → Res (list T) :=
  λ t y args,
    let N := (length y / 2)%nat in
    let y0 := NpArray (take N y) in
    let y1 := NpArray (drop N y) in
    let dy0 := y1 in
    t1 ← np_mul (NpScalar (s_neg (s_pow omega 2))) y0;
    t2 ← np_mul (NpScalar a) y1;
    t3 ← np_mul (NpScalar b) (np_pow y0 2);
    t4 ← np_sub (NpScalar (s_of_Z 1)) t3;
    t5 ← np_mul t2 t4;
    t6 ← np_add t1 t5;
    c ← coupling_dot A (drop N y);
    t7 ← np_add t6 c;
    dy1 ← np_add t7 (actuator (sensor y ++ args));
    Ok (np_hstack [dy0; dy1]).

Definition hindmarsh_rose (actuator : list T → NpVal T) (sensor : list T → list T)
  (a b c d r s xR : T) (A : Coupling T) : T → list T → list T → Res (list T) :=
  λ t y args,
    let N := (length y / 3)%nat in
    let y0 := NpArray (take N y) in
    let y1 := NpArray (drop N (take (2 * N) y)) in
    let y2 := NpArray (drop (2 * N) y) in
    u1 ← np_mul (NpScalar a) (np_pow y0 3);
    u2 ← np_sub y1 u1;
    u3 ← np_mul (NpScalar b) (np_pow y0 2);
    u4 ← np_add u2 u3;
    dy0 ← np_sub u4 y2;
    v1 ← np_mul (NpScalar d) (np_pow y0 2);
    v2 ← np_sub (NpScalar c) v1;
    v3 ← np_sub v2 y1;
    v4 ← coupling_dot A (drop N (take (2 * N) y));
    v5 ← np_add v3 v4;
    dy1 ← np_add v5 (actuator (sensor y ++ args));
    w1 ← np_sub y0 (NpScalar xR);
    w2 ← np_mul (NpScalar s) w1;
    w3 ← np_sub w2 y2;
    dy2 ← np_mul (NpScalar r) w3;
    Ok (np_hstack [dy0; dy1; dy2]).

(** *** odeint and integrate *)

Context `{Integrator T}.

Definition set_initial_value (y : list T) (t : T) : Ode T :=
  mkOde y t true.

(** [ode.integrate(value)]. *)
Definition ode_integrate (f : T → list T → Res (list T)) (ode : Ode T) (value : T)
  : Res (Ode T) :=
  '(y', ok) ← integrator_run f (ode_y ode) (ode_t ode) value;
  Ok (mkOde y' value ok).

(** The loop of [odeint] over [x[1:]], run to its end: the values yielded
    until the generator returns, or the exception that leaves it. *)
Fixpoint odeint_steps (f : T → list T → Res (list T)) (ode : Ode T) (xs : list T)
  : Res (list (list T)) :=
  match xs with
  | [] => Ok []
  | value :: rest =>
      ode' ← ode_integrate f ode value;
      if ode_successful ode' then
        ys ← odeint_steps f ode' rest;
        Ok (ode_y ode' :: ys)
      else Ok []
  end.

(** [list(odeint(dy, yinit, x, f_args))]: the generator run to its end. *)
Definition odeint (dy : T → list T → list T → Res (list T)) (yinit x f_args : list T)
  : Res (list (list T)) :=
  let f := λ t y, dy t y f_args in
  x0 ← py_index x 0;
  let ode := set_initial_value yinit x0 in
  ys ← odeint_steps f ode (drop 1 x);
  Ok (ode_y ode :: ys).

Definition np_vstack (rows : list (list T)) : Res (Array2 T) :=
  match rows with
  | [] => Raise ValueError
  | r :: rest =>
      if forallb (λ r', bool_decide (length r' = length r)) rest
      then Ok (mkArray2 (length rows) (length r) rows)
      else Raise ValueError
  end.

Definition np_transpose (a : Array2 T) : Array2 T :=
  mkArray2 (a2_ncols a) (a2_nrows a)
    (map (λ j, omap (λ r, r !! j) (a2_rows a)) (seq 0 (a2_ncols a))).

(** [y = np.empty((r, c)); y[:] = v]. *)
Definition np_full (r c : nat) (v : T) : Array2 T :=
  mkArray2 r c (replicate r (replicate c v)).

Definition integrate (dy : T → list T → list T → Res (list T)) (yinit x f_args : list T)
  : Res (NdArray T) :=
  res ← odeint dy yinit x f_args;
  v ← np_vstack res;
  let y := np_transpose v in
  let y := if decide (a2_ncols y ≠ length x)
           then np_full (a2_nrows y) (length x) s_nan else y in
  if decide (a2_nrows y = 1%nat) then r ← py_index (a2_rows y) 0; Ok (Flat r)
  else Ok (TwoDim y).

End Systems.

(** *** Coupling matrices

    Every entry the generators produce is an integer-valued float of
    magnitude at most [N], on which float arithmetic is exact; the entries
    are modelled by [Z]. *)

Abbreviation Matrix := (list (list Z)).

Definition sum_list_Z (l : list Z) : Z := foldr Z.add 0 l.

Definition np_ones (n m : Z) : Res Matrix :=
  if decide (n < 0 ∨ m < 0) then Raise ValueError
  else Ok (replicate (Z.to_nat n) (replicate (Z.to_nat m) 1)).

(** [np.fill_diagonal] on a square matrix. *)
Definition np_fill_diagonal (A : Matrix) (v : Z) : Matrix :=
  imap (λ i row, <[i:=v]> row) A.

Definition global_coupling (N : Z) : Res Matrix :=
  A ← np_ones N N;
  Ok (np_fill_diagonal A (-1 * (N - 1))).

Definition np_eye (k : Z) : Res Matrix :=
  if decide (k < 0) then Raise ValueError
  else Ok (map (λ i, map (λ j, if decide (i = j) then 1 else 0) (seq 0 (Z.to_nat k)))
             (seq 0 (Z.to_nat k))).

(** [np.kron]: every entry of [A] is replaced by that multiple of [B]. *)
Definition kron_row (ra rb : list Z) : list Z :=
  concat (map (λ x, map (Z.mul x) rb) ra).

Definition np_kron (A B : Matrix) : Matrix :=
  concat (map (λ ra, map (kron_row ra) B) A).

(** [int(N / 2)] truncates the quotient, [N % 2] is the floor remainder. *)
Definition pairwise_coupling (N : Z) : Res Matrix :=
  if decide (N `mod` 2 = 0) then
    let a := [[-1; 1]; [1; -1]] in
    E ← np_eye (N `quot` 2);
    Ok (np_kron E a)
  else Raise AssertionError.

(** networkx, as far as [circular_array_coupling] uses it.
    [cycle_graph(n)] has the nodes [0 .. n-1] and joins every node to its
    successor, the last one to node 0; the graph is undirected and simple.
    [laplacian_matrix] is [D - A] for the adjacency matrix [A] and the
    diagonal matrix [D] of its row sums, and is refused on a graph without
    nodes. *)
Record Graph := mkGraph {
  g_nodes : list nat;
  g_edges : list (nat * nat)
}.

Definition cycle_graph (n : Z) : Graph :=
  let k := Z.to_nat n in
  mkGraph (seq 0 k) (map (λ i, (i, (S i) `mod` k)%nat) (seq 0 k)).

Definition adjacent (g : Graph) (i j : nat) : bool :=
  existsb (λ e, bool_decide (e = (i, j)) || bool_decide (e = (j, i))) (g_edges g).

Definition adjacency_matrix (g : Graph) : Matrix :=
  map (λ i, map (λ j, if adjacent g i j then 1 else 0) (g_nodes g)) (g_nodes g).

Definition diag_row (n i : nat) (d : Z) : list Z :=
  map (λ j, if decide (i = j) then d else 0) (seq 0 n).

Definition laplacian_matrix (g : Graph) : Res Matrix :=
  match g_nodes g with
  | [] => Raise NetworkXError
  | _ =>
      let A := adjacency_matrix g in
      Ok (imap (λ i row, zip_with Z.sub (diag_row (length row) i (sum_list_Z row)) row) A)
  end.

Definition mat_scale (c : Z) (A : Matrix) : Matrix := map (map (Z.mul c)) A.

Definition circular_array_coupling (N : Z) : Res Matrix :=
  let g := cycle_graph N in
  L ← laplacian_matrix g;
  Ok (mat_scale (-1) L).

End Control.

(** ** glyph/application.py *)

Module Glyph.

(** *** State and exceptions

    A method is a function from the state it can reach to its outcome and
    the state it leaves; a raised exception keeps the mutations made before
    it. *)
Definition M (S A : Type) : Type := S → Res A * S.

#[export] Instance M_ret {S} : MRet (M S) := λ A a s, (Ok a, s).
#[export] Instance M_bind {S} : MBind (M S) := λ A B k m s,
  match m s with
  | (Ok a, s') => k a s'
  | (Raise e, s') => (Raise e, s')
  end.

Definition get {S} : M S S := λ s, (Ok s, s).
Definition modify {S} (f : S → S) : M S unit := λ s, (Ok tt, f s).
Definition raise {S A} (e : PyExc) : M S A := λ s, (Raise e, s).
Definition lift_res {S A} (r : Res A) : M S A := λ s, (r, s).

(** Reading an attribute that may not have been assigned yet. *)
Definition getattr {S A} (o : option A) : M S A :=
  match o with
  | Some a => mret a
  | None => raise AttributeError
  end.

(** [a % b] on Python ints. *)
Definition py_mod (a b : Z) : Res Z :=
  if decide (b = 0) then Raise ZeroDivisionError else Ok (a `mod` b).

(** *** The collaborators

    DEAP, the individual class and the assessment runner are not part of
    this file; [GPEnv] lists what the harness calls on them.  The stochastic
    operators read and advance the state of Python's global generator; the
    assessment runner only updates fitness values, the hall of fame and the
    statistics are DEAP's deterministic bookkeeping. *)
Class GPEnv := {
  Rng : Type;
  Individual : Type;
  Algorithm : Type;
  StatRecord : Type;
  (* random.seed(n) *)
  rng_seed : Z → Rng;
  (* IndividualClass.create_population(pop_size) *)
  create_population : Z → Rng → list Individual * Rng;
  (* algorithm_factory() *)
  algorithm_factory : Algorithm;
  (* algorithm.evolve(population) *)
  evolve : Algorithm → list Individual → Rng → list Individual * Algorithm * Rng;
  (* assessment_runner(population) *)
  assessment_runner : list Individual → list Individual;
  (* len(ind.fitness.values) *)
  fitness_values_len : Individual → nat;
  (* mstats.compile(population), for the statistics of n fitness values *)
  stats_compile : nat → list Individual → StatRecord;
  (* ParetoFront.update(population) *)
  pareto_update : list Individual → list Individual → list Individual
}.

Section App.
Context `{GPEnv}.

(** A record of the logbook: [gen] and the compiled statistics. *)
Record LogEntry := mkLogEntry {
  gen : Z;
  stats : StatRecord
}.

(** [deap.tools.Logbook]: the records and the index up to which [stream]
    has printed them. *)
Record Logbook := mkLogbook {
  entries : list LogEntry;
  buffindex : nat
}.

(** What the program does to the outside: log calls and file writes, in
    order. *)
Inductive Event :=
| EvLogInfo (es : list LogEntry)
| EvLogDebug (msg : string)
| EvWrite (file_name : string) (data : list Byte.byte).

Record World := mkWorld {
  rng : Rng;
  files : gmap string (list Byte.byte);
  trace : list Event
}.

Definition set_rng (s : Rng) (w : World) : World :=
  mkWorld s (files w) (trace w).
Definition emit (e : Event) (w : World) : World :=
  mkWorld (rng w) (files w) (trace w ++ [e]).
Definition write_file (f : string) (data : list Byte.byte) (w : World) : World :=
  mkWorld (rng w) (<[f := data]> (files w)) (trace w ++ [EvWrite f data]).

(** *** GPRunner

    An attribute holds [None] until it is assigned; [halloffame] and
    [logbook] start as the placeholders [[]] and [''] of [__init__], which
    have none of the methods used later, and are [None] until [init]
    replaces them.  [mstats] is a [MultiStatistics] over [n] fitness values,
    represented by [n]; it is falsy when unset, [None] or empty. *)
Record GPRunner := mkGPRunner {
  halloffame : option (list Individual);
  logbook : option Logbook;
  mstats : option nat;
  step_count : option Z;
  population : option (list Individual);
  algorithm : option Algorithm;
  _tmp_state : option Rng;
  _prev_state : option Rng
}.

Definition GPRunner_new : GPRunner :=
  mkGPRunner None None None None None None None None.

Definition set_halloffame v (g : GPRunner) :=
  mkGPRunner v (logbook g) (mstats g) (step_count g) (population g) (algorithm g)
    (_tmp_state g) (_prev_state g).
Definition set_logbook v (g : GPRunner) :=
  mkGPRunner (halloffame g) v (mstats g) (step_count g) (population g) (algorithm g)
    (_tmp_state g) (_prev_state g).
Definition set_mstats v (g : GPRunner) :=
  mkGPRunner (halloffame g) (logbook g) v (step_count g) (population g) (algorithm g)
    (_tmp_state g) (_prev_state g).
Definition set_step_count v (g : GPRunner) :=
  mkGPRunner (halloffame g) (logbook g) (mstats g) v (population g) (algorithm g)
    (_tmp_state g) (_prev_state g).
Definition set_population v (g : GPRunner) :=
  mkGPRunner (halloffame g) (logbook g) (mstats g) (step_count g) v (algorithm g)
    (_tmp_state g) (_prev_state g).
Definition set_algorithm v (g : GPRunner) :=
  mkGPRunner (halloffame g) (logbook g) (mstats g) (step_count g) (population g) v
    (_tmp_state g) (_prev_state g).
Definition set_tmp_state v (g : GPRunner) :=
  mkGPRunner (halloffame g) (logbook g) (mstats g) (step_count g) (population g)
    (algorithm g) v (_prev_state g).
Definition set_prev_state v (g : GPRunner) :=
  mkGPRunner (halloffame g) (logbook g) (mstats g) (step_count g) (population g)
    (algorithm g) (_tmp_state g) v.

(** The methods of a runner see the world and the runner. *)
Abbreviation RunnerM := (M (World * GPRunner)).

Definition self_get {A} (attr : GPRunner → option A) : RunnerM A :=
  s ← get; getattr (attr s.2).
Definition self_set (f : GPRunner → GPRunner) : RunnerM unit :=
  modify (λ s, (s.1, f s.2)).

(** [random_state(cls)]: the context manager around the stochastic
    operators.  Nothing after [yield] runs when the body raises. *)
Definition random_state {A} (body : RunnerM A) : RunnerM A :=
  (* cls._tmp_state = rng.getstate() *)
  _ ← modify (λ s, (s.1, set_tmp_state (Some (rng s.1)) s.2));
  (* rng.setstate(getattr(cls, '_prev_state', rng.getstate())) *)
  _ ← modify (λ s, (set_rng (default (rng s.1) (_prev_state s.2)) s.1, s.2));
  r ← body;
  (* cls._prev_state = rng.getstate() *)
  _ ← modify (λ s, (s.1, set_prev_state (Some (rng s.1)) s.2));
  (* rng.setstate(getattr(cls, '_tmp_state', rng.getstate())) *)
  _ ← modify (λ s, (set_rng (default (rng s.1) (_tmp_state s.2)) s.1, s.2));
  mret r.

(** [create_stats(n)]. *)
Definition create_stats (n : nat) : nat := n.

Definition GPRunner_update : RunnerM unit :=
  (* self.assessment_runner(self.population) *)
  pop ← self_get population;
  _ ← self_set (set_population (Some (assessment_runner pop)));
  (* self.halloffame.update(self.population) *)
  hof ← self_get halloffame;
  pop ← self_get population;
  _ ← self_set (set_halloffame (Some (pareto_update hof pop)));
  (* if not self.mstats: self.mstats = create_stats(...) *)
  g ← get;
  _ ← (match mstats g.2 with
       | Some (S _) => mret tt
       | _ =>
           pop ← self_get population;
           ind ← lift_res (py_index pop 0);
           self_set (set_mstats (Some (create_stats (fitness_values_len ind))))
       end);
  (* record = self.mstats.compile(self.population) *)
  ms ← self_get mstats;
  pop ← self_get population;
  let record := stats_compile ms pop in
  (* self.logbook.record(gen=self.step_count, **record) *)
  lb ← self_get logbook;
  sc ← self_get step_count;
  self_set (set_logbook (Some (mkLogbook (entries lb ++ [mkLogEntry sc record]) (buffindex lb)))).

Definition GPRunner_init (pop_size : Z) : RunnerM unit :=
  _ ← self_set (set_halloffame (Some []));
  _ ← self_set (set_logbook (Some (mkLogbook [] 0)));
  _ ← self_set (set_mstats None);
  _ ← self_set (set_step_count (Some 0));
  _ ← random_state (
        s ← get;
        let '(pop, r) := create_population pop_size (rng s.1) in
        _ ← modify (λ s, (set_rng r s.1, s.2));
        self_set (set_population (Some pop)));
  _ ← self_set (set_algorithm (Some algorithm_factory));
  GPRunner_update.

Definition GPRunner_step : RunnerM unit :=
  _ ← random_state (
        alg ← self_get algorithm;
        pop ← self_get population;
        s ← get;
        let '(pop', alg', r) := evolve alg pop (rng s.1) in
        _ ← modify (λ s, (set_rng r s.1, set_algorithm (Some alg') s.2));
        self_set (set_population (Some pop')));
  sc ← self_get step_count;
  _ ← self_set (set_step_count (Some (sc + 1)));
  GPRunner_update.

(** *** Application *)

(** A value of the [checkpoint_frequency] option: an [int], or anything
    that is not one. *)
Inductive PyVal :=
| PyInt (n : Z)
| PyOther.

(** The options of [add_options], as attributes of the namespace. *)
Record Args := mkArgs {
  pop_size : Z;
  num_generations : Z;
  seed : Z;
  checkpoint_frequency : PyVal
}.

(** What [Application] accepts as [config]. *)
Inductive Config :=
| Namespace (a : Args)
| Dict (a : Args)
| NotAConfig.

Definition to_argparse_namespace (d : Config) : Res Args :=
  match d with
  | Namespace a => Ok a
  | Dict a => Ok a
  | NotAConfig => Raise RuntimeError
  end.

Record Application := mkApplication {
  args : Args;
  gp_runner : GPRunner;
  checkpoint_file : option string;
  pareto_fronts : list (list Individual);
  _initialized : bool
}.

Definition set_gp_runner g (app : Application) :=
  mkApplication (args app) g (checkpoint_file app) (pareto_fronts app) (_initialized app).
Definition set_pareto_fronts p (app : Application) :=
  mkApplication (args app) (gp_runner app) (checkpoint_file app) p (_initialized app).
Definition set_initialized b (app : Application) :=
  mkApplication (args app) (gp_runner app) (checkpoint_file app) (pareto_fronts app) b.

(** [Application.__init__]. *)
Definition Application_new (config : Config) (g : GPRunner) (file : option string)
  : Res Application :=
  a ← to_argparse_namespace config;
  Ok (mkApplication a g file [] false).

(** The values a checkpoint holds under its keys. *)
Inductive PyObj :=
| ObjArgs (a : Args)
| ObjRunner (g : GPRunner)
| ObjRandomState (s : Rng)
| ObjParetoFronts (p : list (list Individual)).

(** dill: serialisation of a keyword dictionary to bytes and back. *)
Class Pickler := {
  dill_dump : gmap string PyObj → list Byte.byte;
  dill_load : list Byte.byte → Res (gmap string PyObj)
}.

Context `{Pickler}.

(** The methods of an application see the world and the application. *)
Abbreviation AppM := (M (World * Application)).

Definition lift_runner {A} (m : RunnerM A) : AppM A :=
  λ s, let '(r, (w, g)) := m (s.1, gp_runner s.2) in (r, (w, set_gp_runner g s.2)).

(** [safe(file_name, **kwargs)]. *)
Definition safe (file_name : string) (kwargs : gmap string PyObj) (w : World) : World :=
  write_file file_name (dill_dump kwargs) w.

(** [load(file_name)]. *)
Definition load (file_name : string) (w : World) : Res (gmap string PyObj) :=
  match files w !! file_name with
  | Some data => dill_load data
  | None => Raise FileNotFoundError
  end.

(** [cp[key]]. *)
Definition dict_get (cp : gmap string PyObj) (key : string) : Res PyObj :=
  match cp !! key with
  | Some v => Ok v
  | None => Raise KeyError
  end.

Definition valid_checkpointing (app : Application) : bool :=
  match checkpoint_file app, checkpoint_frequency (args app) with
  | Some _, PyInt _ => true
  | _, _ => false
  end.

Definition checkpoint_kwargs (w : World) (app : Application) : gmap string PyObj :=
  <["pareto_fronts" := ObjParetoFronts (pareto_fronts app)]>
  (<["random_state" := ObjRandomState (rng w)]>
  (<["runner" := ObjRunner (gp_runner app)]>
  (<["args" := ObjArgs (args app)]> ∅))).

(** [Application.checkpoint]; [open(None, 'wb')] is a [TypeError]. *)
Definition Application_checkpoint : AppM unit :=
  s ← get;
  match checkpoint_file s.2 with
  | None => raise TypeError
  | Some f =>
      _ ← modify (λ s, (safe f (checkpoint_kwargs s.1 s.2) s.1, s.2));
      modify (λ s, (emit (EvLogDebug ("Saved checkpoint to " +:+ f)) s.1, s.2))
  end.

(** [logbook.stream]: the records added since the last call. *)
Definition logbook_stream : RunnerM (list LogEntry) :=
  lb ← self_get logbook;
  _ ← self_set (set_logbook (Some (mkLogbook (entries lb) (length (entries lb)))));
  mret (drop (buffindex lb) (entries lb)).

Definition Application_update : AppM unit :=
  (* self.logger.info(self.gp_runner.logbook.stream) *)
  msg ← lift_runner logbook_stream;
  _ ← modify (λ s, (emit (EvLogInfo msg) s.1, s.2));
  (* self.pareto_fronts.append(self.gp_runner.halloffame[:]) *)
  _ ← modify (λ s, (s.1, set_pareto_fronts
         (pareto_fronts s.2 ++ [default [] (halloffame (gp_runner s.2))]) s.2));
  s ← get;
  if valid_checkpointing s.2 then
    sc ← getattr (step_count (gp_runner s.2));
    match checkpoint_frequency (args s.2) with
    | PyInt n =>
        r ← lift_res (py_mod sc n);
        if decide (r = 0) then Application_checkpoint else mret tt
    | PyOther => mret tt
    end
  else mret tt.

(** The [while] loop of [run].  Every iteration uses one unit of [fuel];
    [None] reports that the fuel ran out before the loop ended. *)
Fixpoint run_loop (fuel : nat) (break_condition : Application → bool) (iterations : Z)
  : AppM (option Z) :=
  s ← get;
  sc ← getattr (step_count (gp_runner s.2));
  if bool_decide (sc < num_generations (args s.2)) && negb (break_condition s.2) then
    match fuel with
    | O => mret None
    | S fuel' =>
        _ ← lift_runner GPRunner_step;
        _ ← Application_update;
        run_loop fuel' break_condition (iterations + 1)
    end
  else mret (Some iterations).

Definition Application_run (fuel : nat) (break_condition : option (Application → bool))
  : AppM (option Z) :=
  let break_condition := default (λ _, false) break_condition in
  s ← get;
  if bool_decide (pop_size (args s.2) < 1) then mret (Some 0)
  else
    iterations ← (if negb (_initialized s.2) then
        (* random.seed(self.args.seed) *)
        _ ← modify (λ s, (set_rng (rng_seed (seed (args s.2))) s.1, s.2));
        _ ← lift_runner (GPRunner_init (pop_size (args s.2)));
        _ ← Application_update;
        mret 1
      else mret 0);
    run_loop fuel break_condition iterations.

(** [Application.from_checkpoint]; a value of the wrong kind under a key is
    reported as [TypeError]. *)
Definition Application_from_checkpoint (file_name : string) (w : World)
  : Res Application * World :=
  match load file_name w with
  | Raise e => (Raise e, w)
  | Ok cp =>
      match
        (a ← dict_get cp "args";
         g ← dict_get cp "runner";
         config ← (match a with ObjArgs a => Ok (Namespace a) | _ => Ok NotAConfig end);
         g ← (match g with ObjRunner g => Ok g | _ => Raise TypeError end);
         app ← Application_new config g (Some file_name);
         p ← dict_get cp "pareto_fronts";
         p ← (match p with ObjParetoFronts p => Ok p | _ => Raise TypeError end);
         let app := set_initialized true (set_pareto_fronts p app) in
         r ← dict_get cp "random_state";
         r ← (match r with ObjRandomState r => Ok r | _ => Raise TypeError end);
         Ok (app, r))
      with
      | Raise e => (Raise e, w)
      | Ok (app, r) => (Ok app, set_rng r w)
      end
  end.

End App.

Abbreviation RunnerM := (M (World * GPRunner)).
Abbreviation AppM := (M (World * Application)).

(** *** The factories

    A factory class keeps the objects it can create in the class attribute
    [mapping], a dict from lower-cased names to the objects.  [name] is
    [obj.__name__] and [lower] is [str.lower]. *)
Section Factories.
Context {Obj : Type} (name : Obj → string) (lower : string → string).

(** [get_mapping(group)]: the dict comprehension inserts the objects in the
    order of [group]. *)
Definition get_mapping (group : list Obj) : gmap string Obj :=
  foldl (λ m obj, <[lower (name obj) := obj]> m) ∅ group.

(** [cls.get_from_mapping(key)] for a class with the given [mapping]. *)
Definition get_from_mapping (mapping : gmap string Obj) (key : string) : Res Obj :=
  match mapping !! key with
  | Some func => Ok func
  | None => Raise RuntimeError
  end.

End Factories.

End Glyph.

(** ** setup.py *)

Module Setup.
Import Stdlib.Strings.Ascii.

Definition newline : ascii := "010"%char.

(** [content.split('\n')]: the pieces between the newlines, at least one. *)
Fixpoint split_newline (content : string) : list string :=
  match content with
  | EmptyString => [EmptyString]
  | String c rest =>
      if Ascii.eqb c newline then EmptyString :: split_newline rest
      else
        match split_newline rest with
        | [] => [String c EmptyString]
        | l :: ls => String c l :: ls
        end
  end.

(** What [read] returns: the list of lines, or the content as it is. *)
Inductive ReadResult :=
| Lines (ls : list string)
| Content (content : string).

(** [read(fname, split=True)] on the text files [fs]. *)
Definition read (fs : gmap string string) (fname : string) (split : bool)
  : Res ReadResult :=
  match fs !! fname with
  | None => Raise FileNotFoundError
  | Some content =>
      Ok (if split then Lines (split_newline content) else Content content)
  end.

End Setup.

(** * Vocabulary of the properties *)

Module ControlSpec.
Import Control.

(** ** Coupling matrices *)

(** The number of nodes a row couples node [i] to: the other nodes with a
    non-zero entry. *)
Definition neighbours (row : list Z) (i : nat) : nat :=
  length (filter (λ x, x ≠ 0) (delete i row)).

Definition mat_entry (M : Matrix) (i j : nat) : option Z :=
  M !! i ≫= (.!! j).

(** An [n]-by-[n] negated graph Laplacian: every row sums to zero, couples
    with weight one, and carries minus its number of neighbours on the
    diagonal. *)
Definition negated_laplacian (n : nat) (M : Matrix) : Prop :=
  length M = n ∧
  ∀ i row, M !! i = Some row →
    length row = n ∧
    sum_list_Z row = 0 ∧
    Forall (λ x, x = 0 ∨ x = 1) (delete i row) ∧
    row !! i = Some (- Z.of_nat (neighbours row i)).

(** Row [i] of [np.eye(k)]. *)
Definition eye_row (k i : nat) : list Z :=
  map (λ j, if decide (i = j) then 1 else 0) (seq 0 k).

(** The block coupling the two nodes of a pair. *)
Definition pair_block : Matrix := [[-1; 1]; [1; -1]].

Definition adjacency_row (g : Graph) (i : nat) : list Z :=
  map (λ j, if adjacent g i j then 1 else 0) (g_nodes g).

Definition negated_laplacian_row_of (g : Graph) (i : nat) : list Z :=
  map (Z.mul (-1))
    (zip_with Z.sub
       (diag_row (length (g_nodes g)) i (sum_list_Z (adjacency_row g i)))
       (adjacency_row g i)).

(** ** integrate *)

Section Integrate.
Context {T : Type} `{Scalar T} `{Integrator T}.

(** How the loop of [odeint] ends: every step succeeds, or some call of
    [ode.integrate] leaves [ode.successful()] false and the generator
    returns early, or some call raises. *)
Inductive Ending :=
| Completed
| Stopped
| Raised (e : PyExc).

Fixpoint ending (f : T → list T → Res (list T)) (ode : Ode T) (xs : list T) : Ending :=
  match xs with
  | [] => Completed
  | value :: rest =>
      match ode_integrate f ode value with
      | Raise e => Raised e
      | Ok ode' => if ode_successful ode' then ending f ode' rest else Stopped
      end
  end.

(** The entries of a result of [integrate]. *)
Definition nd_entries (r : NdArray T) : list T :=
  match r with
  | Flat xs => xs
  | TwoDim a => concat (a2_rows a)
  end.

(** The integrator keeps the dimension of the state. *)
Definition keeps_dimension : Prop :=
  ∀ f y t value y' ok,
    integrator_run f y t value = Ok (y', ok) → length y' = length y.


(** Entry [(i, j)] of a result of [integrate]: component [i] at [x[j]]. *)
Definition nd_entry (r : NdArray T) (i j : nat) : option T :=
  match r with
  | Flat xs => if decide (i = 0%nat) then xs !! j else None
  | TwoDim a => a2_rows a !! i ≫= (.!! j)
  end.

End Integrate.

(** ** Coupled systems *)

Section Coupled.
Context {T : Type}.

(** [v] is a scalar or an array with one entry per oscillator. *)
Definition fits (n : nat) (v : NpVal T) : Prop :=
  match v with
  | NpScalar _ => True
  | NpArray xs => length xs = n
  end.

(** A coupling matrix for [n] oscillators. *)
Definition square (n : nat) (m : list (list T)) : Prop :=
  length m = n ∧ Forall (λ row, length row = n) m.

End Coupled.

(** The coupling of node [i] to node [j] in a ring of [n] nodes. *)
Definition ring_entry (n i j : nat) : Z :=
  if decide (i = j) then -2
  else if decide (j = (S i) `mod` n ∨ i = (S j) `mod` n)%nat then 1
  else 0.

Definition symmetric (M : Matrix) : Prop :=
  ∀ i j, mat_entry M i j = mat_entry M j i.

End ControlSpec.

Module GlyphSpec.
Import Glyph.

Section Vocabulary.
Context `{HE : GPEnv} `{HP : !Pickler}.

(** The statistics object [_update] compiles with: the one already there,
    or a new one for the fitness values of the first individual. *)
Definition stats_after (ms : option nat) (ind : Individual) : nat :=
  match ms with
  | Some (S k) => S k
  | _ => create_stats (fitness_values_len ind)
  end.

(** The logbook once [stream] has printed it. *)
Definition streamed (lb : Logbook) : Logbook :=
  mkLogbook (entries lb) (length (entries lb)).

(** The application after the first two statements of [_update]. *)
Definition logged_app (app : Application) (lb : Logbook) : Application :=
  set_pareto_fronts
    (pareto_fronts app ++ [default [] (halloffame (gp_runner app))])
    (set_gp_runner (set_logbook (Some (streamed lb)) (gp_runner app)) app).

Definition logged_world (w : World) (lb : Logbook) : World :=
  emit (EvLogInfo (drop (buffindex lb) (entries lb))) w.

(** The condition under which an update writes a checkpoint, in the words of
    the specification: a checkpoint file is set, the frequency is an [int],
    and it divides the step count. *)
Definition checkpoint_condition (app : Application) : Prop :=
  ∃ f n sc,
    checkpoint_file app = Some f ∧
    checkpoint_frequency (args app) = PyInt n ∧
    step_count (gp_runner app) = Some sc ∧
    py_mod sc n = Ok 0.

#[export] Instance checkpoint_condition_dec app : Decision (checkpoint_condition app).
Proof.
  unfold checkpoint_condition.
  destruct (checkpoint_file app) as [f|];
    [|right; intros (? & ? & ? & ? & _); discriminate].
  destruct (checkpoint_frequency (args app)) as [n|];
    [|right; intros (? & ? & ? & _ & ? & _); discriminate].
  destruct (step_count (gp_runner app)) as [sc|];
    [|right; intros (? & ? & ? & _ & _ & ? & _); discriminate].
  destruct (py_mod sc n) as [[| |]|] eqn:Hm;
    try (right; intros (? & ? & ? & ? & ? & ? & ?); simplify_eq; congruence).
  left. by exists f, n, sc.
Defined.

(** No [ZeroDivisionError] in [_update]: the frequency is not the int 0
    while a checkpoint file is set. *)
Definition frequency_ok (app : Application) : Prop :=
  checkpoint_file app = None ∨ checkpoint_frequency (args app) ≠ PyInt 0.

(** What an event shows of an update: the generations of the records
    logged, the file written, the debug message. *)
Inductive Tag :=
| TagInfo (gens : list Z)
| TagWrite (f : string)
| TagDebug.

Definition event_tag (e : Event) : Tag :=
  match e with
  | EvLogInfo es => TagInfo (map gen es)
  | EvWrite f _ => TagWrite f
  | EvLogDebug _ => TagDebug
  end.

(** The events of the update at step count [sc]: the record of that
    generation is logged, and the checkpoint is written when a file is set
    and the int frequency divides [sc]. *)
Definition update_tags (cf : option string) (fr : PyVal) (sc : Z) : list Tag :=
  TagInfo [sc] ::
  match cf, fr with
  | Some f, PyInt n =>
      match py_mod sc n with
      | Ok 0 => [TagWrite f; TagDebug]
      | _ => []
      end
  | _, _ => []
  end.

(** The collaborators never hand back an empty population. *)
Definition populated : Prop :=
  (∀ n s, 1 ≤ n → (create_population n s).1 ≠ []) ∧
  (∀ alg pop s, pop ≠ [] → (evolve alg pop s).1.1 ≠ []) ∧
  (∀ pop, pop ≠ [] → assessment_runner pop ≠ []).

(** A runner between two iterations of [run]: initialised, at step count
    [sc], with every record of the logbook streamed. *)
Definition ready (g : GPRunner) (sc : Z) : Prop :=
  step_count g = Some sc ∧ is_Some (algorithm g) ∧ is_Some (halloffame g) ∧
  (∃ pop, population g = Some pop ∧ pop ≠ []) ∧
  (∃ lb, logbook g = Some lb ∧ buffindex lb = length (entries lb)).

(** A runner right after [init] or [step]: the record of generation [sc] is
    in the logbook and not streamed yet. *)
Definition pending (g : GPRunner) (sc : Z) : Prop :=
  step_count g = Some sc ∧ is_Some (algorithm g) ∧ is_Some (halloffame g) ∧
  (∃ pop, population g = Some pop ∧ pop ≠ []) ∧
  (∃ es e, logbook g = Some (mkLogbook (es ++ [e]) (length es)) ∧ gen e = sc).

(** The accounting of a runner: the logbook holds one record per generation
    up to the current one, [step_count + 1] in all, the latest for the
    current step count. *)
Definition accounted (g : GPRunner) : Prop :=
  ∃ sc lb,
    step_count g = Some sc ∧ logbook g = Some lb ∧
    Z.of_nat (length (entries lb)) = sc + 1 ∧
    gen <$> last (entries lb) = Some sc.

(** [k] iterations of the loop of [run]. *)
Fixpoint evolve_steps (k : nat) : AppM unit :=
  match k with
  | O => mret tt
  | S k' =>
      _ ← lift_runner GPRunner_step;
      _ ← Application_update;
      evolve_steps k'
  end.

(** A first run spelled out: seed, initialise, update, then [k] evolution
    steps with their updates. *)
Definition run_script (k : nat) : AppM (option Z) :=
  s ← get;
  _ ← modify (λ s, (set_rng (rng_seed (seed (args s.2))) s.1, s.2));
  _ ← lift_runner (GPRunner_init (pop_size (args s.2)));
  _ ← Application_update;
  _ ← evolve_steps k;
  mret (Some (1 + Z.of_nat k)).

(** What a method of the application leaves alone: the options, the
    checkpoint file and the [_initialized] flag stay as they are, the Pareto
    fronts and the events only grow, and no file other than the checkpoint
    file is touched. *)
Definition run_frame (s s' : World * Application) : Prop :=
  args s'.2 = args s.2 ∧
  checkpoint_file s'.2 = checkpoint_file s.2 ∧
  _initialized s'.2 = _initialized s.2 ∧
  pareto_fronts s.2 `prefix_of` pareto_fronts s'.2 ∧
  trace s.1 `prefix_of` trace s'.1 ∧
  ∀ f, checkpoint_file s.2 ≠ Some f → files s'.1 !! f = files s.1 !! f.

(** Two runners that differ at most in the saved global state [_tmp_state]. *)
Definition same_run (g1 g2 : GPRunner) : Prop :=
  halloffame g1 = halloffame g2 ∧ logbook g1 = logbook g2 ∧
  mstats g1 = mstats g2 ∧ step_count g1 = step_count g2 ∧
  population g1 = population g2 ∧ algorithm g1 = algorithm g2 ∧
  _prev_state g1 = _prev_state g2.

End Vocabulary.

End GlyphSpec.

Module SetupSpec.
Import Setup.

(** ['\n'.join(ls)]. *)
Fixpoint join_newline (ls : list string) : string :=
  match ls with
  | [] => EmptyString
  | [l] => l
  | l :: rest => l +:+ String newline (join_newline rest)
  end.

Fixpoint has_newline (s : string) : bool :=
  match s with
  | EmptyString => false
  | String c rest => Ascii.eqb c newline || has_newline rest
  end.

Fixpoint count_newlines (s : string) : nat :=
  match s with
  | EmptyString => 0
  | String c rest => (if Ascii.eqb c newline then 1 else 0) + count_newlines rest
  end.

End SetupSpec.

(** * A small concrete environment

    Integers for the random state, the individuals and the statistics, and a
    pickler that writes the code of a dictionary bit by bit: enough to run
    the harness. *)
Module Toy.
Import Glyph.

#[export] Instance toy_env : GPEnv := {|
  Rng := Z;
  Individual := Z;
  Algorithm := unit;
  StatRecord := Z;
  rng_seed := λ n, n;
  create_population := λ n s, (map (λ i, s + Z.of_nat i) (seq 0 (Z.to_nat n)), s + n);
  algorithm_factory := tt;
  evolve := λ _ pop s, (map (Z.add s) pop, tt, s + 1);
  assessment_runner := λ pop, pop;
  fitness_values_len := λ _, 1%nat;
  stats_compile := λ _ pop, foldr Z.max 0 pop;
  pareto_update := λ hof pop, take 1 pop
|}.

#[export] Instance PyVal_eq_dec : EqDecision PyVal.
Proof. solve_decision. Defined.
#[export] Instance Args_eq_dec : EqDecision Args.
Proof. solve_decision. Defined.
#[export] Instance LogEntry_eq_dec : EqDecision (@LogEntry toy_env).
Proof. unfold EqDecision, Decision. decide equality; apply Z.eq_dec. Defined.
#[export] Instance Logbook_eq_dec : EqDecision (@Logbook toy_env).
Proof. solve_decision. Defined.
#[export] Instance GPRunner_eq_dec : EqDecision (@GPRunner toy_env).
Proof.
  intros [h1 l1 m1 s1 p1 a1 t1 v1] [h2 l2 m2 s2 p2 a2 t2 v2].
  destruct (decide ((h1, l1, m1, s1, (p1, a1, t1, v1)) = (h2, l2, m2, s2, (p2, a2, t2, v2))))
    as [Heq|Hne]; [left; congruence|right; congruence].
Defined.
#[export] Instance PyObj_eq_dec : EqDecision (@PyObj toy_env).
Proof.
  intros [a1|g1|s1|p1] [a2|g2|s2|p2]; try (right; discriminate).
  - destruct (decide (a1 = a2)); [left|right]; congruence.
  - destruct (decide (g1 = g2)); [left|right]; congruence.
  - destruct (decide (s1 = s2)); [left|right]; congruence.
  - destruct (decide (p1 = p2)); [left|right]; congruence.
Defined.

#[export] Instance PyVal_countable : Countable PyVal :=
  inj_countable' (λ v, match v with PyInt n => Some n | PyOther => None end)
    (λ o, match o with Some n => PyInt n | None => PyOther end)
    (λ v, match v with PyInt _ => eq_refl | PyOther => eq_refl end).

#[export] Instance Args_countable : Countable Args :=
  inj_countable'
    (λ a, (pop_size a, num_generations a, seed a, checkpoint_frequency a))
    (λ t, mkArgs t.1.1.1 t.1.1.2 t.1.2 t.2)
    (λ a, match a with mkArgs _ _ _ _ => eq_refl end).

#[export] Instance LogEntry_countable : Countable (@LogEntry toy_env) :=
  inj_countable' (λ e, (gen e, stats e)) (λ t, mkLogEntry t.1 t.2)
    (λ e, match e with mkLogEntry _ _ => eq_refl end).

#[export] Instance Logbook_countable : Countable (@Logbook toy_env) :=
  inj_countable' (λ l, (entries l, buffindex l)) (λ t, mkLogbook t.1 t.2)
    (λ l, match l with mkLogbook _ _ => eq_refl end).

#[export] Instance GPRunner_countable : Countable (@GPRunner toy_env) :=
  inj_countable'
    (λ g, (halloffame g, logbook g, mstats g, step_count g,
           (population g, algorithm g, _tmp_state g, _prev_state g)))
    (λ t, mkGPRunner t.1.1.1.1 t.1.1.1.2 t.1.1.2 t.1.2 t.2.1.1.1 t.2.1.1.2 t.2.1.2 t.2.2)
    (λ g, match g with mkGPRunner _ _ _ _ _ _ _ _ => eq_refl end).

#[export] Instance PyObj_countable : Countable (@PyObj toy_env) :=
  inj_countable'
    (λ o, match o with
          | ObjArgs a => inl (inl a)
          | ObjRunner g => inl (inr g)
          | ObjRandomState s => inr (inl s)
          | ObjParetoFronts p => inr (inr p)
          end)
    (λ t, match t with
          | inl (inl a) => ObjArgs a
          | inl (inr g) => ObjRunner g
          | inr (inl s) => ObjRandomState s
          | inr (inr p) => ObjParetoFronts p
          end)
    (λ o, match o with
          | ObjArgs _ => eq_refl
          | ObjRunner _ => eq_refl
          | ObjRandomState _ => eq_refl
          | ObjParetoFronts _ => eq_refl
          end).

(** A positive number as bytes, one bit per byte, lowest bit first. *)
Fixpoint pos_to_bytes (p : positive) : list Byte.byte :=
  match p with
  | xH => []
  | xO p' => Byte.x00 :: pos_to_bytes p'
  | xI p' => Byte.x01 :: pos_to_bytes p'
  end.

Fixpoint bytes_to_pos (l : list Byte.byte) : positive :=
  match l with
  | [] => xH
  | Byte.x00 :: l' => xO (bytes_to_pos l')
  | _ :: l' => xI (bytes_to_pos l')
  end.

#[export] Instance toy_pickler : Pickler := {|
  dill_dump := λ d, pos_to_bytes (encode d);
  dill_load := λ data,
    match decode (bytes_to_pos data) with
    | Some d => Ok d
    | None => Raise ValueError
    end
|}.

Definition toy_args (n : Z) (freq : PyVal) : Args := mkArgs 2 n 7 freq.

Definition toy_app (n : Z) (freq : PyVal) (file : option string) : Application :=
  mkApplication (toy_args n freq) GPRunner_new file [] false.

Definition toy_world : World := mkWorld 0 ∅ [].

(** The runner of [toy_app] after [init] and the first update of a run, and
    an application resumed with it. *)
Definition toy_runner : GPRunner :=
  mkGPRunner (Some [7]) (Some (mkLogbook [mkLogEntry 0 8] 1)) (Some 1%nat) (Some 0)
    (Some [7; 8]) (Some tt) (Some 0) (Some 9).

Definition toy_resumed (n : Z) : Application :=
  mkApplication (toy_args n PyOther) toy_runner None [[7]] true.

(** A one-step integrator for the rationals: an Euler step forwards.  A
    step back (to a value before the abscissa reached) is reported as not
    successful, and an exception of the derivative is passed on. *)
#[export] Instance toy_integrator : Integrator Q := {|
  integrator_run := λ f y t value,
    if Qle_bool t value then
      d ← f t y;
      Ok (zip_with (λ yi di, (yi + (value - t) * di)%Q) y (d ++ replicate (length y) 0%Q),
          true)
    else Ok (y, false)
|}.

End Toy.

(** * Properties of the control-problem library *)

Import Control ControlSpec.

Section OscillatorProperties.
Context {T : Type} `{Scalar T}.

(** C6: for a state [y] with at least two components, the derivative built
    by [harmonic_oscillator actuator omega] evaluates to
    [[y[1], -(omega ** 2) * y[0] + actuator(y ++ args)]], whatever the time
    [t] is. *)
Theorem harmonic_oscillator_dy (actuator : list T → T) (omega t : T) (y args : list T) :
  (2 ≤ length y)%nat →
  ∃ y0 y1,
    y !! 0%nat = Some y0 ∧ y !! 1%nat = Some y1 ∧
    harmonic_oscillator actuator omega t y args =
      Ok [y1; s_add (s_mul (s_neg (s_pow omega 2)) y0) (actuator (y ++ args))] ∧
    ∀ t', harmonic_oscillator actuator omega t' y args =
          harmonic_oscillator actuator omega t y args.
Proof.
  intros Hlen.
  destruct y as [|y0 [|y1 y']]; simpl in Hlen; try lia.
  exists y0, y1. repeat split; reflexivity.
Qed.

(** Which exceptions the numpy operations can raise. *)
Lemma broadcast_raises {A B C} (f : A → B → C) u v e :
  broadcast f u v = Raise e → e = ValueError.
Proof.
  destruct u as [x|xs], v as [y|ys]; simpl; try discriminate.
  destruct (decide (length xs = length ys)); [discriminate|].
  destruct xs as [|x [|x' xs]], ys as [|y [|y' ys]]; simpl; congruence.
Qed.

Lemma broadcast_scalar_r {A B C} (f : A → B → C) u c :
  ∃ w, broadcast f u (NpScalar c) = Ok w ∧ Forall (λ p, ∃ x, p = f x c) (np_elems w).
Proof.
  destruct u as [x|xs]; simpl; eexists; split; try reflexivity; simpl.
  - constructor; eauto.
  - apply Forall_forall. intros p Hp. apply list_elem_of_In, in_map_iff in Hp.
    destruct Hp as (x & <- & _). eauto.
Qed.

Lemma np_div_scalar (u : NpVal T) (c : T) :
  s_is_zero c = false → ∃ w, np_div u (NpScalar c) = Ok w.
Proof.
  intros Hc. unfold np_div.
  destruct (broadcast_scalar_r pair u c) as (w & -> & Hw). simpl.
  assert (existsb (λ p : T * T, s_is_zero p.2) (np_elems w) = false) as ->.
  { induction Hw as [|p l (x & ->) _ IH]; simpl; [done|]. by rewrite Hc, IH. }
  eauto.
Qed.

Lemma coupling_dot_raises (A : Coupling T) v e :
  coupling_dot A v = Raise e → e ≠ ZeroDivisionError.
Proof.
  destruct A as [x|m]; simpl; [congruence|].
  destruct (forallb _ m); congruence.
Qed.

(** C8: [fitzhugh_nagumo] raises exactly when [tau == 0.0], the exception is
    [RuntimeError] and it is raised by the constructor; for any other [tau]
    a derivative is returned, and no evaluation of it divides by zero. *)
Theorem fitzhugh_nagumo_tau (actuator : list T → NpVal T) (sensor : list T → list T)
    (a b tau : T) (A : Coupling T) :
  (fitzhugh_nagumo actuator sensor a b tau A = Raise RuntimeError ↔ s_is_zero tau = true) ∧
  (∀ e, fitzhugh_nagumo actuator sensor a b tau A = Raise e → e = RuntimeError) ∧
  (s_is_zero tau = false →
     ∃ dy, fitzhugh_nagumo actuator sensor a b tau A = Ok dy ∧
           ∀ t y args, dy t y args ≠ Raise ZeroDivisionError).
Proof.
  unfold fitzhugh_nagumo.
  destruct (s_is_zero tau) eqn:Htau.
  - split; [tauto|]. split; [congruence|discriminate].
  - split; [split; discriminate|]. split; [discriminate|].
    intros _. eexists. split; [reflexivity|].
    intros t y args. cbv zeta.
    destruct (np_div_scalar (np_pow (NpArray (take (length y / 2) y)) 3) (s_of_Z 3))
      as (q & ->); [apply s_three_nonzero|].
    cbv [mbind res_bind np_sub np_add np_mul].
    repeat match goal with
    | |- context [np_div ?u (NpScalar tau)] =>
        destruct (np_div_scalar u tau Htau) as (? & ->)
    | |- context [match ?m with Ok _ => _ | Raise _ => _ end] =>
        let E := fresh "E" in
        destruct m as [?|?] eqn:E;
        [| first [ apply broadcast_raises in E; subst; discriminate
                 | apply coupling_dot_raises in E; congruence ] ]
    end.
    discriminate.
Qed.

End OscillatorProperties.

(** ** Coupling matrices *)


Lemma map_fmap {A B} (f : A → B) (l : list A) : map f l = f <$> l.
Proof. reflexivity. Qed.

Lemma sum_list_Z_app l1 l2 : sum_list_Z (l1 ++ l2) = sum_list_Z l1 + sum_list_Z l2.
Proof. induction l1 as [|x l1 IH]; simpl; [done|]. rewrite IH. lia. Qed.

Lemma sum_list_Z_replicate n x : sum_list_Z (replicate n x) = Z.of_nat n * x.
Proof. induction n as [|n IH]; simpl; [done|]. rewrite IH. lia. Qed.

Lemma sum_list_Z_scale c l : sum_list_Z (map (Z.mul c) l) = c * sum_list_Z l.
Proof. induction l as [|x l IH]; simpl; [lia|]. rewrite IH. lia. Qed.

Lemma sum_list_Z_insert l i x v :
  l !! i = Some x → sum_list_Z (<[i:=v]> l) = sum_list_Z l - x + v.
Proof.
  revert i. induction l as [|y l IH]; intros [|i] Hi; simpl in *; try done.
  - injection Hi as ->. lia.
  - rewrite (IH i Hi). lia.
Qed.

Lemma sum_list_Z_delete l i d :
  l !! i = Some d → sum_list_Z l = d + sum_list_Z (delete i l).
Proof.
  revert i. induction l as [|y l IH]; intros [|i] Hi; simpl in *; try done.
  - injection Hi as ->. done.
  - rewrite (IH i Hi). lia.
Qed.

Lemma sum_list_Z_unit_weights l :
  Forall (λ x, x = 0 ∨ x = 1) l →
  sum_list_Z l = Z.of_nat (length (filter (λ x, x ≠ 0) l)).
Proof.
  induction 1 as [|x l [->| ->] _ IH]; [done| |].
  - rewrite filter_cons_False by lia. simpl. lia.
  - rewrite filter_cons_True by lia. simpl. lia.
Qed.

Lemma sum_list_Z_sub l1 l2 :
  length l1 = length l2 →
  sum_list_Z (zip_with Z.sub l1 l2) = sum_list_Z l1 - sum_list_Z l2.
Proof.
  revert l2. induction l1 as [|x l1 IH]; intros [|y l2] Hl; simpl in *; try done.
  rewrite IH by lia. lia.
Qed.

Lemma Forall_delete_lookup {A} (P : A → Prop) (l : list A) i :
  (∀ j x, j ≠ i → l !! j = Some x → P x) → Forall P (delete i l).
Proof.
  intros HP. apply Forall_lookup. intros j x Hj.
  destruct (decide (j < i)%nat) as [Hlt|Hge].
  - rewrite list_lookup_delete_lt in Hj by done. apply (HP j); [lia|done].
  - rewrite list_lookup_delete_ge in Hj by lia. apply (HP (S j)); [lia|done].
Qed.

(** A row that sums to zero and couples with weight one has minus its
    number of neighbours on the diagonal. *)
Lemma negated_laplacian_row row i d :
  row !! i = Some d →
  sum_list_Z row = 0 →
  (∀ j x, j ≠ i → row !! j = Some x → x = 0 ∨ x = 1) →
  Forall (λ x, x = 0 ∨ x = 1) (delete i row) ∧
  row !! i = Some (- Z.of_nat (neighbours row i)).
Proof.
  intros Hd Hsum Hoff.
  assert (Forall (λ x, x = 0 ∨ x = 1) (delete i row)) as H01
    by (by apply Forall_delete_lookup).
  split; [done|]. rewrite Hd. f_equal. unfold neighbours.
  rewrite <- (sum_list_Z_unit_weights _ H01).
  rewrite (sum_list_Z_delete _ _ _ Hd) in Hsum. lia.
Qed.

(** *** global_coupling *)

Lemma global_coupling_rows (N : Z) :
  0 ≤ N →
  ∃ M, global_coupling N = Ok M ∧ length M = Z.to_nat N ∧
       ∀ i, (i < Z.to_nat N)%nat →
         M !! i = Some (<[i := -(N - 1)]> (replicate (Z.to_nat N) 1)).
Proof.
  intros HN. unfold global_coupling, np_ones.
  destruct (decide (N < 0 ∨ N < 0)) as [?|_]; [lia|].
  cbv [mbind res_bind].
  eexists. split; [reflexivity|]. unfold np_fill_diagonal. split.
  - by rewrite length_imap, length_replicate.
  - intros i Hi. rewrite list_lookup_imap, lookup_replicate_2 by done.
    simpl; repeat f_equal; lia.
Qed.

Lemma global_coupling_laplacian (N : Z) :
  0 ≤ N →
  ∃ M, global_coupling N = Ok M ∧ negated_laplacian (Z.to_nat N) M ∧
       ∀ i j, (i < Z.to_nat N)%nat → (j < Z.to_nat N)%nat →
         mat_entry M i j = Some (if decide (i = j) then -(N - 1) else 1).
Proof.
  intros HN. destruct (global_coupling_rows N HN) as (M & HM & Hlen & Hrows).
  exists M. split; [done|]. split; [split; [done|]|].
  - intros i row Hrow.
    assert (i < Z.to_nat N)%nat as Hi
      by (rewrite <- Hlen; apply lookup_lt_is_Some; eauto).
    rewrite (Hrows i Hi) in Hrow. injection Hrow as <-.
    split; [by rewrite length_insert, length_replicate|].
    assert (sum_list_Z (<[i := -(N - 1)]> (replicate (Z.to_nat N) 1)) = 0) as Hsum.
    { rewrite (sum_list_Z_insert _ i 1) by (by apply lookup_replicate_2).
      rewrite sum_list_Z_replicate. lia. }
    split; [done|].
    apply (negated_laplacian_row _ i (-(N - 1))); [|done|].
    + apply list_lookup_insert_eq. by rewrite length_replicate.
    + intros j x Hj Hx. rewrite list_lookup_insert_ne in Hx by done.
      apply lookup_replicate_1 in Hx as [-> _]. by right.
  - intros i j Hi Hj. unfold mat_entry. rewrite (Hrows i Hi). simpl.
    destruct (decide (i = j)) as [->|Hne].
    + apply list_lookup_insert_eq. by rewrite length_replicate.
    + rewrite list_lookup_insert_ne by done. by apply lookup_replicate_2.
Qed.

(** *** pairwise_coupling *)

Lemma lookup_concat_pairs {A B} (f g : A → B) (l : list A) (m c : nat) :
  (c < 2)%nat →
  concat (map (λ x, [f x; g x]) l) !! (2 * m + c)%nat =
    (λ x, if decide (c = 0%nat) then f x else g x) <$> l !! m.
Proof.
  intros Hc. revert m. induction l as [|x l IH]; intros m.
  - simpl. by rewrite !lookup_nil.
  - destruct m as [|m].
    + destruct c as [|[|c]]; [done|done|lia].
    + replace (2 * S m + c)%nat with (S (S (2 * m + c))) by lia. simpl. apply IH.
Qed.

Lemma length_concat_pairs {A B} (f g : A → B) (l : list A) :
  length (concat (map (λ x, [f x; g x]) l)) = (2 * length l)%nat.
Proof. induction l as [|x l IH]; simpl; [done|]. rewrite IH. lia. Qed.

Lemma sum_list_Z_kron_row ra rb :
  sum_list_Z (kron_row ra rb) = sum_list_Z ra * sum_list_Z rb.
Proof.
  unfold kron_row. induction ra as [|x ra IH]; simpl; [done|].
  rewrite sum_list_Z_app, sum_list_Z_scale, IH. lia.
Qed.


Lemma eye_row_lookup k i j :
  (j < k)%nat → eye_row k i !! j = Some (if decide (i = j) then 1 else 0).
Proof.
  intros Hj. unfold eye_row. rewrite map_fmap, list_lookup_fmap.
  by rewrite lookup_seq_lt.
Qed.


Lemma pairwise_coupling_rows (N : Z) :
  0 ≤ N → N `mod` 2 = 0 →
  ∃ M, pairwise_coupling N = Ok M ∧ length M = Z.to_nat N ∧
       ∀ m c, (m < Z.to_nat (N `quot` 2))%nat → (c < 2)%nat →
         M !! (2 * m + c)%nat =
           Some (kron_row (eye_row (Z.to_nat (N `quot` 2)) m)
                   (if decide (c = 0%nat) then [-1; 1] else [1; -1])).
Proof.
  intros HN Heven. unfold pairwise_coupling, np_eye.
  destruct (decide (N `mod` 2 = 0)) as [_|?]; [|done].
  assert (0 ≤ N `quot` 2) by (apply Z.quot_pos; lia).
  destruct (decide (N `quot` 2 < 0)) as [?|_]; [lia|].
  cbv [mbind res_bind].
  eexists. split; [reflexivity|]. unfold np_kron.
  rewrite map_map.
  change (concat (map ?F ?l)) with
    (concat (map (λ i, [kron_row (eye_row (Z.to_nat (N `quot` 2)) i) [-1; 1];
                        kron_row (eye_row (Z.to_nat (N `quot` 2)) i) [1; -1]]) l)).
  split.
  - rewrite length_concat_pairs, length_seq.
    rewrite Z.quot_div_nonneg by lia.
    pose proof (Z.div_mod N 2). lia.
  - intros m c Hm Hc. rewrite lookup_concat_pairs by done.
    rewrite lookup_seq_lt by done. simpl. by destruct (decide (c = 0%nat)).
Qed.

Lemma kron_row_pair_lookup ra x y m c :
  (c < 2)%nat →
  kron_row ra [x; y] !! (2 * m + c)%nat =
    (λ e, if decide (c = 0%nat) then e * x else e * y) <$> ra !! m.
Proof. intros Hc. unfold kron_row. by apply (lookup_concat_pairs (λ e, e * x) (λ e, e * y)). Qed.

Lemma length_kron_row_pair ra x y : length (kron_row ra [x; y]) = (2 * length ra)%nat.
Proof. unfold kron_row. apply (length_concat_pairs (λ e, e * x) (λ e, e * y)). Qed.

Lemma nat_pair_decompose (r : nat) : ∃ m c, r = (2 * m + c)%nat ∧ (c < 2)%nat.
Proof.
  exists (r / 2)%nat, (r `mod` 2)%nat. split.
  - apply Nat.div_mod_eq.
  - apply Nat.mod_upper_bound. lia.
Qed.

Lemma mat_entry_row (M : list (list Z)) i j row :
  M !! i = Some row → mat_entry M i j = row !! j.
Proof. intros Hr. unfold mat_entry. by rewrite Hr. Qed.

Lemma even_to_nat_half (N : Z) :
  0 ≤ N → N `mod` 2 = 0 → Z.to_nat N = (2 * Z.to_nat (N `quot` 2))%nat.
Proof.
  intros HN Heven. rewrite Z.quot_div_nonneg by lia.
  pose proof (Z.div_mod N 2). pose proof (Z.div_pos N 2). lia.
Qed.

Lemma pairwise_coupling_entries (N : Z) :
  0 ≤ N → N `mod` 2 = 0 →
  ∃ M, pairwise_coupling N = Ok M ∧ length M = Z.to_nat N ∧
       (∀ row, row ∈ M → length row = Z.to_nat N ∧ sum_list_Z row = 0) ∧
       ∀ m c m' c',
         (m < Z.to_nat (N `quot` 2))%nat → (m' < Z.to_nat (N `quot` 2))%nat →
         (c < 2)%nat → (c' < 2)%nat →
         mat_entry M (2 * m + c) (2 * m' + c') =
           if decide (m = m') then mat_entry pair_block c c' else Some 0.
Proof.
  intros HN Heven.
  destruct (pairwise_coupling_rows N HN Heven) as (M & HM & Hlen & Hrows).
  exists M. split; [done|]. split; [done|]. split.
  - intros row Hrow. apply list_elem_of_lookup in Hrow as [r Hr].
    assert (r < Z.to_nat N)%nat as Hlt
      by (rewrite <- Hlen; apply lookup_lt_is_Some; eauto).
    destruct (nat_pair_decompose r) as (m & c & -> & Hc).
    rewrite (even_to_nat_half N HN Heven) in Hlt.
    rewrite Hrows in Hr by (done || lia). injection Hr as <-.
    rewrite sum_list_Z_kron_row.
    destruct (decide (c = 0%nat)); rewrite length_kron_row_pair;
      unfold eye_row; rewrite length_map, length_seq;
      rewrite (even_to_nat_half N HN Heven); split; try done; simpl; lia.
  - intros m c m' c' Hm Hm' Hc Hc'.
    rewrite (mat_entry_row _ _ _ _ (Hrows m c Hm Hc)).
    assert (∀ x y, kron_row (eye_row (Z.to_nat (N `quot` 2)) m) [x; y] !! (2 * m' + c')%nat
               = Some (if decide (c' = 0%nat)
                       then (if decide (m = m') then 1 else 0) * x
                       else (if decide (m = m') then 1 else 0) * y)) as Hrow.
    { intros x y. rewrite kron_row_pair_lookup, eye_row_lookup by done. done. }
    destruct c as [|[|c]]; [| |lia]; destruct c' as [|[|c']]; try lia;
      [ destruct (decide (0%nat = 0%nat)) as [_|?]; [|done]
      | destruct (decide (0%nat = 0%nat)) as [_|?]; [|done]
      | destruct (decide (1%nat = 0%nat)) as [?|_]; [done|]
      | destruct (decide (1%nat = 0%nat)) as [?|_]; [done|] ];
      rewrite Hrow; by destruct (decide (m = m')).
Qed.

Lemma pairwise_coupling_laplacian (N : Z) :
  0 ≤ N → N `mod` 2 = 0 →
  ∃ M, pairwise_coupling N = Ok M ∧ negated_laplacian (Z.to_nat N) M.
Proof.
  intros HN Heven.
  destruct (pairwise_coupling_entries N HN Heven) as (M & HM & Hlen & Hrows & Hent).
  exists M. split; [done|]. split; [done|].
  intros r row Hr.
  assert (row ∈ M) as Hin by (apply list_elem_of_lookup; eauto).
  destruct (Hrows row Hin) as [Hrl Hsum]. split; [done|]. split; [done|].
  assert (r < Z.to_nat N)%nat as Hlt
    by (rewrite <- Hlen; apply lookup_lt_is_Some; eauto).
  destruct (nat_pair_decompose r) as (m & c & -> & Hc).
  rewrite (even_to_nat_half N HN Heven) in Hlt.
  assert (m < Z.to_nat (N `quot` 2))%nat as Hm by lia.
  apply (negated_laplacian_row _ _ (-1)); [|done|].
  - specialize (Hent m c m c Hm Hm Hc Hc).
    rewrite (mat_entry_row _ _ _ _ Hr) in Hent. rewrite Hent.
    rewrite decide_True by done. by destruct c as [|[|c]]; [| |lia].
  - intros j x Hj Hx.
    assert (j < Z.to_nat N)%nat as Hjlt
      by (rewrite <- Hrl; apply lookup_lt_is_Some; eauto).
    destruct (nat_pair_decompose j) as (m' & c' & -> & Hc').
    rewrite (even_to_nat_half N HN Heven) in Hjlt.
    assert (m' < Z.to_nat (N `quot` 2))%nat as Hm' by lia.
    specialize (Hent m c m' c' Hm Hm' Hc Hc').
    rewrite (mat_entry_row _ _ _ _ Hr) in Hent. rewrite Hent in Hx.
    destruct (decide (m = m')) as [->|_]; [|injection Hx as <-; by left].
    destruct c as [|[|c]]; [| |lia]; destruct c' as [|[|c']]; try lia;
      simpl in Hx; injection Hx as <-; (by right) || (exfalso; lia).
Qed.

(** *** circular_array_coupling *)

Lemma sum_diag_row_from (i : nat) (d : Z) (k s : nat) :
  sum_list_Z (map (λ j, if decide (i = j) then d else 0) (seq s k)) =
    if decide (s ≤ i < s + k)%nat then d else 0.
Proof.
  revert s. induction k as [|k IH]; intros s; simpl.
  - destruct (decide (s ≤ i < s + 0)%nat); [lia|done].
  - rewrite IH.
    destruct (decide (i = s)), (decide (S s ≤ i < S s + k)%nat),
      (decide (s ≤ i < s + S k)%nat); lia.
Qed.

Lemma sum_diag_row n i d : (i < n)%nat → sum_list_Z (diag_row n i d) = d.
Proof.
  intros Hi. unfold diag_row. rewrite sum_diag_row_from.
  destruct (decide (0 ≤ i < 0 + n)%nat); [done|lia].
Qed.


Lemma circular_array_coupling_rows (N : Z) :
  1 ≤ N →
  ∃ M, circular_array_coupling N = Ok M ∧ length M = Z.to_nat N ∧
       g_nodes (cycle_graph N) = seq 0 (Z.to_nat N) ∧
       ∀ i, (i < Z.to_nat N)%nat →
         M !! i = Some (negated_laplacian_row_of (cycle_graph N) i).
Proof.
  intros HN. unfold circular_array_coupling, laplacian_matrix.
  assert (g_nodes (cycle_graph N) = seq 0 (Z.to_nat N)) as Hnodes by done.
  destruct (g_nodes (cycle_graph N)) as [|v vs] eqn:Hg.
  { destruct (Z.to_nat N) eqn:Hn; [lia|done]. }
  cbv [mbind res_bind]. eexists. split; [reflexivity|].
  unfold mat_scale, adjacency_matrix. rewrite Hg, Hnodes.
  split; [|split; [done|]].
  - by rewrite length_map, length_imap, length_map, length_seq.
  - intros i Hi.
    rewrite !map_fmap, list_lookup_fmap, list_lookup_imap, list_lookup_fmap.
    rewrite lookup_seq_lt by done. simpl.
    unfold negated_laplacian_row_of, adjacency_row. rewrite Hg, Hnodes.
    by rewrite !map_fmap, !length_fmap, length_seq.
Qed.

Lemma negated_laplacian_row_of_lookup (g : Graph) n i j :
  g_nodes g = seq 0 n → (j < n)%nat →
  negated_laplacian_row_of g i !! j =
    Some (-1 * ((if decide (i = j) then sum_list_Z (adjacency_row g i) else 0)
                - (if adjacent g i j then 1 else 0))).
Proof.
  intros Hnodes Hj. unfold negated_laplacian_row_of.
  rewrite map_fmap, list_lookup_fmap, lookup_zip_with.
  unfold diag_row, adjacency_row. rewrite Hnodes, length_seq.
  rewrite !map_fmap, !list_lookup_fmap, lookup_seq_lt by done. done.
Qed.

Lemma circular_array_coupling_laplacian (N : Z) :
  1 ≤ N →
  ∃ M, circular_array_coupling N = Ok M ∧ negated_laplacian (Z.to_nat N) M.
Proof.
  intros HN.
  destruct (circular_array_coupling_rows N HN) as (M & HM & Hlen & Hnodes & Hrows).
  exists M. split; [done|]. split; [done|].
  intros i row Hrow.
  assert (i < Z.to_nat N)%nat as Hi
    by (rewrite <- Hlen; apply lookup_lt_is_Some; eauto).
  rewrite (Hrows i Hi) in Hrow. injection Hrow as <-.
  assert (length (adjacency_row (cycle_graph N) i) = Z.to_nat N) as Hal
    by (unfold adjacency_row; by rewrite length_map, Hnodes, length_seq).
  assert (length (negated_laplacian_row_of (cycle_graph N) i) = Z.to_nat N) as Hrl.
  { unfold negated_laplacian_row_of.
    rewrite length_map, length_zip_with, Hal. unfold diag_row.
    rewrite length_map, length_seq, Hnodes, length_seq. lia. }
  split; [done|].
  assert (sum_list_Z (negated_laplacian_row_of (cycle_graph N) i) = 0) as Hsum.
  { unfold negated_laplacian_row_of.
    rewrite sum_list_Z_scale, sum_list_Z_sub.
    - rewrite sum_diag_row; [lia|]. by rewrite Hnodes, length_seq.
    - unfold diag_row. by rewrite length_map, length_seq, Hnodes, length_seq. }
  split; [done|].
  eapply negated_laplacian_row; [|done|].
  - by apply (negated_laplacian_row_of_lookup _ (Z.to_nat N)).
  - intros j x Hj Hx.
    assert (j < Z.to_nat N)%nat as Hjlt
      by (rewrite <- Hrl; apply lookup_lt_is_Some; eauto).
    rewrite (negated_laplacian_row_of_lookup _ (Z.to_nat N)) in Hx by done.
    injection Hx as <-. rewrite decide_False by done.
    destruct (adjacent (cycle_graph N) i j); [by right|by left].
Qed.

(** C7: for every [N >= 1] the three generators return [N]-by-[N] negated
    graph Laplacians ([pairwise_coupling] for even [N]): every row sums to
    zero, the off-diagonal entries are the couplings 0 and 1, and the
    diagonal entry of a row is minus its number of coupled neighbours;
    [global_coupling N] has [-(N-1)] on the diagonal and 1 elsewhere. *)
Theorem coupling_matrices_are_negated_laplacians (N : Z) :
  1 ≤ N →
  (∃ M, global_coupling N = Ok M ∧ negated_laplacian (Z.to_nat N) M ∧
        ∀ i j, (i < Z.to_nat N)%nat → (j < Z.to_nat N)%nat →
          mat_entry M i j = Some (if decide (i = j) then -(N - 1) else 1)) ∧
  (N `mod` 2 = 0 →
     ∃ M, pairwise_coupling N = Ok M ∧ negated_laplacian (Z.to_nat N) M) ∧
  (∃ M, circular_array_coupling N = Ok M ∧ negated_laplacian (Z.to_nat N) M).
Proof.
  intros HN. split; [|split].
  - apply global_coupling_laplacian. lia.
  - intros Heven. apply pairwise_coupling_laplacian; [lia|done].
  - by apply circular_array_coupling_laplacian.
Qed.

(** C10: for an even [N >= 0] the assertion of [pairwise_coupling] holds and
    the function returns the [N]-by-[N] matrix [kron(eye(N/2), a)]: entry
    [(2m+c, 2m'+c')] is entry [(c, c')] of the block [[-1, 1], [1, -1]] when
    [m = m'] and zero otherwise, so the matrix consists of [N/2] independent
    blocks on the diagonal. *)
Theorem pairwise_coupling_blocks (N : Z) :
  N `mod` 2 = 0 → 0 ≤ N →
  pairwise_coupling N ≠ Raise AssertionError ∧
  ∃ E M, np_eye (N `quot` 2) = Ok E ∧ M = np_kron E pair_block ∧
    pairwise_coupling N = Ok M ∧
    length M = Z.to_nat N ∧
    (∀ row, row ∈ M → length row = Z.to_nat N) ∧
    ∀ m c m' c',
      (m < Z.to_nat (N `quot` 2))%nat → (m' < Z.to_nat (N `quot` 2))%nat →
      (c < 2)%nat → (c' < 2)%nat →
      mat_entry M (2 * m + c) (2 * m' + c') =
        if decide (m = m') then mat_entry pair_block c c' else Some 0.
Proof.
  intros Heven HN.
  destruct (pairwise_coupling_entries N HN Heven) as (M & HM & Hlen & Hrows & Hent).
  split; [congruence|].
  assert (0 ≤ N `quot` 2) by (apply Z.quot_pos; lia).
  unfold pairwise_coupling in HM.
  rewrite decide_True in HM by done.
  destruct (np_eye (N `quot` 2)) as [E|e] eqn:HE; [|discriminate].
  exists E, M. split; [done|]. split; [by injection HM|].
  split; [unfold pairwise_coupling; by rewrite decide_True, HE by done|].
  split; [done|]. split; [|done].
  intros row Hrow. by apply Hrows.
Qed.

(** ** integrate *)

Section IntegrateProperties.
Context {T : Type} `{Scalar T} `{Integrator T}.


Lemma ode_integrate_dim f ode value ode' :
  keeps_dimension → ode_integrate f ode value = Ok ode' →
  length (ode_y ode') = length (ode_y ode).
Proof.
  intros Hdim. unfold ode_integrate.
  destruct (integrator_run f (ode_y ode) (ode_t ode) value) as [[y' ok]|e] eqn:Hrun;
    [|done].
  intros [= <-]. by apply (Hdim f _ _ _ _ _ Hrun).
Qed.

Lemma odeint_steps_dim f ode xs ys :
  keeps_dimension → odeint_steps f ode xs = Ok ys →
  Forall (λ y, length y = length (ode_y ode)) ys.
Proof.
  intros Hdim. revert ode ys.
  induction xs as [|value rest IH]; intros ode ys; cbn [odeint_steps].
  { by intros [= <-]. }
  destruct (ode_integrate f ode value) as [ode'|e] eqn:Hstep; [|done].
  cbn [mbind res_bind]. pose proof (ode_integrate_dim _ _ _ _ Hdim Hstep) as Hlen.
  destruct (ode_successful ode'); [|by intros [= <-]].
  destruct (odeint_steps f ode' rest) as [ys'|e] eqn:Hrest; [|done].
  cbn [mbind res_bind]. intros [= <-]. constructor; [done|].
  eapply Forall_impl; [by apply IH|]. cbn beta. intros y ->. done.
Qed.

(** The loop of [odeint] ends as [ending] says. *)
Lemma odeint_steps_ending f ode xs :
  match ending f ode xs with
  | Completed => ∃ ys, odeint_steps f ode xs = Ok ys ∧ length ys = length xs
  | Stopped => ∃ ys, odeint_steps f ode xs = Ok ys ∧ (length ys < length xs)%nat
  | Raised e => odeint_steps f ode xs = Raise e
  end.
Proof.
  revert ode. induction xs as [|value rest IH]; intros ode; cbn [ending odeint_steps].
  { by exists []. }
  destruct (ode_integrate f ode value) as [ode'|e]; [|done].
  cbn [mbind res_bind].
  destruct (ode_successful ode'); [|exists []; split; [done|cbn; lia]].
  specialize (IH ode'). destruct (ending f ode' rest) as [| |e].
  - destruct IH as (ys & -> & Hlen). eexists. split; [done|]. cbn. by rewrite Hlen.
  - destruct IH as (ys & -> & Hlen). eexists. split; [done|]. cbn. lia.
  - by rewrite IH.
Qed.

Lemma odeint_cons dy yinit x0 xs f_args :
  odeint dy yinit (x0 :: xs) f_args =
    (ys ← odeint_steps (λ t y, dy t y f_args) (set_initial_value yinit x0) xs;
     Ok (yinit :: ys)).
Proof. reflexivity. Qed.

Lemma np_vstack_same_length (r : list T) (rest : list (list T)) :
  Forall (λ y, length y = length r) rest →
  np_vstack (r :: rest) = Ok (mkArray2 (S (length rest)) (length r) (r :: rest)).
Proof.
  intros Hall. unfold np_vstack.
  assert (forallb (λ r', bool_decide (length r' = length r)) rest = true) as ->; [|done].
  induction Hall as [|y l Hy _ IH]; simpl; [done|].
  by rewrite bool_decide_true, IH.
Qed.

Lemma length_column (rows : list (list T)) (d j : nat) :
  Forall (λ y, length y = d) rows → (j < d)%nat →
  length (omap (λ r, r !! j) rows) = length rows.
Proof.
  intros Hall Hj. induction Hall as [|y l Hy _ IH]; simpl; [done|].
  destruct (lookup_lt_is_Some_2 y j) as [v Hv]; [lia|].
  rewrite Hv. simpl. f_equal. exact IH.
Qed.

Lemma np_transpose_rows (rows : list (list T)) (d : nat) :
  Forall (λ y, length y = d) rows →
  length (a2_rows (np_transpose (mkArray2 (length rows) d rows))) = d ∧
  Forall (λ row, length row = length rows)
    (a2_rows (np_transpose (mkArray2 (length rows) d rows))).
Proof.
  intros Hall. unfold np_transpose. simpl. split.
  - by rewrite length_map, length_seq.
  - apply Forall_forall. intros row Hrow.
    apply list_elem_of_In, in_map_iff in Hrow as (j & <- & Hj).
    apply in_seq in Hj. apply (length_column _ d); [done|lia].
Qed.

(** [integrate] on a trajectory that [odeint] yields. *)
Lemma integrate_of_steps (dy : T → list T → list T → Res (list T))
    (yinit xs f_args : list T) (x0 : T) (ys : list (list T)) :
  odeint_steps (λ t y, dy t y f_args) (set_initial_value yinit x0) xs = Ok ys →
  Forall (λ y, length y = length yinit) ys →
  (length ys ≤ length xs)%nat →
  ∃ r, integrate dy yinit (x0 :: xs) f_args = Ok r ∧
    match r with
    | Flat row => length yinit = 1%nat ∧ length row = length (x0 :: xs)
    | TwoDim a =>
        length yinit ≠ 1%nat ∧
        a2_nrows a = length yinit ∧ a2_ncols a = length (x0 :: xs) ∧
        length (a2_rows a) = length yinit ∧
        Forall (λ row, length row = length (x0 :: xs)) (a2_rows a)
    end ∧
    ((length ys < length xs)%nat → Forall (λ v, v = s_nan) (nd_entries r)).
Proof.
  intros Hys Hrows Hlen.
  set (res := yinit :: ys).
  assert (Forall (λ y, length y = length yinit) res) as Hres by (by constructor).
  assert (integrate dy yinit (x0 :: xs) f_args =
    let y := np_transpose (mkArray2 (length res) (length yinit) res) in
    let y := if decide (a2_ncols y ≠ length (x0 :: xs))
             then np_full (a2_nrows y) (length (x0 :: xs)) s_nan else y in
    if decide (a2_nrows y = 1%nat) then r ← py_index (a2_rows y) 0; Ok (Flat r)
    else Ok (TwoDim y)) as ->.
  { unfold integrate. rewrite odeint_cons, Hys.
    change (Ok ys ≫= ?k) with (k ys). cbv beta.
    change (Ok (yinit :: ys) ≫= ?k) with (k res). cbv beta.
    unfold res. by rewrite (np_vstack_same_length _ _ Hrows). }
  cbv zeta.
  destruct (np_transpose_rows res (length yinit) Hres) as [Htl Htr].
  assert (length res = S (length ys)) as Hreslen by done.
  assert (length (x0 :: xs) = S (length xs)) as Hn by done.
  set (tr := np_transpose (mkArray2 (length res) (length yinit) res)) in *.
  assert (a2_nrows tr = length yinit) as Hnr by done.
  assert (a2_ncols tr = length res) as Hnc by done.
  clearbody tr res. generalize dependent (length (x0 :: xs)). intros n Hn.
  destruct (decide (a2_ncols tr ≠ n)) as [Hne|Heq].
  - (* the NaN array *)
    unfold np_full. cbn [a2_nrows a2_rows]. rewrite Hnr.
    destruct (decide (length yinit = 1%nat)) as [H1|H1].
    + rewrite H1. exists (Flat (replicate n s_nan)). split; [done|].
      split; [by rewrite length_replicate|].
      intros _. by apply Forall_replicate.
    + eexists. split; [reflexivity|]. cbn [a2_nrows a2_ncols a2_rows nd_entries].
      split; [rewrite length_replicate; repeat split; try done;
              apply Forall_replicate; by rewrite length_replicate|].
      intros _. apply Forall_forall. intros v Hv.
      apply list_elem_of_In, in_concat in Hv as (row & Hrow & Hv).
      apply list_elem_of_In, elem_of_replicate in Hrow as [-> _].
      by apply list_elem_of_In, elem_of_replicate in Hv as [-> _].
  - (* the transposed trajectory *)
    assert (a2_ncols tr = n) as Hfull by (by destruct (decide (a2_ncols tr = n)); [|]).
    rewrite Hnr.
    destruct (decide (length yinit = 1%nat)) as [H1|H1].
    + destruct (a2_rows tr) as [|row rows] eqn:Hr; [simpl in Htl; lia|].
      exists (Flat row). split; [done|]. split; [|lia].
      split; [done|]. apply Forall_cons in Htr as [-> _]. lia.
    + eexists. split; [reflexivity|]. split; [|lia].
      repeat split; try done. by rewrite <- Hfull, Hnc.
Qed.

(** C9, as the code has it: for a non-empty [x] and an integrator that
    keeps the dimension of the state.  When a call of [ode.integrate]
    raises (the derivative raised), [integrate] raises that exception.
    When none does, [integrate] returns an array with one column per
    element of [x]; it is the flat array [y[0, :]] of that length exactly
    when the system is one-dimensional; and when the loop of [odeint] stops
    early every entry of the result is NaN. *)
Theorem integrate_shape (dy : T → list T → list T → Res (list T))
    (yinit x f_args : list T) (x0 : T) :
  keeps_dimension →
  x !! 0%nat = Some x0 →
  let how := ending (λ t y, dy t y f_args) (set_initial_value yinit x0) (drop 1 x) in
  (∀ e, how = Raised e → integrate dy yinit x f_args = Raise e) ∧
  ((∀ e, how ≠ Raised e) →
   ∃ r, integrate dy yinit x f_args = Ok r ∧
     match r with
     | Flat xs => length yinit = 1%nat ∧ length xs = length x
     | TwoDim a =>
         length yinit ≠ 1%nat ∧
         a2_nrows a = length yinit ∧ a2_ncols a = length x ∧
         length (a2_rows a) = length yinit ∧
         Forall (λ row, length row = length x) (a2_rows a)
     end ∧
     (how = Stopped → Forall (λ v, v = s_nan) (nd_entries r))).
Proof.
  intros Hdim Hx0. destruct x as [|x0' xs]; [done|]. injection Hx0 as ->.
  change (drop 1 (x0 :: xs)) with xs.
  set (f := λ t y, dy t y f_args). set (ode := set_initial_value yinit x0).
  cbv zeta. pose proof (odeint_steps_ending f ode xs) as Hend.
  split.
  - intros e He. rewrite He in Hend.
    unfold integrate. rewrite odeint_cons. fold f ode. by rewrite Hend.
  - intros Hreturns.
    assert (∃ ys, odeint_steps f ode xs = Ok ys ∧ (length ys ≤ length xs)%nat ∧
                  (ending f ode xs = Stopped → (length ys < length xs)%nat))
      as (ys & Hys & Hle & Hlt).
    { destruct (ending f ode xs) as [| |e].
      - destruct Hend as (ys & Hys & Hlen). exists ys.
        split; [done|]. split; [lia|done].
      - destruct Hend as (ys & Hys & Hlen). exists ys.
        split; [done|]. split; [lia|done].
      - by destruct (Hreturns e). }
    pose proof (odeint_steps_dim f ode xs ys Hdim Hys) as Hrows.
    destruct (integrate_of_steps dy yinit xs f_args x0 ys Hys Hrows Hle)
      as (r & Hr & Hshape & Hnan).
    exists r. split; [done|]. split; [done|]. intros Hstop. by apply Hnan, Hlt.
Qed.

End IntegrateProperties.

(** * Properties of the application harness *)

Import Glyph GlyphSpec.

Ltac run_monad :=
  unfold GPRunner_init, GPRunner_step, random_state, GPRunner_update, self_get,
    self_set, getattr, lift_res, modify, get, raise, mbind, M_bind, mret, M_ret;
  cbn.

Ltac run_app :=
  unfold Application_update, Application_checkpoint, lift_runner, logbook_stream,
    valid_checkpointing, self_get, self_set, getattr, lift_res, modify, get, raise,
    mbind, M_bind, mret, M_ret;
  cbn.

Section RunnerProperties.
Context `{GPEnv}.

Lemma bind_ok {S A B} (m : M S A) (k : A → M S B) (s s' : S) (a : A) :
  m s = (Ok a, s') → (m ≫= k) s = k a s'.
Proof. intros Hm. unfold mbind, M_bind. by rewrite Hm. Qed.

Lemma bind_raise {S A B} (m : M S A) (k : A → M S B) (s s' : S) (e : PyExc) :
  m s = (Raise e, s') → (m ≫= k) s = (Raise e, s').
Proof. intros Hm. unfold mbind, M_bind. by rewrite Hm. Qed.

Lemma self_set_eq (f : GPRunner → GPRunner) (w : World) (g : GPRunner) :
  self_set f (w, g) = (Ok tt, (w, f g)).
Proof. reflexivity. Qed.

Lemma self_get_eq {A} (attr : GPRunner → option A) (w : World) (g : GPRunner) (a : A) :
  attr g = Some a → self_get attr (w, g) = (Ok a, (w, g)).
Proof. intros Ha. unfold self_get, get, getattr, mbind, M_bind. cbn. by rewrite Ha. Qed.

Lemma self_get_none {A} (attr : GPRunner → option A) (w : World) (g : GPRunner) :
  attr g = None → self_get attr (w, g) = (Raise AttributeError, (w, g)).
Proof. intros Ha. unfold self_get, get, getattr, mbind, M_bind. cbn. by rewrite Ha. Qed.

(** [_update] on a runner whose attributes are set and whose assessed
    population is not empty. *)
Lemma GPRunner_update_eq (w : World) (g : GPRunner) pop hof lb sc ind rest :
  population g = Some pop → halloffame g = Some hof → logbook g = Some lb →
  step_count g = Some sc → assessment_runner pop = ind :: rest →
  GPRunner_update (w, g) =
    (Ok tt, (w, mkGPRunner
      (Some (pareto_update hof (ind :: rest)))
      (Some (mkLogbook
         (entries lb ++
            [mkLogEntry sc (stats_compile (stats_after (mstats g) ind) (ind :: rest))])
         (buffindex lb)))
      (Some (stats_after (mstats g) ind))
      (Some sc)
      (Some (ind :: rest))
      (algorithm g) (_tmp_state g) (_prev_state g))).
Proof.
  intros Hpop Hhof Hlb Hsc Hassess.
  destruct w as [s fs tr], g as [? ? ms ? ? ? ? prev]. simpl in *. subst.
  run_monad. rewrite Hassess. destruct ms as [[|k]|]; reflexivity.
Qed.

(** [_update] touches neither the world nor the saved random states. *)
Lemma GPRunner_update_frame (w : World) (g : GPRunner) :
  (GPRunner_update (w, g)).2.1 = w ∧
  _tmp_state (GPRunner_update (w, g)).2.2 = _tmp_state g ∧
  _prev_state (GPRunner_update (w, g)).2.2 = _prev_state g.
Proof.
  destruct w as [s fs tr], g as [hof lb ms sc pop ? ? prev]. run_monad.
  destruct pop as [pop|]; [|done]. cbn.
  destruct hof as [hof|]; [|done]. cbn.
  destruct ms as [[|k]|]; cbn;
    destruct (assessment_runner pop) as [|ind rest]; cbn; try done;
    destruct lb as [lb|]; cbn; try done;
    destruct sc as [sc|]; done.
Qed.

(** [random_state] around a body that returns. *)
Lemma random_state_eq {A} (body : RunnerM A) (w w1 : World) (g g1 : GPRunner) (a : A) :
  body (set_rng (default (rng w) (_prev_state g)) w, set_tmp_state (Some (rng w)) g) =
    (Ok a, (w1, g1)) →
  random_state body (w, g) =
    (Ok a, (set_rng (default (rng w1) (_tmp_state g1)) w1,
            set_prev_state (Some (rng w1)) g1)).
Proof.
  intros Hbody. unfold random_state, modify.
  unfold mbind at 1 2, M_bind at 1 2. cbn [fst snd set_tmp_state _prev_state].
  rewrite (bind_ok _ _ _ _ _ Hbody). reflexivity.
Qed.

Lemma create_body_eq (n : Z) (w : World) (g : GPRunner) pop r :
  create_population n (rng w) = (pop, r) →
  (s ← get;
   let '(pop, r) := create_population n (rng s.1) in
   _ ← modify (λ s, (set_rng r s.1, s.2));
   self_set (set_population (Some pop))) (w, g) =
  (Ok tt, (set_rng r w, set_population (Some pop) g)).
Proof.
  intros Hc. unfold get. unfold mbind at 1, M_bind at 1. cbn [fst snd].
  rewrite Hc. reflexivity.
Qed.

Lemma evolve_body_eq (w : World) (g : GPRunner) alg pop pop' alg' r :
  algorithm g = Some alg → population g = Some pop →
  evolve alg pop (rng w) = (pop', alg', r) →
  (alg ← self_get algorithm;
   pop ← self_get population;
   s ← get;
   let '(pop', alg', r) := evolve alg pop (rng s.1) in
   _ ← modify (λ s, (set_rng r s.1, set_algorithm (Some alg') s.2));
   self_set (set_population (Some pop'))) (w, g) =
  (Ok tt, (set_rng r w, set_population (Some pop') (set_algorithm (Some alg') g))).
Proof.
  intros Halg Hpop He.
  rewrite (bind_ok _ _ _ _ _ (self_get_eq algorithm w g alg Halg)).
  rewrite (bind_ok _ _ _ _ _ (self_get_eq population w g pop Hpop)).
  unfold get. unfold mbind at 1, M_bind at 1. cbn [fst snd].
  rewrite He. reflexivity.
Qed.

(** [init] up to its call of [_update]. *)
Lemma GPRunner_init_update (n : Z) (w : World) (g : GPRunner) pop0 r0 :
  create_population n (default (rng w) (_prev_state g)) = (pop0, r0) →
  GPRunner_init n (w, g) =
    GPRunner_update (w, mkGPRunner (Some []) (Some (mkLogbook [] 0)) None (Some 0)
                          (Some pop0) (Some algorithm_factory) (Some (rng w)) (Some r0)).
Proof.
  intros Hcreate. destruct w as [s fs tr], g as [? ? ? ? ? ? ? prev].
  simpl in Hcreate. unfold GPRunner_init.
  repeat (rewrite (bind_ok _ _ _ _ _ (self_set_eq _ _ _)); cbv beta).
  erewrite bind_ok; [|apply random_state_eq; apply create_body_eq; exact Hcreate].
  rewrite (bind_ok _ _ _ _ _ (self_set_eq _ _ _)). reflexivity.
Qed.

(** [step] up to its call of [_update]. *)
Lemma GPRunner_step_update (w : World) (g : GPRunner) alg pop sc pop1 alg1 r1 :
  algorithm g = Some alg → population g = Some pop → step_count g = Some sc →
  evolve alg pop (default (rng w) (_prev_state g)) = (pop1, alg1, r1) →
  GPRunner_step (w, g) =
    GPRunner_update (w, mkGPRunner (halloffame g) (logbook g) (mstats g) (Some (sc + 1))
                          (Some pop1) (Some alg1) (Some (rng w)) (Some r1)).
Proof.
  intros Halg Hpop Hsc Hevolve.
  destruct w as [s fs tr], g as [? ? ms ? ? ? ? prev].
  simpl in *. subst. unfold GPRunner_step.
  erewrite bind_ok;
    [|apply random_state_eq; apply (evolve_body_eq _ _ alg pop); [done|done|exact Hevolve]].
  erewrite bind_ok; [|apply self_get_eq; reflexivity].
  rewrite (bind_ok _ _ _ _ _ (self_set_eq _ _ _)). reflexivity.
Qed.

(** [step] on a runner without a step count stops after the evolution. *)
Lemma GPRunner_step_no_count (w : World) (g : GPRunner) alg pop pop1 alg1 r1 :
  algorithm g = Some alg → population g = Some pop → step_count g = None →
  evolve alg pop (default (rng w) (_prev_state g)) = (pop1, alg1, r1) →
  GPRunner_step (w, g) =
    (Raise AttributeError,
     (w, mkGPRunner (halloffame g) (logbook g) (mstats g) None
           (Some pop1) (Some alg1) (Some (rng w)) (Some r1))).
Proof.
  intros Halg Hpop Hsc Hevolve.
  destruct w as [s fs tr], g as [? ? ms ? ? ? ? prev].
  simpl in *. subst. unfold GPRunner_step.
  erewrite bind_ok;
    [|apply random_state_eq; apply (evolve_body_eq _ _ alg pop); [done|done|exact Hevolve]].
  erewrite bind_raise; [|apply self_get_none; reflexivity]. reflexivity.
Qed.

Lemma GPRunner_init_eq (n : Z) (w : World) (g : GPRunner) pop0 r0 ind rest :
  create_population n (default (rng w) (_prev_state g)) = (pop0, r0) →
  assessment_runner pop0 = ind :: rest →
  GPRunner_init n (w, g) =
    (Ok tt, (w, mkGPRunner
      (Some (pareto_update [] (ind :: rest)))
      (Some (mkLogbook
         [mkLogEntry 0 (stats_compile (fitness_values_len ind) (ind :: rest))] 0))
      (Some (fitness_values_len ind))
      (Some 0)
      (Some (ind :: rest))
      (Some algorithm_factory)
      (Some (rng w))
      (Some r0))).
Proof.
  intros Hcreate Hassess. rewrite (GPRunner_init_update _ _ _ _ _ Hcreate).
  erewrite GPRunner_update_eq by first [exact Hassess | reflexivity]. reflexivity.
Qed.

Lemma GPRunner_step_eq (w : World) (g : GPRunner) alg pop sc hof lb pop1 alg1 r1 ind rest :
  algorithm g = Some alg → population g = Some pop → step_count g = Some sc →
  halloffame g = Some hof → logbook g = Some lb →
  evolve alg pop (default (rng w) (_prev_state g)) = (pop1, alg1, r1) →
  assessment_runner pop1 = ind :: rest →
  GPRunner_step (w, g) =
    (Ok tt, (w, mkGPRunner
      (Some (pareto_update hof (ind :: rest)))
      (Some (mkLogbook
         (entries lb ++
            [mkLogEntry (sc + 1) (stats_compile (stats_after (mstats g) ind) (ind :: rest))])
         (buffindex lb)))
      (Some (stats_after (mstats g) ind))
      (Some (sc + 1))
      (Some (ind :: rest))
      (Some alg1)
      (Some (rng w))
      (Some r1))).
Proof.
  intros Halg Hpop Hsc Hhof Hlb Hevolve Hassess.
  rewrite (GPRunner_step_update _ _ _ _ _ _ _ _ Halg Hpop Hsc Hevolve).
  erewrite GPRunner_update_eq by first [exact Hassess | eassumption | reflexivity].
  reflexivity.
Qed.





End RunnerProperties.

Section ApplicationProperties.
Context `{HE : GPEnv} `{HP : !Pickler}.



Lemma Application_update_eq (w : World) (app : Application) (lb : Logbook) :
  logbook (gp_runner app) = Some lb →
  is_Some (step_count (gp_runner app)) →
  frequency_ok app →
  Application_update (w, app) =
    (Ok tt,
     (match checkpoint_file app with
      | Some f =>
          if decide (checkpoint_condition app)
          then emit (EvLogDebug ("Saved checkpoint to " +:+ f))
                 (safe f (checkpoint_kwargs (logged_world w lb) (logged_app app lb))
                    (logged_world w lb))
          else logged_world w lb
      | None => logged_world w lb
      end,
      logged_app app lb)).
Proof.
  intros Hlb [sc0 Hsc0] Hfreq.
  destruct (decide (checkpoint_condition app)) as [Hc|Hc].
  - destruct Hc as (f & n & sc & Hf & Hn & Hsc & Hmod).
    destruct app as [a g cf pf ini], a as [ps ng sd fr], g as [? ? ? ? ? ? ? ?].
    simpl in *. simplify_eq. run_app. rewrite Hmod. cbn. reflexivity.
  - unfold checkpoint_condition in Hc.
    destruct app as [a g cf pf ini], a as [ps ng sd fr], g as [? ? ? sc ? ? ? ?].
    simpl in *. simplify_eq. run_app.
    destruct cf as [f|]; [|reflexivity]. cbn.
    destruct fr as [n|]; [|reflexivity]. cbn.
    destruct (py_mod sc0 n) as [r|e] eqn:Hm; cbn.
    + destruct (decide (r = 0)) as [->|_]; [|reflexivity].
      exfalso. apply Hc. by exists f, n, sc0.
    + unfold py_mod in Hm. destruct (decide (n = 0)) as [->|_]; [|discriminate].
      destruct Hfreq as [?|Hfreq]; [discriminate|]. by destruct Hfreq.
Qed.

(** What [_update] never touches. *)
Lemma Application_update_frame (w : World) (app : Application) :
  let s := (Application_update (w, app)).2 in
  args s.2 = args app ∧ checkpoint_file s.2 = checkpoint_file app ∧
  _initialized s.2 = _initialized app ∧
  step_count (gp_runner s.2) = step_count (gp_runner app) ∧
  rng s.1 = rng w.
Proof.
  destruct app as [a g cf pf ini], a as [ps ng sd fr], g as [? lb ? sc ? ? ? ?],
    w as [r fs tr].
  run_app. destruct lb as [lb|]; cbn; [|done].
  destruct cf as [f|]; cbn; [|done].
  destruct fr as [n|]; cbn; [|done].
  destruct sc as [sc|]; cbn; [|done].
  unfold py_mod. destruct (decide (n = 0)); cbn; [done|].
  destruct (decide (sc `mod` n = 0)); done.
Qed.

Lemma lift_runner_step_frame (w : World) (app : Application) :
  let s := (lift_runner GPRunner_step (w, app)).2 in
  args s.2 = args app ∧ checkpoint_file s.2 = checkpoint_file app ∧
  _initialized s.2 = _initialized app.
Proof.
  unfold lift_runner. cbn.
  by destruct (GPRunner_step (w, gp_runner app)) as [r [w' g']].
Qed.


(** *** A run, update by update *)


Lemma GPRunner_init_pending (n : Z) (w : World) (g : GPRunner) :
  populated → 1 ≤ n →
  ∃ g', GPRunner_init n (w, g) = (Ok tt, (w, g')) ∧ pending g' 0.
Proof.
  intros (Hcreate & _ & Hassess) Hn.
  destruct (create_population n (default (rng w) (_prev_state g))) as [pop0 r0] eqn:Hc.
  pose proof (Hcreate n (default (rng w) (_prev_state g)) Hn) as Hne.
  rewrite Hc in Hne. apply Hassess in Hne.
  destruct (assessment_runner pop0) as [|ind rest] eqn:Ha; [done|].
  eexists. split; [by apply (GPRunner_init_eq _ _ _ pop0 r0 ind rest)|].
  repeat split; simpl; eauto. by exists [], (mkLogEntry 0
    (stats_compile (fitness_values_len ind) (ind :: rest))).
Qed.

Lemma GPRunner_step_pending (w : World) (g : GPRunner) (sc : Z) :
  populated → ready g sc →
  ∃ g', GPRunner_step (w, g) = (Ok tt, (w, g')) ∧ pending g' (sc + 1).
Proof.
  intros (_ & Hevolve & Hassess) (Hsc & [alg Halg] & [hof Hhof] & (pop & Hpop & Hne)
    & (lb & Hlb & Hbuf)).
  destruct (evolve alg pop (default (rng w) (_prev_state g))) as [[pop1 alg1] r1] eqn:He.
  pose proof (Hevolve alg pop (default (rng w) (_prev_state g)) Hne) as Hne1.
  rewrite He in Hne1. apply Hassess in Hne1.
  destruct (assessment_runner pop1) as [|ind rest] eqn:Ha; [done|].
  eexists. split.
  { by apply (GPRunner_step_eq _ _ alg pop sc hof lb pop1 alg1 r1 ind rest). }
  repeat split; simpl; eauto. rewrite Hbuf. eauto.
Qed.

Lemma checkpoint_condition_py_mod (app : Application) f n sc :
  checkpoint_file app = Some f → checkpoint_frequency (args app) = PyInt n →
  step_count (gp_runner app) = Some sc →
  checkpoint_condition app ↔ py_mod sc n = Ok 0.
Proof.
  intros Hf Hn Hsc. unfold checkpoint_condition. split.
  - intros (f' & n' & sc' & ? & ? & ? & ?). congruence.
  - intros Hm. by exists f, n, sc.
Qed.

Lemma Application_update_ready (w : World) (app : Application) (sc : Z) :
  pending (gp_runner app) sc → frequency_ok app →
  ∃ w' app',
    Application_update (w, app) = (Ok tt, (w', app')) ∧
    ready (gp_runner app') sc ∧
    args app' = args app ∧ checkpoint_file app' = checkpoint_file app ∧
    rng w' = rng w ∧
    map event_tag (trace w') =
      map event_tag (trace w) ++
      update_tags (checkpoint_file app) (checkpoint_frequency (args app)) sc.
Proof.
  intros (Hsc & Halg & Hhof & Hpop & (es & e & Hlb & Hgen)) Hfreq. subst sc.
  eexists _, _. split; [by apply (Application_update_eq _ _ _ Hlb)|].
  split; [|split; [done|split; [done|]]].
  - unfold logged_app. simpl. repeat split; try done.
    eexists. split; [reflexivity|done].
  - assert (map event_tag (trace (logged_world w (mkLogbook (es ++ [e]) (length es)))) =
            map event_tag (trace w) ++ [TagInfo [gen e]]) as Hlog.
    { unfold logged_world, emit. cbn [trace entries buffindex].
      by rewrite map_app, drop_app_length. }
    unfold update_tags.
    destruct (checkpoint_file app) as [f|] eqn:Hf; [|by split].
    destruct (decide (checkpoint_condition app)) as [Hc|Hc].
    + pose proof Hc as (f' & n & sc' & Hf' & Hn & Hsc' & Hm).
      assert (sc' = gen e) as -> by congruence.
      assert (f' = f) as -> by congruence.
      rewrite Hn, Hm. split; [done|].
      unfold safe, write_file, emit. cbn [trace].
      rewrite !map_app, Hlog. cbn [map event_tag]. by rewrite <- !app_assoc.
    + split; [done|]. rewrite Hlog.
      destruct (checkpoint_frequency (args app)) as [n|] eqn:Hn; [|done].
      destruct (py_mod (gen e) n) as [[| |]|] eqn:Hm; try done.
      exfalso. apply Hc. by apply (checkpoint_condition_py_mod _ f n (gen e)).
Qed.


Lemma lift_runner_ok {A} (m : RunnerM A) (w w' : World) (app : Application) g' (a : A) :
  m (w, gp_runner app) = (Ok a, (w', g')) →
  lift_runner m (w, app) = (Ok a, (w', set_gp_runner g' app)).
Proof. intros Hm. unfold lift_runner. cbn. by rewrite Hm. Qed.

Lemma run_loop_unfold (fuel : nat) (bc : Application → bool) (it : Z) :
  run_loop fuel bc it =
    (s ← get;
     sc ← getattr (step_count (gp_runner s.2));
     if bool_decide (sc < num_generations (args s.2)) && negb (bc s.2) then
       match fuel with
       | O => mret None
       | S fuel' =>
           _ ← lift_runner GPRunner_step;
           _ ← Application_update;
           run_loop fuel' bc (it + 1)
       end
     else mret (Some it)).
Proof. by destruct fuel. Qed.

(** One iteration of the loop on a ready runner. *)
Lemma iteration_ok (w : World) (app : Application) (sc : Z) :
  populated → frequency_ok app → ready (gp_runner app) sc →
  ∃ w1 app1 w' app',
    lift_runner GPRunner_step (w, app) = (Ok tt, (w1, app1)) ∧
    Application_update (w1, app1) = (Ok tt, (w', app')) ∧
    ready (gp_runner app') (sc + 1) ∧
    args app' = args app ∧ checkpoint_file app' = checkpoint_file app ∧
    rng w' = rng w ∧
    map event_tag (trace w') =
      map event_tag (trace w) ++
      update_tags (checkpoint_file app) (checkpoint_frequency (args app)) (sc + 1).
Proof.
  intros Hpop Hfreq Hready.
  destruct (GPRunner_step_pending w _ sc Hpop Hready) as (g1 & Hstep & Hpend).
  destruct (Application_update_ready w (set_gp_runner g1 app) (sc + 1))
    as (w' & app' & Hupd & Hr & Ha & Hf & Hrng & Htags); [done|done|].
  simpl in Ha, Hf, Htags.
  exists w, (set_gp_runner g1 app), w', app'.
  split; [by apply lift_runner_ok|]. by repeat (split; [done|]).
Qed.

Lemma run_loop_steps (k : nat) :
  ∀ (fuel : nat) (it : Z) (w : World) (app : Application) (sc : Z),
  populated → frequency_ok app → ready (gp_runner app) sc →
  num_generations (args app) = sc + Z.of_nat k → (k ≤ fuel)%nat →
  ∃ w' app',
    evolve_steps k (w, app) = (Ok tt, (w', app')) ∧
    run_loop fuel (λ _, false) it (w, app) = (Ok (Some (it + Z.of_nat k)), (w', app')) ∧
    ready (gp_runner app') (sc + Z.of_nat k) ∧
    args app' = args app ∧ checkpoint_file app' = checkpoint_file app ∧
    rng w' = rng w ∧
    map event_tag (trace w') =
      map event_tag (trace w) ++
      flat_map (update_tags (checkpoint_file app) (checkpoint_frequency (args app)))
        (seqZ (sc + 1) (Z.of_nat k)).
Proof.
  induction k as [|k IH]; intros fuel it w app sc Hpop Hfreq Hready Hn Hfuel.
  - exists w, app. split; [done|].
    pose proof Hready as (Hsc & _). cbn [Z.of_nat] in *.
    rewrite !Z.add_0_r, app_nil_r. split; [|by repeat (split; [done|])].
    rewrite run_loop_unfold. unfold mbind, M_bind, get, getattr. cbn [fst snd].
    rewrite Hsc. cbn [mret M_ret]. by rewrite bool_decide_false by lia.
  - destruct fuel as [|fuel]; [lia|].
    destruct (iteration_ok w app sc Hpop Hfreq Hready)
      as (w1 & app1 & w2 & app2 & Hstep & Hupd & Hr2 & Ha2 & Hf2 & Hrng2 & Htags2).
    destruct (IH fuel (it + 1) w2 app2 (sc + 1))
      as (w' & app' & Hsteps & Hloop & Hr & Ha & Hf & Hrng & Htags);
      [done| |done| |lia|].
    { unfold frequency_ok in *. by rewrite Hf2, Ha2. }
    { rewrite Ha2. lia. }
    exists w', app'. split; [|split; [|split; [|split; [|split; [|split]]]]].
    + cbn [evolve_steps]. rewrite (bind_ok _ _ _ _ _ Hstep).
      by rewrite (bind_ok _ _ _ _ _ Hupd).
    + rewrite run_loop_unfold. pose proof Hready as (Hsc & _).
      unfold mbind at 1 2, M_bind at 1 2, get, getattr. cbn [fst snd].
      rewrite Hsc. cbn [mret M_ret].
      rewrite bool_decide_true by lia. cbn [andb negb].
      rewrite (bind_ok _ _ _ _ _ Hstep), (bind_ok _ _ _ _ _ Hupd), Hloop.
      by replace (it + 1 + Z.of_nat k) with (it + Z.of_nat (S k)) by lia.
    + replace (sc + Z.of_nat (S k)) with (sc + 1 + Z.of_nat k) by lia. done.
    + congruence.
    + congruence.
    + congruence.
    + rewrite Htags, Htags2, Ha2, Hf2, <- app_assoc. f_equal.
      rewrite (seqZ_cons (sc + 1)) by lia. cbn [flat_map]. f_equal.
      replace (Z.succ (sc + 1)) with (sc + 1 + 1) by lia.
      by replace (Z.pred (Z.of_nat (S k))) with (Z.of_nat k) by lia.
Qed.

Lemma Application_run_ok (fuel : nat) (w : World) (app : Application) :
  _initialized app = false →
  1 ≤ pop_size (args app) → 0 ≤ num_generations (args app) →
  (Z.to_nat (num_generations (args app)) ≤ fuel)%nat →
  populated → frequency_ok app →
  ∃ w' app',
    run_script (Z.to_nat (num_generations (args app))) (w, app) =
      (Ok (Some (num_generations (args app) + 1)), (w', app')) ∧
    Application_run fuel None (w, app) =
      (Ok (Some (num_generations (args app) + 1)), (w', app')) ∧
    ready (gp_runner app') (num_generations (args app)) ∧
    args app' = args app ∧ checkpoint_file app' = checkpoint_file app ∧
    rng w' = rng_seed (seed (args app)) ∧
    map event_tag (trace w') =
      map event_tag (trace w) ++
      flat_map (update_tags (checkpoint_file app) (checkpoint_frequency (args app)))
        (seqZ 0 (num_generations (args app) + 1)).
Proof.
  intros Hini Hps Hng Hfuel Hpop Hfreq.
  set (w0 := set_rng (rng_seed (seed (args app))) w).
  destruct (GPRunner_init_pending (pop_size (args app)) w0 (gp_runner app) Hpop Hps)
    as (g1 & Hinit & Hpend).
  apply (lift_runner_ok _ _ _ app) in Hinit.
  destruct (Application_update_ready w0 (set_gp_runner g1 app) 0)
    as (w2 & app2 & Hupd & Hr2 & Ha2 & Hf2 & Hrng2 & Htags2); [done|done|].
  simpl in Ha2, Hf2.
  destruct (run_loop_steps (Z.to_nat (num_generations (args app))) fuel 1 w2 app2 0)
    as (w' & app' & Hsteps & Hloop & Hr & Ha & Hf & Hrng & Htags);
    [done| |done| |done|].
  { unfold frequency_ok in *. by rewrite Hf2, Ha2. }
  { rewrite Ha2. lia. }
  exists w', app'. split; [|split; [|split; [|split; [|split; [|split]]]]].
  - unfold run_script, get, modify. unfold mbind at 1 2, M_bind at 1 2. cbn [fst snd].
    fold w0. rewrite (bind_ok _ _ _ _ _ Hinit), (bind_ok _ _ _ _ _ Hupd).
    rewrite (bind_ok _ _ _ _ _ Hsteps). cbn [mret M_ret].
    by replace (1 + Z.of_nat (Z.to_nat (num_generations (args app))))
      with (num_generations (args app) + 1) by lia.
  - unfold Application_run, get, modify. unfold mbind at 1, M_bind at 1. cbn [fst snd].
    rewrite bool_decide_false by lia. rewrite Hini. cbn [negb default].
    unfold mbind at 1 2, M_bind at 1 2. cbn [fst snd]. fold w0.
    rewrite (bind_ok _ _ _ _ _ Hinit), (bind_ok _ _ _ _ _ Hupd). cbn [mret M_ret].
    rewrite Hloop.
    by replace (1 + Z.of_nat (Z.to_nat (num_generations (args app))))
      with (num_generations (args app) + 1) by lia.
  - replace (num_generations (args app)) with (0 + Z.of_nat (Z.to_nat (num_generations (args app)))) at 1 by lia.
    done.
  - congruence.
  - congruence.
  - by rewrite Hrng, Hrng2.
  - simpl in Htags2. rewrite Htags, Htags2, Ha2, Hf2, <- app_assoc. f_equal.
    rewrite (seqZ_cons 0) by lia. cbn [flat_map]. f_equal.
    replace (Z.succ 0) with (0 + 1) by lia.
    by replace (Z.pred (num_generations (args app) + 1))
      with (Z.of_nat (Z.to_nat (num_generations (args app)))) by lia.
Qed.

(** *** The claims about the runner *)


Lemma accounted_snoc (es : list LogEntry) (e : LogEntry) (sc : Z) (n : nat) :
  Z.of_nat (length es) = sc → gen e = sc →
  Z.of_nat (length (es ++ [e])) = sc + 1 ∧ gen <$> last (es ++ [e]) = Some sc.
Proof.
  intros Hlen Hgen. rewrite length_app, last_snoc. simpl. split; [lia|by f_equal].
Qed.

(** C3: [init] returns with step count 0 and [step] with the step count
    raised by one (for collaborators that hand back a non-empty population);
    after either the population is the assessed one, the hall of fame has
    been updated with it, and the logbook holds [step_count + 1] records,
    the latest with [gen = step_count]. *)
Theorem runner_accounting (w : World) (g : GPRunner) :
  (∀ n pop0 r0,
     create_population n (default (rng w) (_prev_state g)) = (pop0, r0) →
     assessment_runner pop0 ≠ [] →
     ∃ g', GPRunner_init n (w, g) = (Ok tt, (w, g')) ∧
       step_count g' = Some 0 ∧
       population g' = Some (assessment_runner pop0) ∧
       halloffame g' = Some (pareto_update [] (assessment_runner pop0)) ∧
       accounted g') ∧
  (∀ alg pop sc hof pop1 alg1 r1,
     algorithm g = Some alg → population g = Some pop →
     step_count g = Some sc → halloffame g = Some hof → accounted g →
     evolve alg pop (default (rng w) (_prev_state g)) = (pop1, alg1, r1) →
     assessment_runner pop1 ≠ [] →
     ∃ g', GPRunner_step (w, g) = (Ok tt, (w, g')) ∧
       step_count g' = Some (sc + 1) ∧
       population g' = Some (assessment_runner pop1) ∧
       halloffame g' = Some (pareto_update hof (assessment_runner pop1)) ∧
       accounted g').
Proof.
  split.
  - intros n pop0 r0 Hc Hne.
    destruct (assessment_runner pop0) as [|ind rest] eqn:Ha; [done|].
    eexists. split; [by apply (GPRunner_init_eq _ _ _ pop0 r0 ind rest)|].
    simpl. repeat (split; [done|]).
    eexists 0, _. simpl. by repeat (split; [done|]).
  - intros alg pop sc hof pop1 alg1 r1 Halg Hpop Hsc Hhof Hacc He Hne.
    destruct Hacc as (sc' & lb & Hsc' & Hlb & Hlen & Hlast).
    assert (sc' = sc) as -> by congruence.
    destruct (assessment_runner pop1) as [|ind rest] eqn:Ha; [done|].
    eexists. split.
    { by apply (GPRunner_step_eq _ _ alg pop sc hof lb pop1 alg1 r1 ind rest). }
    simpl. repeat (split; [done|]).
    eexists (sc + 1), _. simpl. split; [done|]. split; [done|].
    apply (accounted_snoc _ _ (sc + 1) 0); [lia|done].
Qed.

(** *** The claims about the application *)

Lemma Application_update_writes (w : World) (app : Application) (lb : Logbook) :
  logbook (gp_runner app) = Some lb →
  ∃ new,
    trace (Application_update (w, app)).2.1 = trace w ++ new ∧
    ((∃ f data, EvWrite f data ∈ new) ↔ checkpoint_condition app).
Proof.
  intros Hlb. unfold checkpoint_condition.
  destruct app as [a g cf pf ini], a as [ps ng sd fr], g as [? lb' ? sc ? ? ? ?],
    w as [r fs tr].
  simpl in *. subst. run_app.
  assert (∀ (es : list LogEntry),
    ¬ ∃ f data, EvWrite f data ∈ [EvLogInfo es]) as Hno.
  { intros es (f & data & Hin). apply list_elem_of_singleton in Hin. discriminate. }
  destruct cf as [f|]; cbn.
  2:{ eexists. split; [reflexivity|]. split; [by intros ?%Hno|].
      intros (? & ? & ? & ? & _). discriminate. }
  destruct fr as [n|]; cbn.
  2:{ eexists. split; [reflexivity|]. split; [by intros ?%Hno|].
      intros (? & ? & ? & _ & ? & _). discriminate. }
  destruct sc as [sc|]; cbn.
  2:{ eexists. split; [reflexivity|]. split; [by intros ?%Hno|].
      intros (? & ? & ? & _ & _ & ? & _). discriminate. }
  unfold py_mod. destruct (decide (n = 0)) as [->|Hn]; cbn.
  { eexists. split; [reflexivity|]. split; [by intros ?%Hno|].
    intros (? & ? & ? & ? & ? & ? & Hm).
    simplify_eq; rewrite decide_True in Hm by done; discriminate. }
  destruct (decide (sc `mod` n = 0)) as [Hm|Hm]; cbn.
  - eexists. split; [by rewrite <- !app_assoc|]. split.
    + intros _. exists f, n, sc. repeat (split; [done|]).
      rewrite decide_False by done. by rewrite Hm.
    + intros _. eexists f, _. apply list_elem_of_In. simpl. right. left. reflexivity.
  - eexists. split; [reflexivity|]. split; [by intros ?%Hno|].
    intros (? & ? & ? & ? & ? & ? & Hm').
    simplify_eq; rewrite decide_False in Hm' by done; congruence.
Qed.

(** C5: an update (on a runner that has a logbook) writes a checkpoint
    exactly when a checkpoint file is set, the frequency is an [int] and it
    divides the step count.  In a first run the events are those of the
    updates at the step counts [0 .. num_generations], in order: each logs
    the record of its generation and is followed by a write exactly under
    that condition, and nothing else is written; with the frequency 1 every
    update writes. *)
Theorem checkpoint_written_iff (fuel : nat) (w : World) (app : Application) :
  (∀ lb, logbook (gp_runner app) = Some lb →
     ∃ new,
       trace (Application_update (w, app)).2.1 = trace w ++ new ∧
       ((∃ f data, EvWrite f data ∈ new) ↔ checkpoint_condition app)) ∧
  (_initialized app = false →
   1 ≤ pop_size (args app) → 0 ≤ num_generations (args app) →
   (Z.to_nat (num_generations (args app)) ≤ fuel)%nat →
   populated → frequency_ok app →
     map event_tag (trace (Application_run fuel None (w, app)).2.1) =
       map event_tag (trace w) ++
       flat_map (update_tags (checkpoint_file app) (checkpoint_frequency (args app)))
         (seqZ 0 (num_generations (args app) + 1))) ∧
  (∀ f sc, update_tags (Some f) (PyInt 1) sc = [TagInfo [sc]; TagWrite f; TagDebug]).
Proof.
  split; [|split].
  - intros lb. apply Application_update_writes.
  - intros Hini Hps Hng Hfuel Hpop Hfreq.
    destruct (Application_run_ok fuel w app Hini Hps Hng Hfuel Hpop Hfreq)
      as (w' & app' & _ & Hrun & _ & _ & _ & _ & Htags).
    by rewrite Hrun.
  - intros f sc. unfold update_tags, py_mod. cbn. by rewrite Z.mod_1_r.
Qed.

(** C1, as the code has it: with [pop_size < 1] [run] returns 0 and changes
    nothing.  A first run with [pop_size >= 1] and [num_generations >= 0]
    (collaborators that hand back non-empty populations, and no frequency 0
    while a checkpoint file is set) is the script: seed the global generator
    with [args.seed], initialise the runner, update, then perform
    [num_generations] steps with their updates; it returns
    [num_generations + 1], leaves the step count at [num_generations] and the
    global generator in the seeded state. *)
Theorem run_iterations (fuel : nat) (w : World) (app : Application) :
  (pop_size (args app) < 1 →
     ∀ bc, Application_run fuel bc (w, app) = (Ok (Some 0), (w, app))) ∧
  (1 ≤ pop_size (args app) → _initialized app = false →
   0 ≤ num_generations (args app) →
   (Z.to_nat (num_generations (args app)) ≤ fuel)%nat →
   populated → frequency_ok app →
     ∃ w' app',
       run_script (Z.to_nat (num_generations (args app))) (w, app) =
         (Ok (Some (num_generations (args app) + 1)), (w', app')) ∧
       Application_run fuel None (w, app) =
         (Ok (Some (num_generations (args app) + 1)), (w', app')) ∧
       step_count (gp_runner app') = Some (num_generations (args app)) ∧
       rng w' = rng_seed (seed (args app))).
Proof.
  split.
  - intros Hps bc. unfold Application_run, get. unfold mbind at 1, M_bind at 1.
    cbn [fst snd]. by rewrite bool_decide_true by done.
  - intros Hps Hini Hng Hfuel Hpop Hfreq.
    destruct (Application_run_ok fuel w app Hini Hps Hng Hfuel Hpop Hfreq)
      as (w' & app' & Hscript & Hrun & (Hsc & _) & _ & _ & Hrng & _).
    by exists w', app'.
Qed.

Lemma load_safe (f : string) (kwargs : gmap string PyObj) (w : World) :
  load f (safe f kwargs w) = dill_load (dill_dump kwargs).
Proof. unfold load, safe, write_file. cbn [files]. by rewrite lookup_insert_eq. Qed.

Lemma checkpoint_kwargs_lookup (w : World) (app : Application) :
  checkpoint_kwargs w app !! "args" = Some (ObjArgs (args app)) ∧
  checkpoint_kwargs w app !! "runner" = Some (ObjRunner (gp_runner app)) ∧
  checkpoint_kwargs w app !! "pareto_fronts" = Some (ObjParetoFronts (pareto_fronts app)) ∧
  checkpoint_kwargs w app !! "random_state" = Some (ObjRandomState (rng w)).
Proof. unfold checkpoint_kwargs. repeat split; by simplify_map_eq. Qed.

(** C4: with a pickler that round-trips, [load] after [safe] returns the
    dictionary saved; [from_checkpoint] on the file written by [checkpoint]
    builds an application with the saved [args], runner and Pareto fronts,
    bound to that file and marked initialised, and sets the global generator
    to the saved state; a run of an initialised application goes straight to
    the loop, without seeding or [init]. *)
Theorem checkpoint_round_trip (w : World) (app : Application) (f : string) :
  (∀ d, dill_load (dill_dump d) = Ok d) →
  (∀ kwargs w0, load f (safe f kwargs w0) = Ok kwargs) ∧
  (checkpoint_file app = Some f →
     ∃ w1, Application_checkpoint (w, app) = (Ok tt, (w1, app)) ∧
       ∀ w2, files w2 = files w1 →
         Application_from_checkpoint f w2 =
           (Ok (mkApplication (args app) (gp_runner app) (Some f)
                  (pareto_fronts app) true),
            set_rng (rng w) w2)) ∧
  (∀ fuel bc w0 app0,
     _initialized app0 = true → 1 ≤ pop_size (args app0) →
     Application_run fuel bc (w0, app0) =
       run_loop fuel (default (λ _, false) bc) 0 (w0, app0)).
Proof.
  intros Hdill. split; [|split].
  - intros kwargs w0. by rewrite load_safe.
  - intros Hf.
    exists (emit (EvLogDebug ("Saved checkpoint to " +:+ f))
              (safe f (checkpoint_kwargs w app) w)).
    split.
    { unfold Application_checkpoint, get, modify. unfold mbind, M_bind. cbn [fst snd].
      rewrite Hf. reflexivity. }
    intros w2 Hfiles. unfold Application_from_checkpoint, load. rewrite Hfiles.
    cbn [emit files safe write_file]. rewrite lookup_insert_eq, Hdill.
    destruct (checkpoint_kwargs_lookup w app) as (Ha & Hg & Hp & Hr).
    unfold dict_get. rewrite Ha, Hg, Hp, Hr. reflexivity.
  - intros fuel bc w0 app0 Hini Hps. unfold Application_run, get.
    unfold mbind at 1, M_bind at 1. cbn [fst snd].
    rewrite bool_decide_false by lia. rewrite Hini. cbn [negb].
    unfold mbind, M_bind, mret, M_ret. reflexivity.
Qed.

End ApplicationProperties.

(** * The properties at concrete inputs *)

Import Toy.

Lemma bytes_to_pos_to_bytes (p : positive) : bytes_to_pos (pos_to_bytes p) = p.
Proof. induction p as [p IH|p IH|]; simpl; by rewrite ?IH. Qed.

Lemma toy_pickler_round_trip (d : gmap string PyObj) : dill_load (dill_dump d) = Ok d.
Proof.
  unfold dill_load, dill_dump, toy_pickler.
  by rewrite bytes_to_pos_to_bytes, decode_encode.
Qed.

Lemma toy_populated : populated.
Proof.
  split; [|split].
  - intros n s Hn. simpl. destruct (Z.to_nat n) as [|k] eqn:Hk; [lia|done].
  - intros alg pop s Hne. simpl. by destruct pop.
  - intros pop Hne. done.
Qed.

Lemma toy_keeps_dimension : keeps_dimension (T := Q).
Proof.
  intros f y t value y' ok. simpl.
  destruct (Qle_bool t value); [|by intros [= <- _]].
  destruct (f t y) as [d|e]; [|done]. simpl. intros [= <- _].
  rewrite length_zip_with, length_app, length_replicate. lia.
Qed.

Lemma harmonic_oscillator_dy_witness :
  (2 ≤ length [1%Q; 2%Q])%nat ∧
  harmonic_oscillator (λ _, 0%Q) 3%Q 0%Q [1%Q; 2%Q] [] =
    Ok [2%Q; s_add (s_mul (s_neg (s_pow 3%Q 2)) 1%Q) 0%Q].
Proof.
  split; [simpl; lia|].
  destruct (harmonic_oscillator_dy (λ _, 0%Q) 3%Q 0%Q [1%Q; 2%Q] [])
    as (y0 & y1 & H0 & H1 & Hdy & _); [simpl; lia|].
  injection H0 as <-. injection H1 as <-. exact Hdy.
Defined.

Lemma coupling_matrices_are_negated_laplacians_witness :
  1 ≤ 4 ∧
  (∃ M, global_coupling 4 = Ok M ∧ negated_laplacian 4 M) ∧
  (∃ M, pairwise_coupling 4 = Ok M ∧ negated_laplacian 4 M) ∧
  (∃ M, circular_array_coupling 4 = Ok M ∧ negated_laplacian 4 M).
Proof.
  split; [lia|].
  destruct (coupling_matrices_are_negated_laplacians 4) as ((M1 & H1 & L1 & _) & H2 & H3);
    [lia|].
  split; [by exists M1|]. split; [by apply H2|exact H3].
Defined.

Lemma pairwise_coupling_blocks_witness :
  4 `mod` 2 = 0 ∧ 0 ≤ 4 ∧
  pairwise_coupling 4 =
    Ok [[-1; 1; 0; 0]; [1; -1; 0; 0]; [0; 0; -1; 1]; [0; 0; 1; -1]] ∧
  pairwise_coupling 4 ≠ Raise AssertionError.
Proof.
  split; [reflexivity|]. split; [lia|]. split; [reflexivity|].
  apply (pairwise_coupling_blocks 4); [reflexivity|lia].
Defined.

Lemma integrate_shape_witness :
  keeps_dimension (T := Q) ∧
  (∃ r, integrate (λ _ y _, Ok y) [1%Q] [0%Q; 1%Q] [] = Ok r ∧
        match r with Flat xs => length xs = 2%nat | TwoDim _ => False end) ∧
  (∃ r, integrate (λ _ y _, Ok y) [1%Q; 2%Q] [0%Q; 1%Q; 0%Q] [] = Ok r ∧
        match r with Flat _ => False | TwoDim a => a2_ncols a = 3%nat end ∧
        Forall (λ v, v = s_nan) (nd_entries r)) ∧
  integrate (harmonic_oscillator (λ _, 0%Q) 1%Q) [1%Q] [0%Q; 1%Q] [] = Raise IndexError.
Proof.
  split; [exact toy_keeps_dimension|]. split; [|split].
  - destruct (integrate_shape (λ _ y _, Ok y) [1%Q] [0%Q; 1%Q] [] 0%Q
                toy_keeps_dimension eq_refl) as [_ Hreturns].
    destruct Hreturns as (r & Hr & Hshape & _); [intros e; discriminate|].
    exists r. split; [exact Hr|].
    destruct r as [xs|a]; [exact (proj2 Hshape)|].
    destruct Hshape as [Hne _]. by destruct Hne.
  - destruct (integrate_shape (λ _ y _, Ok y) [1%Q; 2%Q] [0%Q; 1%Q; 0%Q] [] 0%Q
                toy_keeps_dimension eq_refl) as [_ Hreturns].
    destruct Hreturns as (r & Hr & Hshape & Hnan); [intros e; discriminate|].
    exists r. split; [exact Hr|]. split; [|exact (Hnan eq_refl)].
    destruct r as [xs|a]; [|exact (proj1 (proj2 (proj2 Hshape)))].
    destruct Hshape as [H1 _]. discriminate H1.
  - exact (proj1 (integrate_shape (harmonic_oscillator (λ _, 0%Q) 1%Q) [1%Q] [0%Q; 1%Q] []
                    0%Q toy_keeps_dimension eq_refl) IndexError eq_refl).
Defined.

(** A derivative that raises: [harmonic_oscillator] on a state of one
    component raises [IndexError] at [y[1]], and so does [integrate] on it,
    with an integrator that evaluates the derivative at the state it starts
    from: nothing is returned for this non-empty [x]. *)
Lemma integrate_raises_with_dy :
  [0%Q; 1%Q] ≠ [] ∧
  harmonic_oscillator (λ _, 0%Q) 1%Q 0%Q [1%Q] [] = Raise IndexError ∧
  integrate (harmonic_oscillator (λ _, 0%Q) 1%Q) [1%Q] [0%Q; 1%Q] [] = Raise IndexError ∧
  ∀ r, integrate (harmonic_oscillator (λ _, 0%Q) 1%Q) [1%Q] [0%Q; 1%Q] [] ≠ Ok r.
Proof. split; [done|]. split; [reflexivity|]. split; [reflexivity|]. done. Qed.



Lemma runner_accounting_witness :
  ∃ g', GPRunner_init 2 (toy_world, GPRunner_new) = (Ok tt, (toy_world, g')) ∧
        step_count g' = Some 0 ∧ accounted g'.
Proof.
  destruct (proj1 (runner_accounting toy_world GPRunner_new) 2 [0; 1] 2)
    as (g' & Hinit & Hsc & _ & _ & Hacc); [reflexivity|discriminate|].
  exists g'. split; [exact Hinit|]. split; [exact Hsc|exact Hacc].
Defined.

Lemma run_iterations_witness :
  ∃ w' app',
    Application_run 5 None (toy_world, toy_app 3 (PyInt 2) (Some "cp")) =
      (Ok (Some 4), (w', app')) ∧
    step_count (gp_runner app') = Some 3 ∧ rng w' = 7.
Proof.
  destruct (proj2 (run_iterations 5 toy_world (toy_app 3 (PyInt 2) (Some "cp"))))
    as (w' & app' & _ & Hrun & Hsc & Hrng).
  - simpl. lia.
  - reflexivity.
  - simpl. lia.
  - simpl. lia.
  - exact toy_populated.
  - right. discriminate.
  - exists w', app'. split; [exact Hrun|]. split; [exact Hsc|exact Hrng].
Defined.

(** A first run with a negative [num_generations]: the population is
    initialised, no step is made, and the run returns 1. *)
Lemma run_negative_generations :
  1 ≤ pop_size (args (toy_app (-1) PyOther None)) ∧
  _initialized (toy_app (-1) PyOther None) = false ∧
  (Application_run 3 None (toy_world, toy_app (-1) PyOther None)).1 = Ok (Some 1) ∧
  (Application_run 3 None (toy_world, toy_app (-1) PyOther None)).1 ≠
    Ok (Some (num_generations (args (toy_app (-1) PyOther None)) + 1)) ∧
  step_count (gp_runner (Application_run 3 None (toy_world, toy_app (-1) PyOther None)).2.2)
    = Some 0.
Proof.
  split; [simpl; lia|]. split; [reflexivity|].
  assert ((Application_run 3 None (toy_world, toy_app (-1) PyOther None)).1 = Ok (Some 1))
    as Hrun by (vm_compute; reflexivity).
  split; [exact Hrun|]. split; [rewrite Hrun; discriminate|].
  vm_compute. reflexivity.
Qed.

Lemma checkpoint_round_trip_witness :
  (∀ d : gmap string PyObj, dill_load (dill_dump d) = Ok d) ∧
  ∃ w1,
    Application_checkpoint (toy_world, toy_app 3 (PyInt 1) (Some "cp")) =
      (Ok tt, (w1, toy_app 3 (PyInt 1) (Some "cp"))) ∧
    Application_from_checkpoint "cp" (set_rng 5 w1) =
      (Ok (mkApplication (toy_args 3 (PyInt 1)) GPRunner_new (Some "cp") [] true),
       set_rng 0 (set_rng 5 w1)).
Proof.
  split; [exact toy_pickler_round_trip|].
  destruct (checkpoint_round_trip toy_world (toy_app 3 (PyInt 1) (Some "cp")) "cp"
              toy_pickler_round_trip) as (_ & Hcp & _).
  destruct (Hcp eq_refl) as (w1 & Hw1 & Hload).
  exists w1. split; [exact Hw1|]. apply Hload. reflexivity.
Defined.

Lemma checkpoint_written_iff_witness :
  map event_tag
    (trace (Application_run 5 None (toy_world, toy_app 3 (PyInt 2) (Some "cp"))).2.1) =
    [TagInfo [0]; TagWrite "cp"; TagDebug; TagInfo [1];
     TagInfo [2]; TagWrite "cp"; TagDebug; TagInfo [3]].
Proof.
  etrans.
  - apply (proj1 (proj2 (checkpoint_written_iff 5 toy_world
                           (toy_app 3 (PyInt 2) (Some "cp"))))).
    + reflexivity.
    + simpl. lia.
    + simpl. lia.
    + simpl. lia.
    + exact toy_populated.
    + right. discriminate.
  - reflexivity.
Defined.

(** * Further properties of the control-problem library *)

Section MoreSystems.
Context {T : Type} `{Scalar T}.

(** X1: the derivatives of the two-component oscillators need a state with
    two components: on a shorter state they raise [IndexError], on any other
    they return two components, the first being [y[1]]. *)
Theorem oscillators_need_two_components (actuator : list T → T) (omega c k t : T)
    (y args : list T) :
  ((length y < 2)%nat →
     harmonic_oscillator actuator omega t y args = Raise IndexError ∧
     anharmonic_oscillator actuator omega c k t y args = Raise IndexError) ∧
  ((2 ≤ length y)%nat →
     ∃ y1 d d',
       y !! 1%nat = Some y1 ∧
       harmonic_oscillator actuator omega t y args = Ok [y1; d] ∧
       anharmonic_oscillator actuator omega c k t y args = Ok [y1; d']).
Proof.
  split; intros Hlen.
  - destruct y as [|y0 [|y1 y']]; simpl in Hlen; [done|done|lia].
  - destruct y as [|y0 [|y1 y']]; simpl in Hlen; [lia|lia|].
    by eexists _, _, _.
Qed.

(** X2: the two Lorenz systems differ only in the component the actuator is
    added to: on a state with three components they share the first
    component, [lorenz_in_2] adds the actuator to the second component of
    the free system and [lorenz_in_3] to the third; on a shorter state both
    raise [IndexError]. *)
Theorem lorenz_actuator_placement (actuator : list T → T) (s r b t : T)
    (y args : list T) :
  ((length y < 3)%nat →
     lorenz_in_3 actuator s r b t y args = Raise IndexError ∧
     lorenz_in_2 actuator s r b t y args = Raise IndexError) ∧
  ((3 ≤ length y)%nat →
     ∃ dy0 dy1 dy2,
       lorenz_in_3 actuator s r b t y args =
         Ok [dy0; dy1; s_add dy2 (actuator (y ++ args))] ∧
       lorenz_in_2 actuator s r b t y args =
         Ok [dy0; s_add dy1 (actuator (y ++ args)); dy2]).
Proof.
  split; intros Hlen.
  - destruct y as [|y0 [|y1 [|y2 y']]]; simpl in Hlen; [done|done|done|lia].
  - destruct y as [|y0 [|y1 [|y2 y']]]; simpl in Hlen; [lia|lia|lia|].
    by eexists _, _, _.
Qed.

Lemma broadcast_array_l {A B C} (f : A → B → C) (xs : list A) (v : NpVal B) n :
  length xs = n →
  match v with NpScalar _ => True | NpArray ys => length ys = n end →
  ∃ zs, broadcast f (NpArray xs) v = Ok (NpArray zs) ∧ length zs = n.
Proof.
  intros Hx Hv. destruct v as [c|ys]; simpl.
  - eexists. split; [reflexivity|]. by rewrite length_map.
  - rewrite decide_True by congruence. eexists. split; [reflexivity|].
    rewrite length_zip_with. lia.
Qed.

Lemma broadcast_array_r {A B C} (f : A → B → C) (u : NpVal A) (ys : list B) n :
  match u with NpScalar _ => True | NpArray xs => length xs = n end →
  length ys = n →
  ∃ zs, broadcast f u (NpArray ys) = Ok (NpArray zs) ∧ length zs = n.
Proof.
  intros Hu Hy. destruct u as [c|xs]; simpl.
  - eexists. split; [reflexivity|]. by rewrite length_map.
  - rewrite decide_True by congruence. eexists. split; [reflexivity|].
    rewrite length_zip_with. lia.
Qed.

Lemma np_div_array_scalar (xs : list T) (c : T) n :
  length xs = n → s_is_zero c = false →
  ∃ zs, np_div (NpArray xs) (NpScalar c) = Ok (NpArray zs) ∧ length zs = n.
Proof.
  intros Hx Hc. unfold np_div. simpl.
  assert (existsb (λ p : T * T, s_is_zero p.2) (map (λ x, (x, c)) xs) = false) as ->.
  { clear Hx. induction xs as [|x xs IH]; simpl; [done|]. by rewrite Hc, IH. }
  eexists. split; [reflexivity|]. by rewrite !length_map.
Qed.

Lemma coupling_dot_square (m : list (list T)) (v : list T) n :
  square n m → length v = n →
  ∃ zs, coupling_dot (CouplingMatrix m) v = Ok (NpArray zs) ∧ length zs = n.
Proof.
  intros [Hm Hrows] Hv. simpl.
  assert (forallb (λ row, bool_decide (length row = length v)) m = true) as ->.
  { clear Hm. induction Hrows as [|row m Hrow _ IH]; simpl; [done|].
    rewrite bool_decide_true by congruence. by rewrite IH. }
  eexists. split; [reflexivity|]. by rewrite length_map.
Qed.

Ltac np_step :=
  cbv [np_add np_sub np_mul np_pow np_map];
  match goal with
  | |- context [broadcast ?f (NpArray ?xs) ?v ≫= _] =>
      let zs := fresh "zs" in let E := fresh "E" in let L := fresh "L" in
      destruct (broadcast_array_l f xs v _ ltac:(eassumption || (rewrite ?length_map; eassumption))
                  ltac:(simpl; (exact I || eassumption || (rewrite ?length_map; eassumption))))
        as (zs & E & L); rewrite E; clear E; cbn [mbind res_bind]
  | |- context [broadcast ?f ?u (NpArray ?ys) ≫= _] =>
      let zs := fresh "zs" in let E := fresh "E" in let L := fresh "L" in
      destruct (broadcast_array_r f u ys _
                  ltac:(simpl; (exact I || eassumption || (rewrite ?length_map; eassumption)))
                  ltac:(eassumption || (rewrite ?length_map; eassumption)))
        as (zs & E & L); rewrite E; clear E; cbn [mbind res_bind]
  end.

(** X3: the coupled systems keep the dimension of the state.  For [n]
    oscillators, a square coupling matrix and an actuator that returns a
    scalar or one value per oscillator, [van_der_pol] and [fitzhugh_nagumo]
    map a state of [2n] components, and [hindmarsh_rose] one of [3n], to a
    derivative of the same length. *)
Theorem coupled_systems_keep_dimension (actuator : list T → NpVal T)
    (sensor : list T → list T) (m : list (list T)) (n : nat) (t : T) (y args : list T) :
  square n m → fits n (actuator (sensor y ++ args)) →
  (length y = (2 * n)%nat →
     (∀ omega a b, ∃ d,
        van_der_pol actuator sensor omega a b (CouplingMatrix m) t y args = Ok d ∧
        length d = length y) ∧
     (∀ a b tau, s_is_zero tau = false → ∃ dy,
        fitzhugh_nagumo actuator sensor a b tau (CouplingMatrix m) = Ok dy ∧
        ∃ d, dy t y args = Ok d ∧ length d = length y)) ∧
  (length y = (3 * n)%nat →
     ∀ a b c d r s xR, ∃ dv,
       hindmarsh_rose actuator sensor a b c d r s xR (CouplingMatrix m) t y args = Ok dv ∧
       length dv = length y).
Proof.
  intros Hm Hact. split.
  - intros Hlen.
    assert ((length y / 2)%nat = n) as HN
      by (rewrite Hlen, Nat.mul_comm; apply Nat.div_mul; lia).
    assert (length (take n y) = n) as Ht by (rewrite length_take; lia).
    assert (length (drop n y) = n) as Hd by (rewrite length_drop; lia).
    split.
    + intros omega a b. unfold van_der_pol. rewrite HN. cbv zeta.
      do 6 np_step.
      destruct (coupling_dot_square m (drop n y) n Hm Hd) as (cs & -> & Hc).
      cbn [mbind res_bind]. do 2 np_step.
      eexists. split; [reflexivity|].
      unfold np_hstack. simpl. rewrite app_nil_r, length_app. lia.
    + intros a b tau Htau. unfold fitzhugh_nagumo. rewrite Htau.
      eexists. split; [reflexivity|]. cbv beta. rewrite HN. cbv zeta.
      destruct (np_div_array_scalar (map (λ x, s_pow x 3) (take n y)) (s_of_Z 3) n)
        as (q & Hq & Lq); [by rewrite length_map|apply s_three_nonzero|].
      cbv [np_pow np_map]. rewrite Hq. cbn [mbind res_bind].
      do 5 np_step.
      match goal with |- context [np_div (NpArray ?xs) (NpScalar tau)] =>
        destruct (np_div_array_scalar xs tau n ltac:(assumption) Htau) as (q1 & -> & Lq1)
      end.
      cbn [mbind res_bind].
      destruct (coupling_dot_square m (drop n y) n Hm Hd) as (cs & -> & Hc).
      cbn [mbind res_bind]. do 2 np_step.
      eexists. split; [reflexivity|].
      unfold np_hstack. simpl. rewrite app_nil_r, length_app. lia.
  - intros Hlen a b c d r s xR.
    assert ((length y / 3)%nat = n) as HN
      by (rewrite Hlen, Nat.mul_comm; apply Nat.div_mul; lia).
    assert (length (take n y) = n) as Ht by (rewrite length_take; lia).
    assert (length (drop n (take (2 * n) y)) = n) as Hd
      by (rewrite length_drop, length_take; lia).
    assert (length (drop (2 * n) y) = n) as Hd2 by (rewrite length_drop; lia).
    unfold hindmarsh_rose. rewrite HN. cbv zeta.
    do 8 np_step.
    destruct (coupling_dot_square m (drop n (take (2 * n) y)) n Hm Hd) as (cs & -> & Hc).
    cbn [mbind res_bind]. do 6 np_step.
    eexists. split; [reflexivity|].
    unfold np_hstack. simpl. rewrite app_nil_r, !length_app. lia.
Qed.

(** X4: with the default coupling [A = 0.0], a plain float without [dot],
    every evaluation of a coupled system on a state of [2n] (or [3n])
    components raises [AttributeError], before the actuator is called. *)
Theorem default_coupling_has_no_dot (actuator : list T → NpVal T)
    (sensor : list T → list T) (A0 : T) (n : nat) (t : T) (y args : list T) :
  (length y = (2 * n)%nat →
     (∀ omega a b,
        van_der_pol actuator sensor omega a b (PyFloat A0) t y args = Raise AttributeError) ∧
     (∀ a b tau, s_is_zero tau = false → ∃ dy,
        fitzhugh_nagumo actuator sensor a b tau (PyFloat A0) = Ok dy ∧
        dy t y args = Raise AttributeError)) ∧
  (length y = (3 * n)%nat →
     ∀ a b c d r s xR,
       hindmarsh_rose actuator sensor a b c d r s xR (PyFloat A0) t y args =
         Raise AttributeError).
Proof.
  split.
  - intros Hlen.
    assert ((length y / 2)%nat = n) as HN
      by (rewrite Hlen, Nat.mul_comm; apply Nat.div_mul; lia).
    assert (length (take n y) = n) as Ht by (rewrite length_take; lia).
    assert (length (drop n y) = n) as Hd by (rewrite length_drop; lia).
    split.
    + intros omega a b.
      unfold van_der_pol. rewrite HN. cbv zeta. repeat np_step. reflexivity.
    + intros a b tau Htau. unfold fitzhugh_nagumo. rewrite Htau.
      eexists. split; [reflexivity|]. cbv beta. rewrite HN. cbv zeta.
      destruct (np_div_array_scalar (map (λ x, s_pow x 3) (take n y)) (s_of_Z 3) n)
        as (q & Hq & Lq); [by rewrite length_map|apply s_three_nonzero|].
      cbv [np_pow np_map]. rewrite Hq. cbn [mbind res_bind].
      do 5 np_step.
      match goal with |- context [np_div (NpArray ?xs) (NpScalar tau)] =>
        destruct (np_div_array_scalar xs tau n ltac:(assumption) Htau) as (q1 & -> & Lq1)
      end.
      reflexivity.
  - intros Hlen a b c d r s xR.
    assert ((length y / 3)%nat = n) as HN
      by (rewrite Hlen, Nat.mul_comm; apply Nat.div_mul; lia).
    assert (length (take n y) = n) as Ht by (rewrite length_take; lia).
    assert (length (drop n (take (2 * n) y)) = n) as Hd
      by (rewrite length_drop, length_take; lia).
    assert (length (drop (2 * n) y) = n) as Hd2 by (rewrite length_drop; lia).
    unfold hindmarsh_rose. rewrite HN. cbv zeta. repeat np_step. reflexivity.
Qed.

End MoreSystems.

(** ** The coupling generators *)

Lemma even_negative_quot (N : Z) : N `mod` 2 = 0 → N < 0 → N `quot` 2 < 0.
Proof.
  intros Heven Hneg.
  pose proof (Z.quot_rem' N 2) as Hq.
  pose proof (Z.rem_bound_pos_neg N 2 ltac:(lia) ltac:(lia)) as Hr.
  pose proof (Z.div_mod N 2 ltac:(lia)) as Hd.
  lia.
Qed.

Lemma coupling_generators_errors_aux (N : Z) :
  (N < 0 → ∃ e, global_coupling N = Raise e) ∧
  (N < 0 → ∃ e, pairwise_coupling N = Raise e) ∧
  (N ≤ 0 → ∃ e, circular_array_coupling N = Raise e).
Proof.
  split; [|split]; intros HN.
  - unfold global_coupling, np_ones. rewrite decide_True by lia. by eexists.
  - unfold pairwise_coupling, np_eye.
    destruct (decide (N `mod` 2 = 0)) as [Heven|Hodd]; [|by eexists].
    rewrite decide_True by (by apply even_negative_quot). by eexists.
  - unfold circular_array_coupling, laplacian_matrix.
    change (g_nodes (cycle_graph N)) with (seq 0 (Z.to_nat N)).
    replace (Z.to_nat N) with 0%nat by lia. by eexists.
Qed.

(** X5: what the coupling generators refuse.  [global_coupling] fails
    exactly on a negative [N], with numpy's [ValueError];
    [pairwise_coupling] fails exactly on an odd [N], with [AssertionError],
    and on a negative even [N], with [ValueError]; and
    [circular_array_coupling] fails exactly on [N <= 0], where the graph has
    no nodes, with [NetworkXError]. *)
Theorem coupling_generators_errors (N : Z) (e : PyExc) :
  (global_coupling N = Raise e ↔ N < 0 ∧ e = ValueError) ∧
  (pairwise_coupling N = Raise e ↔
     (N `mod` 2 ≠ 0 ∧ e = AssertionError) ∨
     (N `mod` 2 = 0 ∧ N < 0 ∧ e = ValueError)) ∧
  (circular_array_coupling N = Raise e ↔ N ≤ 0 ∧ e = NetworkXError).
Proof.
  split; [|split].
  - unfold global_coupling, np_ones.
    destruct (decide (N < 0 ∨ N < 0)) as [Hneg|Hpos]; cbn [mbind res_bind].
    + split; [intros [= <-]; split; [lia|done]|by intros [_ ->]].
    + split; [done|]. intros [? _]. lia.
  - unfold pairwise_coupling, np_eye.
    destruct (decide (N `mod` 2 = 0)) as [Heven|Hodd].
    + destruct (decide (N `quot` 2 < 0)) as [Hneg|Hpos]; cbn [mbind res_bind].
      * assert (N < 0).
        { destruct (decide (N < 0)); [done|].
          pose proof (Z.quot_pos N 2). lia. }
        split; [intros [= <-]; by right|]. by intros [[? _]|(_ & _ & ->)].
      * split; [done|]. intros [[? _]|(_ & Hneg & _)]; [done|].
        exfalso. by apply Hpos, even_negative_quot.
    + split; [intros [= <-]; by left|]. by intros [[_ ->]|[? _]].
  - unfold circular_array_coupling, laplacian_matrix.
    change (g_nodes (cycle_graph N)) with (seq 0 (Z.to_nat N)).
    destruct (Z.to_nat N) as [|k] eqn:Hk; cbn [seq mbind res_bind].
    + split; [intros [= <-]; split; [lia|done]|by intros [_ ->]].
    + split; [done|]. intros [? _]. lia.
Qed.

Lemma adjacent_sym (g : Graph) (i j : nat) : adjacent g i j = adjacent g j i.
Proof.
  unfold adjacent. induction (g_edges g) as [|e es IH]; simpl; [done|].
  rewrite IH. f_equal. apply orb_comm.
Qed.

Lemma square_symmetric (M : Matrix) (n : nat) :
  length M = n → (∀ row, row ∈ M → length row = n) →
  (∀ i j, (i < n)%nat → (j < n)%nat → mat_entry M i j = mat_entry M j i) →
  symmetric M.
Proof.
  intros Hlen Hrows Hsym i j.
  assert (∀ a b, (n ≤ a ∨ n ≤ b)%nat → mat_entry M a b = None) as Hout.
  { intros a b Hab. unfold mat_entry.
    destruct (M !! a) as [row|] eqn:Hrow; [|done]. simpl.
    apply lookup_ge_None.
    rewrite (Hrows row) by (by eapply list_elem_of_lookup_2).
    apply lookup_lt_Some in Hrow. lia. }
  destruct (decide (i < n)%nat); [destruct (decide (j < n)%nat)|].
  - by apply Hsym.
  - rewrite !Hout; [done|lia|lia].
  - rewrite !Hout; [done|lia|lia].
Qed.

(** X6: the coupling is mutual: every matrix a coupling generator returns
    is symmetric. *)
Theorem coupling_matrices_symmetric (N : Z) (M : Matrix) :
  global_coupling N = Ok M ∨ pairwise_coupling N = Ok M ∨
    circular_array_coupling N = Ok M →
  symmetric M.
Proof.
  intros [HM|[HM|HM]].
  - assert (0 ≤ N) as HN.
    { destruct (decide (0 ≤ N)); [done|].
      unfold global_coupling, np_ones in HM.
      rewrite decide_True in HM by lia. done. }
    destruct (global_coupling_laplacian N HN) as (M' & HM' & [Hlen Hrows] & Hent).
    assert (M' = M) as -> by congruence.
    apply (square_symmetric _ (Z.to_nat N)); [done| |].
    + intros row Hrow. apply list_elem_of_lookup in Hrow as [i Hi].
      by apply (Hrows i).
    + intros i j Hi Hj. rewrite !Hent by done.
      destruct (decide (i = j)), (decide (j = i)); congruence.
  - assert (N `mod` 2 = 0) as Heven.
    { unfold pairwise_coupling in HM. by destruct (decide (N `mod` 2 = 0)). }
    assert (0 ≤ N) as HN.
    { destruct (decide (0 ≤ N)); [done|].
      pose proof (proj1 (proj2 (coupling_generators_errors_aux N))) as Herr.
      destruct Herr as [e He]; [lia|]. congruence. }
    destruct (pairwise_coupling_entries N HN Heven) as (M' & HM' & Hlen & Hrows & Hent).
    assert (M' = M) as -> by congruence.
    apply (square_symmetric _ (Z.to_nat N)); [done|intros row Hrow; by apply Hrows|].
    intros i j Hi Hj.
    destruct (nat_pair_decompose i) as (m & c & -> & Hc).
    destruct (nat_pair_decompose j) as (m' & c' & -> & Hc').
    rewrite (even_to_nat_half N HN Heven) in Hi, Hj.
    rewrite !Hent by lia.
    destruct (decide (m = m')), (decide (m' = m)); try congruence.
    destruct c as [|[|c]]; [| |lia]; destruct c' as [|[|c']]; try lia; done.
  - assert (1 ≤ N) as HN.
    { destruct (decide (1 ≤ N)); [done|].
      pose proof (proj2 (proj2 (coupling_generators_errors_aux N))) as Herr.
      destruct Herr as [e He]; [lia|]. congruence. }
    destruct (circular_array_coupling_rows N HN) as (M' & HM' & Hlen & Hnodes & Hrows).
    assert (M' = M) as -> by congruence.
    assert (∀ i j, (i < Z.to_nat N)%nat → (j < Z.to_nat N)%nat →
      mat_entry M i j =
        Some (-1 * ((if decide (i = j)
                     then sum_list_Z (adjacency_row (cycle_graph N) i) else 0)
                    - (if adjacent (cycle_graph N) i j then 1 else 0)))) as Hent.
    { intros i j Hi Hj. rewrite (mat_entry_row _ _ _ _ (Hrows i Hi)).
      by apply (negated_laplacian_row_of_lookup _ (Z.to_nat N)). }
    apply (square_symmetric _ (Z.to_nat N)); [done| |].
    + intros row Hrow. apply list_elem_of_lookup in Hrow as [i Hi].
      assert (i < Z.to_nat N)%nat as Hlt
        by (rewrite <- Hlen; apply lookup_lt_is_Some; eauto).
      rewrite (Hrows i Hlt) in Hi. injection Hi as <-.
      unfold negated_laplacian_row_of, adjacency_row, diag_row.
      rewrite length_map, length_zip_with, !length_map, Hnodes, !length_seq. lia.
    + intros i j Hi Hj. rewrite !Hent by done.
      rewrite (adjacent_sym _ j i).
      destruct (decide (i = j)) as [->|Hne]; [by rewrite decide_True by done|].
      by rewrite decide_False by congruence.
Qed.

(** *** The ring of circular_array_coupling *)

Lemma succ_mod (n i : nat) :
  (i < n)%nat → (S i `mod` n)%nat = if decide (S i = n) then 0%nat else S i.
Proof.
  intros Hi. destruct (decide (S i = n)) as [<-|Hne].
  - apply Nat.Div0.mod_same.
  - apply Nat.mod_small. lia.
Qed.

Lemma adjacent_cycle_graph (N : Z) (i j : nat) :
  adjacent (cycle_graph N) i j = true ↔
  (i < Z.to_nat N)%nat ∧ (j < Z.to_nat N)%nat ∧
  (j = S i `mod` Z.to_nat N ∨ i = S j `mod` Z.to_nat N)%nat ∨
  (i < Z.to_nat N)%nat ∧ j = (S i `mod` Z.to_nat N)%nat ∨
  (j < Z.to_nat N)%nat ∧ i = (S j `mod` Z.to_nat N)%nat.
Proof.
  unfold adjacent, cycle_graph. cbn [g_edges]. set (n := Z.to_nat N).
  rewrite existsb_exists. split.
  - intros (e & He & Horb). apply in_map_iff in He as (a & <- & Ha).
    apply in_seq in Ha.
    apply orb_true_iff in Horb as [Hb|Hb]; apply bool_decide_eq_true in Hb;
      injection Hb as -> <-; [right; left|right; right]; split; (lia || done).
  - intros [(Hi & Hj & [->| ->])|[[Hi ->]|[Hj ->]]].
    + exists (i, (S i `mod` n)%nat). split.
      * apply in_map_iff. exists i. split; [done|]. apply in_seq. lia.
      * by rewrite bool_decide_true.
    + exists (j, (S j `mod` n)%nat). split.
      * apply in_map_iff. exists j. split; [done|]. apply in_seq. lia.
      * rewrite (bool_decide_true (_ = (j, _))) by done. apply orb_true_r.
    + exists (i, (S i `mod` n)%nat). split.
      * apply in_map_iff. exists i. split; [done|]. apply in_seq. lia.
      * by rewrite bool_decide_true.
    + exists (j, (S j `mod` n)%nat). split.
      * apply in_map_iff. exists j. split; [done|]. apply in_seq. lia.
      * rewrite (bool_decide_true (_ = (j, _))) by done. apply orb_true_r.
Qed.

Lemma adjacent_ring (N : Z) (i j : nat) :
  (i < Z.to_nat N)%nat → (j < Z.to_nat N)%nat →
  adjacent (cycle_graph N) i j =
    bool_decide (j = S i `mod` Z.to_nat N ∨ i = S j `mod` Z.to_nat N)%nat.
Proof.
  intros Hi Hj. apply eq_iff_eq_true.
  rewrite adjacent_cycle_graph, bool_decide_eq_true. split.
  - intros [(_ & _ & H)|[[_ ->]|[_ ->]]]; [done|by left|by right].
  - intros H. by left.
Qed.

Lemma sum_list_Z_add_map {A} (f g : A → Z) (l : list A) :
  sum_list_Z (map (λ a, f a + g a) l) = sum_list_Z (map f l) + sum_list_Z (map g l).
Proof. induction l as [|a l IH]; simpl; [done|]. rewrite IH. lia. Qed.

Lemma ring_degree (N : Z) (i : nat) :
  3 ≤ N → (i < Z.to_nat N)%nat →
  sum_list_Z (adjacency_row (cycle_graph N) i) = 2.
Proof.
  intros HN Hi. unfold adjacency_row.
  change (g_nodes (cycle_graph N)) with (seq 0 (Z.to_nat N)).
  set (n := Z.to_nat N) in *.
  set (s := if decide (S i = n) then 0%nat else S i).
  set (p := if decide (i = 0%nat) then (n - 1)%nat else (i - 1)%nat).
  rewrite (map_ext_in _
    (λ j, (if decide (s = j) then 1 else 0) + (if decide (p = j) then 1 else 0))).
  - rewrite sum_list_Z_add_map, !sum_diag_row_from.
    rewrite !decide_True; [done| |]; subst s p;
      destruct (decide (S i = n)), (decide (i = 0%nat)); lia.
  - intros j Hj. apply in_seq in Hj.
    rewrite adjacent_ring by (fold n; lia). fold n.
    rewrite (succ_mod n i), (succ_mod n j) by lia. fold s.
    assert (n = Z.to_nat N) as Hn by done.
    subst s p.
    destruct (decide (S i = n)), (decide (i = 0%nat)), (decide (S j = n));
      repeat case_bool_decide; repeat case_decide; lia.
Qed.

(** X7: for [N >= 3] [circular_array_coupling N] is the coupling of a ring:
    entry [(i, j)] is -2 on the diagonal, 1 where [j] follows or precedes
    [i] on the ring of [N] nodes, and 0 elsewhere. *)
Theorem circular_array_coupling_ring (N : Z) :
  3 ≤ N →
  ∃ M, circular_array_coupling N = Ok M ∧ length M = Z.to_nat N ∧
    ∀ i j, (i < Z.to_nat N)%nat → (j < Z.to_nat N)%nat →
      mat_entry M i j = Some (ring_entry (Z.to_nat N) i j).
Proof.
  intros HN.
  destruct (circular_array_coupling_rows N ltac:(lia)) as (M & HM & Hlen & Hnodes & Hrows).
  exists M. split; [done|]. split; [done|].
  intros i j Hi Hj. rewrite (mat_entry_row _ _ _ _ (Hrows i Hi)).
  rewrite (negated_laplacian_row_of_lookup _ (Z.to_nat N)) by done.
  f_equal. unfold ring_entry. rewrite adjacent_ring by done.
  destruct (decide (i = j)) as [->|Hne].
  - rewrite ring_degree by done.
    rewrite bool_decide_false; [done|].
    rewrite (succ_mod _ j) by done. destruct (decide (S j = Z.to_nat N)); lia.
  - case_bool_decide; by case_decide.
Qed.

(** ** odeint and integrate *)

Section MoreIntegrate.
Context {T : Type} `{Scalar T} `{Integrator T}.



Lemma lookup_column (rows : list (list T)) (d i j : nat) :
  Forall (λ y, length y = d) rows → (i < d)%nat →
  omap (λ r, r !! i) rows !! j = rows !! j ≫= (.!! i).
Proof.
  intros Hall Hi. revert j. induction Hall as [|y l Hy _ IH]; intros j; [done|].
  destruct (lookup_lt_is_Some_2 y i) as [v Hv]; [lia|].
  destruct j as [|j]; simpl; rewrite Hv; simpl; [done|]. apply IH.
Qed.

Lemma lookup_outside_rows (rows : list (list T)) (d i j : nat) :
  Forall (λ y, length y = d) rows → (d ≤ i)%nat →
  rows !! j ≫= (.!! i) = None.
Proof.
  intros Hall Hi. destruct (rows !! j) as [row|] eqn:Hrow; [|done]. simpl.
  apply lookup_ge_None. rewrite Forall_lookup in Hall.
  rewrite (Hall j row Hrow). done.
Qed.

(** X9: when no step of the integration fails, [integrate] returns the
    trajectory of [odeint] transposed: entry [(i, j)] of the result is
    component [i] of the value yielded for [x[j]], and nothing else is
    there; in particular column 0 is [yinit]. *)
Theorem integrate_transposes_trajectory (dy : T → list T → list T → Res (list T))
    (yinit x f_args : list T) (x0 : T) :
  keeps_dimension →
  x !! 0%nat = Some x0 →
  ending (λ t y, dy t y f_args) (set_initial_value yinit x0) (drop 1 x) = Completed →
  ∃ traj r,
    odeint dy yinit x f_args = Ok traj ∧
    integrate dy yinit x f_args = Ok r ∧
    length traj = length x ∧
    traj !! 0%nat = Some yinit ∧
    ∀ i j, nd_entry r i j = traj !! j ≫= (.!! i).
Proof.
  intros Hdim Hx0 Hstop. destruct x as [|x0' xs]; [done|]. injection Hx0 as ->.
  change (drop 1 (x0 :: xs)) with xs in Hstop.
  set (f := λ t y, dy t y f_args) in *. set (ode := set_initial_value yinit x0) in *.
  pose proof (odeint_steps_ending f ode xs) as Hend. rewrite Hstop in Hend.
  destruct Hend as (ys & Hys & Hlen).
  pose proof (odeint_steps_dim f ode xs ys Hdim Hys) as Hrows.
  change (ode_y ode) with yinit in Hrows.
  set (res := yinit :: ys).
  assert (Forall (λ y, length y = length yinit) res) as Hres by (by constructor).
  assert (length res = length (x0 :: xs)) as Hreslen by (simpl; by rewrite Hlen).
  assert (odeint dy yinit (x0 :: xs) f_args = Ok res) as Hode.
  { rewrite odeint_cons. fold f ode. by rewrite Hys. }
  assert (integrate dy yinit (x0 :: xs) f_args =
    let y := np_transpose (mkArray2 (length res) (length yinit) res) in
    let y := if decide (a2_ncols y ≠ length (x0 :: xs))
             then np_full (a2_nrows y) (length (x0 :: xs)) s_nan else y in
    if decide (a2_nrows y = 1%nat) then r ← py_index (a2_rows y) 0; Ok (Flat r)
    else Ok (TwoDim y)) as Hint.
  { unfold integrate. rewrite Hode.
    change (Ok res ≫= ?k) with (k res). cbv beta.
    unfold res. by rewrite (np_vstack_same_length _ _ Hrows). }
  exists res. rewrite Hint. clear Hint.
  cbv zeta. unfold np_transpose. cbn [a2_nrows a2_ncols a2_rows].
  destruct (decide (length res ≠ length (x0 :: xs))) as [Hne|_]; [done|].
  cbn [a2_nrows a2_rows].
  destruct (decide (length yinit = 1%nat)) as [H1|H1].
  - rewrite H1. cbn [seq map py_index lookup list_lookup mbind res_bind].
    eexists. split; [done|]. split; [reflexivity|]. split; [done|]. split; [done|].
    intros i j. cbn [nd_entry].
    destruct (decide (i = 0%nat)) as [->|Hi].
    + apply (lookup_column _ (length yinit)); [done|lia].
    + symmetry. apply (lookup_outside_rows _ (length yinit)); [done|lia].
  - eexists. split; [done|]. split; [reflexivity|]. split; [done|]. split; [done|].
    intros i j. cbn [nd_entry a2_rows].
    rewrite map_fmap, list_lookup_fmap.
    destruct (decide (i < length yinit)%nat) as [Hi|Hi].
    + rewrite lookup_seq_lt by done.
      exact (lookup_column res (length yinit) i j Hres Hi).
    + rewrite lookup_seq_ge by lia.
      symmetry. apply (lookup_outside_rows _ (length yinit)); [done|lia].
Qed.

End MoreIntegrate.

(** * Further properties of the application harness *)

Section MoreRunner.
Context `{HE : GPEnv}.

(** [random_state] around a body that raises: nothing after [yield] runs. *)
Lemma random_state_raise {A} (body : RunnerM A) (w : World) (g : GPRunner) e s' :
  body (set_rng (default (rng w) (_prev_state g)) w, set_tmp_state (Some (rng w)) g) =
    (Raise e, s') →
  random_state body (w, g) = (Raise e, s').
Proof.
  intros Hbody. unfold random_state, modify.
  unfold mbind at 1 2, M_bind at 1 2. cbn [fst snd set_tmp_state _prev_state].
  rewrite (bind_raise _ _ _ _ _ Hbody). reflexivity.
Qed.

Lemma GPRunner_step_unset (w : World) (g : GPRunner) :
  algorithm g = None ∨ population g = None →
  GPRunner_step (w, g) =
    (Raise AttributeError,
     (set_rng (default (rng w) (_prev_state g)) w, set_tmp_state (Some (rng w)) g)).
Proof.
  intros Hunset. unfold GPRunner_step.
  erewrite bind_raise; [reflexivity|]. apply random_state_raise.
  destruct (algorithm g) as [alg|] eqn:Halg.
  - destruct Hunset as [?|Hpop]; [done|].
    erewrite bind_ok; [|by apply self_get_eq].
    erewrite bind_raise; [reflexivity|]. by apply self_get_none.
  - erewrite bind_raise; [reflexivity|]. by apply self_get_none.
Qed.

(** X10: [step] on a runner that has no algorithm or no population yet
    ([init] has not run) raises [AttributeError] inside the context manager
    [random_state], so the code after its [yield] is skipped: [_prev_state]
    is not updated and the global generator is left on the runner's stream
    instead of being restored; only a runner that has no stream yet leaves
    the world as it was. *)
Theorem step_before_init (w : World) (g : GPRunner) :
  algorithm g = None ∨ population g = None →
  GPRunner_step (w, g) =
    (Raise AttributeError,
     (set_rng (default (rng w) (_prev_state g)) w, set_tmp_state (Some (rng w)) g)) ∧
  (_prev_state g = None → (GPRunner_step (w, g)).2.1 = w) ∧
  (∀ r, _prev_state g = Some r → rng (GPRunner_step (w, g)).2.1 = r).
Proof.
  intros Hunset. rewrite (GPRunner_step_unset w g Hunset).
  split; [done|]. split.
  - intros ->. by destruct w.
  - by intros r ->.
Qed.

Lemma GPRunner_init_empty (n : Z) (w : World) (g : GPRunner) pop0 r0 :
  create_population n (default (rng w) (_prev_state g)) = (pop0, r0) →
  assessment_runner pop0 = [] →
  GPRunner_init n (w, g) =
    (Raise IndexError,
     (w, mkGPRunner (Some (pareto_update [] [])) (Some (mkLogbook [] 0)) None (Some 0)
           (Some []) (Some algorithm_factory) (Some (rng w)) (Some r0))).
Proof.
  intros Hc Ha. rewrite (GPRunner_init_update n w g pop0 r0 Hc).
  unfold GPRunner_update.
  erewrite bind_ok; [|by apply self_get_eq].
  erewrite bind_ok; [|apply self_set_eq].
  erewrite bind_ok; [|by apply self_get_eq].
  erewrite bind_ok; [|by apply self_get_eq].
  erewrite bind_ok; [|apply self_set_eq].
  rewrite Ha. reflexivity.
Qed.

(** X11: [init] needs a first individual.  When the assessed initial
    population is empty, [_update] raises [IndexError] at [population[0]]:
    the runner is left at step count 0 with an empty logbook and no
    statistics, and the global generator is already restored. *)
Theorem init_empty_population (n : Z) (w : World) (g : GPRunner) pop0 r0 :
  create_population n (default (rng w) (_prev_state g)) = (pop0, r0) →
  assessment_runner pop0 = [] →
  ∃ g', GPRunner_init n (w, g) = (Raise IndexError, (w, g')) ∧
    step_count g' = Some 0 ∧ population g' = Some [] ∧
    logbook g' = Some (mkLogbook [] 0) ∧ mstats g' = None ∧
    _prev_state g' = Some r0.
Proof.
  intros Hc Ha. eexists. split; [by apply (GPRunner_init_empty n w g pop0 r0)|].
  by repeat split.
Qed.

End MoreRunner.

Ltac frame_done :=
  unfold run_frame; cbn; split_and!; first [done | reflexivity].

Section MoreApplication.
Context `{HE : GPEnv} `{HP : !Pickler}.

(** *** What a run leaves alone *)

Lemma run_frame_refl (s : World * Application) : run_frame s s.
Proof. unfold run_frame. by split_and!. Qed.

Lemma run_frame_trans (s1 s2 s3 : World * Application) :
  run_frame s1 s2 → run_frame s2 s3 → run_frame s1 s3.
Proof.
  intros (Ha & Hf & Hi & Hp & Ht & Hfs) (Ha' & Hf' & Hi' & Hp' & Ht' & Hfs').
  split; [congruence|]. split; [congruence|]. split; [congruence|].
  split; [by etrans|]. split; [by etrans|].
  intros f Hne. rewrite Hfs' by congruence. by apply Hfs.
Qed.

Lemma bind_frame {A B} (m : AppM A) (k : A → AppM B) (s : World * Application) :
  run_frame s (m s).2 →
  (∀ a s', m s = (Ok a, s') → run_frame s' (k a s').2) →
  run_frame s ((m ≫= k) s).2.
Proof.
  intros Hm Hk. unfold mbind, M_bind.
  destruct (m s) as [[a|e] s'] eqn:E; cbn [snd] in *; [|done].
  eapply run_frame_trans; [done|]. by apply Hk.
Qed.

Lemma GPRunner_init_world (n : Z) (w : World) (g : GPRunner) :
  (GPRunner_init n (w, g)).2.1 = w.
Proof.
  destruct (create_population n (default (rng w) (_prev_state g))) as [pop0 r0] eqn:Hc.
  rewrite (GPRunner_init_update n w g pop0 r0 Hc).
  apply GPRunner_update_frame.
Qed.

Lemma GPRunner_step_world (w : World) (g : GPRunner) :
  files (GPRunner_step (w, g)).2.1 = files w ∧
  trace (GPRunner_step (w, g)).2.1 = trace w.
Proof.
  destruct (algorithm g) as [alg|] eqn:Halg;
    [|by rewrite GPRunner_step_unset by (by left)].
  destruct (population g) as [pop|] eqn:Hpop;
    [|by rewrite GPRunner_step_unset by (by right)].
  destruct (evolve alg pop (default (rng w) (_prev_state g))) as [[pop1 alg1] r1] eqn:He.
  destruct (step_count g) as [sc|] eqn:Hsc.
  - rewrite (GPRunner_step_update w g alg pop sc pop1 alg1 r1) by done.
    by rewrite (proj1 (GPRunner_update_frame _ _)).
  - by rewrite (GPRunner_step_no_count w g alg pop pop1 alg1 r1).
Qed.

Lemma lift_runner_frame {A} (m : RunnerM A) (s : World * Application) :
  files (m (s.1, gp_runner s.2)).2.1 = files s.1 →
  trace (m (s.1, gp_runner s.2)).2.1 = trace s.1 →
  run_frame s (lift_runner m s).2.
Proof.
  unfold lift_runner. destruct s as [w app]. cbn [fst snd].
  destruct (m (w, gp_runner app)) as [r [w' g']]. cbn [fst snd].
  intros Hfiles Htrace. unfold run_frame. cbn [fst snd].
  rewrite Hfiles, Htrace. by split_and!.
Qed.

Lemma Application_update_run_frame (s : World * Application) :
  run_frame s (Application_update s).2.
Proof.
  destruct s as [w app].
  destruct app as [a g cf pf ini], a as [ps ng sd fr], g as [? lb ? sc ? ? ? ?],
    w as [r fs tr].
  assert (∀ new, pf `prefix_of` pf ++ new) as Hpf by (intros; by apply prefix_app_r).
  assert (∀ new, tr `prefix_of` tr ++ new) as Htr by (intros; by apply prefix_app_r).
  run_app. destruct lb as [lb|]; cbn; [|frame_done].
  destruct cf as [f|]; cbn; [|frame_done].
  destruct fr as [n|]; cbn; [|frame_done].
  destruct sc as [sc|]; cbn; [|frame_done].
  unfold py_mod. destruct (decide (n = 0)); cbn; [frame_done|].
  destruct (decide (sc `mod` n = 0)); cbn; [|frame_done].
  unfold run_frame. cbn. rewrite <- !app_assoc.
  split_and!; try done.
  intros f' Hne. apply lookup_insert_ne. congruence.
Qed.

Lemma run_loop_frame (fuel : nat) (bc : Application → bool) (it : Z)
    (s : World * Application) :
  run_frame s (run_loop fuel bc it s).2.
Proof.
  revert it s. induction fuel as [|fuel IH]; intros it s; rewrite run_loop_unfold.
  - apply bind_frame; [apply run_frame_refl|]. intros s0 s' [= <- <-].
    destruct (step_count (gp_runner s.2)) as [sc|]; [|apply run_frame_refl].
    apply bind_frame; [apply run_frame_refl|]. intros sc' s' [= <- <-].
    destruct (_ && _); apply run_frame_refl.
  - apply bind_frame; [apply run_frame_refl|]. intros s0 s' [= <- <-].
    destruct (step_count (gp_runner s.2)) as [sc|]; [|apply run_frame_refl].
    apply bind_frame; [apply run_frame_refl|]. intros sc' s' [= <- <-].
    destruct (_ && _); [|apply run_frame_refl].
    apply bind_frame; [apply lift_runner_frame; apply GPRunner_step_world|].
    intros _ s1 _.
    apply bind_frame; [apply Application_update_run_frame|].
    intros _ s2 _. apply IH.
Qed.

Lemma Application_run_frame (fuel : nat) (bc : option (Application → bool))
    (s : World * Application) :
  run_frame s (Application_run fuel bc s).2.
Proof.
  unfold Application_run.
  apply bind_frame; [apply run_frame_refl|]. intros s0 s' [= <- <-].
  destruct (bool_decide (pop_size (args s.2) < 1)); [apply run_frame_refl|].
  apply bind_frame; [|intros; apply run_loop_frame].
  destruct (negb (_initialized s.2)); [|apply run_frame_refl].
  apply bind_frame; [by destruct s as [[] ?]|]. intros _ s1 [= <-].
  apply bind_frame.
  { apply lift_runner_frame; by rewrite GPRunner_init_world. }
  intros _ s2 _.
  apply bind_frame; [apply Application_update_run_frame|].
  intros _ s3 _. apply run_frame_refl.
Qed.

(** X12: whatever a run does, however it ends (returning, raising, or out
    of fuel), it leaves the options, the checkpoint file and the
    [_initialized] flag as they were, only appends to the Pareto fronts and
    to the log, and touches no file but the checkpoint file.  In particular
    [run] never marks the application as initialised. *)
Theorem run_never_touches (fuel : nat) (bc : option (Application → bool))
    (w : World) (app : Application) :
  let s' := (Application_run fuel bc (w, app)).2 in
  args s'.2 = args app ∧
  checkpoint_file s'.2 = checkpoint_file app ∧
  _initialized s'.2 = _initialized app ∧
  (∃ new, pareto_fronts s'.2 = pareto_fronts app ++ new) ∧
  (∃ events, trace s'.1 = trace w ++ events) ∧
  (∀ f, checkpoint_file app ≠ Some f → files s'.1 !! f = files w !! f).
Proof. exact (Application_run_frame fuel bc (w, app)). Qed.

(** *** Runs that are not the first *)

Lemma Application_run_initialized (fuel : nat) (bc : option (Application → bool))
    (w : World) (app : Application) :
  _initialized app = true → 1 ≤ pop_size (args app) →
  Application_run fuel bc (w, app) = run_loop fuel (default (λ _, false) bc) 0 (w, app).
Proof.
  intros Hini Hps. unfold Application_run, get.
  unfold mbind at 1, M_bind at 1. cbn [fst snd].
  rewrite bool_decide_false by lia. rewrite Hini. cbn [negb].
  unfold mbind, M_bind, mret, M_ret. reflexivity.
Qed.

Lemma run_loop_stops (fuel : nat) (bc : Application → bool) (it sc : Z)
    (w : World) (app : Application) :
  step_count (gp_runner app) = Some sc →
  num_generations (args app) ≤ sc ∨ bc app = true →
  run_loop fuel bc it (w, app) = (Ok (Some it), (w, app)).
Proof.
  intros Hsc Hstop. rewrite run_loop_unfold.
  unfold mbind, M_bind, get, getattr. cbn [fst snd]. rewrite Hsc. cbn [mret M_ret].
  destruct Hstop as [Hdone|Hbreak].
  - by rewrite bool_decide_false by lia.
  - rewrite Hbreak. by rewrite andb_false_r.
Qed.

(** X13: a run of an initialised application (one built by
    [from_checkpoint]) resumes: it neither seeds the generator nor calls
    [init], performs the [num_generations - step_count] steps that are left,
    each followed by its update, and returns their number; the global
    generator is left as the run found it. *)
Theorem run_resumes (fuel : nat) (w : World) (app : Application) (sc : Z) :
  _initialized app = true → 1 ≤ pop_size (args app) →
  populated → frequency_ok app → ready (gp_runner app) sc →
  sc ≤ num_generations (args app) →
  (Z.to_nat (num_generations (args app) - sc) ≤ fuel)%nat →
  ∃ w' app',
    evolve_steps (Z.to_nat (num_generations (args app) - sc)) (w, app) =
      (Ok tt, (w', app')) ∧
    Application_run fuel None (w, app) =
      (Ok (Some (num_generations (args app) - sc)), (w', app')) ∧
    step_count (gp_runner app') = Some (num_generations (args app)) ∧
    rng w' = rng w ∧
    map event_tag (trace w') =
      map event_tag (trace w) ++
      flat_map (update_tags (checkpoint_file app) (checkpoint_frequency (args app)))
        (seqZ (sc + 1) (num_generations (args app) - sc)).
Proof.
  intros Hini Hps Hpop Hfreq Hready Hsc Hfuel.
  destruct (run_loop_steps (Z.to_nat (num_generations (args app) - sc)) fuel 0 w app sc)
    as (w' & app' & Hsteps & Hloop & (Hsc' & _) & _ & _ & Hrng & Htags);
    [done|done|done|lia|done|].
  exists w', app'. split; [done|]. split; [|split; [|split]].
  - rewrite (Application_run_initialized fuel None w app Hini Hps). cbn [default].
    rewrite Hloop. do 3 f_equal. lia.
  - rewrite Hsc'. f_equal. lia.
  - done.
  - rewrite Htags. do 3 f_equal. lia.
Qed.

(** X14: the loop condition is checked before every step, the first one
    included.  An initialised application whose runner has reached
    [num_generations], or on which the break condition holds, is left
    untouched by [run], which returns 0 without using any fuel. *)
Theorem run_nothing_left (fuel : nat) (bc : option (Application → bool))
    (w : World) (app : Application) (sc : Z) :
  _initialized app = true → 1 ≤ pop_size (args app) →
  step_count (gp_runner app) = Some sc →
  num_generations (args app) ≤ sc ∨ default (λ _, false) bc app = true →
  Application_run fuel bc (w, app) = (Ok (Some 0), (w, app)).
Proof.
  intros Hini Hps Hsc Hstop.
  rewrite (Application_run_initialized fuel bc w app Hini Hps).
  by apply (run_loop_stops fuel _ 0 sc).
Qed.

Lemma Application_run_first (fuel : nat) (bc : option (Application → bool))
    (w w1 w2 : World) (app app2 : Application) g1 :
  _initialized app = false → 1 ≤ pop_size (args app) →
  GPRunner_init (pop_size (args app))
    (set_rng (rng_seed (seed (args app))) w, gp_runner app) = (Ok tt, (w1, g1)) →
  Application_update (w1, set_gp_runner g1 app) = (Ok tt, (w2, app2)) →
  Application_run fuel bc (w, app) =
    run_loop fuel (default (λ _, false) bc) 1 (w2, app2).
Proof.
  intros Hini Hps Hinit Hupd.
  apply (lift_runner_ok _ _ _ app) in Hinit.
  unfold Application_run, get, modify. unfold mbind at 1, M_bind at 1. cbn [fst snd].
  rewrite bool_decide_false by lia. rewrite Hini. cbn [negb].
  unfold mbind at 1 2, M_bind at 1 2. cbn [fst snd].
  rewrite (bind_ok _ _ _ _ _ Hinit), (bind_ok _ _ _ _ _ Hupd). reflexivity.
Qed.

(** X15: with a break condition that holds on every application a first
    run still initialises the runner and updates once, then stops before
    the first step: it returns 1 with the step count at 0, whatever
    [num_generations] is. *)
Theorem run_breaks_before_first_step (fuel : nat) (bc : Application → bool)
    (w : World) (app : Application) :
  _initialized app = false → 1 ≤ pop_size (args app) →
  populated → frequency_ok app →
  (∀ a, bc a = true) →
  ∃ w' app',
    Application_run fuel (Some bc) (w, app) = (Ok (Some 1), (w', app')) ∧
    step_count (gp_runner app') = Some 0 ∧
    length (pareto_fronts app') = S (length (pareto_fronts app)) ∧
    map event_tag (trace w') =
      map event_tag (trace w) ++
      update_tags (checkpoint_file app) (checkpoint_frequency (args app)) 0.
Proof.
  intros Hini Hps Hpop Hfreq Hbc.
  set (w0 := set_rng (rng_seed (seed (args app))) w).
  destruct (GPRunner_init_pending (pop_size (args app)) w0 (gp_runner app) Hpop Hps)
    as (g1 & Hinit & Hpend).
  pose proof Hpend as (Hsc1 & _ & _ & _ & (es & e & Hlb & _)).
  destruct (Application_update_ready w0 (set_gp_runner g1 app) 0)
    as (w2 & app2 & Hupd & (Hsc2 & _) & _ & _ & _ & Htags2); [done|done|].
  exists w2, app2. split; [|split; [done|split]].
  - rewrite (Application_run_first fuel (Some bc) w w0 w2 app app2 g1) by done.
    cbn [default]. apply (run_loop_stops fuel bc 1 0); [done|]. right. apply Hbc.
  - rewrite (Application_update_eq w0 (set_gp_runner g1 app) _ Hlb) in Hupd;
      [|by exists 0|done].
    injection Hupd as _ <-. unfold logged_app. cbn [pareto_fronts set_pareto_fronts].
    rewrite length_app. cbn. lia.
  - exact Htags2.
Qed.

(** X16: [run] never sets [_initialized], so a second run of the same
    application is a first run again: it seeds the global generator,
    calls [init], which resets the step count, and performs all
    [num_generations] steps once more, returning [num_generations + 1] both
    times. *)
Theorem run_twice_reinitialises (fuel : nat) (w : World) (app : Application) :
  _initialized app = false →
  1 ≤ pop_size (args app) → 0 ≤ num_generations (args app) →
  (Z.to_nat (num_generations (args app)) ≤ fuel)%nat →
  populated → frequency_ok app →
  ∃ w1 app1 w2 app2,
    Application_run fuel None (w, app) =
      (Ok (Some (num_generations (args app) + 1)), (w1, app1)) ∧
    _initialized app1 = false ∧
    Application_run fuel None (w1, app1) =
      (Ok (Some (num_generations (args app) + 1)), (w2, app2)) ∧
    run_script (Z.to_nat (num_generations (args app))) (w1, app1) =
      (Ok (Some (num_generations (args app) + 1)), (w2, app2)) ∧
    step_count (gp_runner app2) = Some (num_generations (args app)) ∧
    rng w2 = rng_seed (seed (args app)).
Proof.
  intros Hini Hps Hng Hfuel Hpop Hfreq.
  destruct (Application_run_ok fuel w app Hini Hps Hng Hfuel Hpop Hfreq)
    as (w1 & app1 & _ & Hrun1 & _ & Ha1 & Hf1 & _ & _).
  pose proof (Application_run_frame fuel None (w, app)) as (_ & _ & Hini1 & _).
  rewrite Hrun1 in Hini1. cbn [fst snd] in Hini1. rewrite Hini in Hini1.
  destruct (Application_run_ok fuel w1 app1)
    as (w2 & app2 & Hscript & Hrun2 & (Hsc2 & _) & _ & _ & Hrng2 & _);
    [done|by rewrite Ha1|by rewrite Ha1|by rewrite Ha1|done| |].
  { unfold frequency_ok in *. by rewrite Hf1, Ha1. }
  rewrite Ha1 in *.
  by exists w1, app1, w2, app2.
Qed.

(** *** One front per update *)

Lemma Application_update_pareto (s s' : World * Application) :
  Application_update s = (Ok tt, s') →
  pareto_fronts s'.2 =
    pareto_fronts s.2 ++ [default [] (halloffame (gp_runner s.2))] ∧
  halloffame (gp_runner s'.2) = halloffame (gp_runner s.2).
Proof.
  destruct s as [w app].
  destruct app as [a g cf pf ini], a as [ps ng sd fr], g as [? lb ? sc ? ? ? ?],
    w as [r fs tr].
  run_app. destruct lb as [lb|]; cbn; [|done].
  destruct cf as [f|]; cbn; [|by intros [= <-]].
  destruct fr as [n|]; cbn; [|by intros [= <-]].
  destruct sc as [sc|]; cbn; [|done].
  unfold py_mod. destruct (decide (n = 0)); cbn; [done|].
  destruct (decide (sc `mod` n = 0)); cbn; by intros [= <-].
Qed.

Lemma lift_runner_pareto {A} (m : RunnerM A) (s : World * Application) :
  pareto_fronts (lift_runner m s).2.2 = pareto_fronts s.2 ∧
  gp_runner (lift_runner m s).2.2 = (m (s.1, gp_runner s.2)).2.2.
Proof.
  unfold lift_runner. destruct s as [w app]. cbn [fst snd].
  by destruct (m (w, gp_runner app)) as [r [w' g']].
Qed.

Lemma step_update_pareto (s s1 s2 : World * Application) :
  lift_runner GPRunner_step s = (Ok tt, s1) →
  Application_update s1 = (Ok tt, s2) →
  pareto_fronts s2.2 =
    pareto_fronts s.2 ++ [default [] (halloffame (gp_runner s2.2))].
Proof.
  intros Hstep Hupd.
  destruct (Application_update_pareto s1 s2 Hupd) as [-> ->].
  pose proof (lift_runner_pareto GPRunner_step s) as [Hpf _].
  rewrite Hstep in Hpf. cbn [snd] in Hpf. by rewrite Hpf.
Qed.

Lemma evolve_steps_pareto (k : nat) (s s' : World * Application) :
  evolve_steps k s = (Ok tt, s') →
  length (pareto_fronts s'.2) = (length (pareto_fronts s.2) + k)%nat ∧
  (last (pareto_fronts s.2) = Some (default [] (halloffame (gp_runner s.2))) →
   last (pareto_fronts s'.2) = Some (default [] (halloffame (gp_runner s'.2)))).
Proof.
  revert s. induction k as [|k IH]; intros s; cbn [evolve_steps].
  - intros [= <-]. split; [lia|done].
  - unfold mbind at 1, M_bind at 1.
    destruct (lift_runner GPRunner_step s) as [[[]|e] s1] eqn:Hstep; [|done].
    unfold mbind at 1, M_bind at 1.
    destruct (Application_update s1) as [[[]|e] s2] eqn:Hupd; [|done].
    intros Hrest. destruct (IH s2 Hrest) as [Hlen Hlast].
    pose proof (step_update_pareto s s1 s2 Hstep Hupd) as Hpf.
    split.
    + rewrite Hlen, Hpf, length_app. cbn. lia.
    + intros _. apply Hlast. rewrite Hpf. apply last_snoc.
Qed.

(** X22: [pareto_fronts] gets one front per update, a copy of the hall of
    fame at that time.  A first run appends [num_generations + 1] fronts,
    and the last front is the hall of fame the runner ends with. *)
Theorem one_front_per_update (fuel : nat) (w : World) (app : Application) :
  _initialized app = false →
  1 ≤ pop_size (args app) → 0 ≤ num_generations (args app) →
  (Z.to_nat (num_generations (args app)) ≤ fuel)%nat →
  populated → frequency_ok app →
  ∃ w' app' hof,
    Application_run fuel None (w, app) =
      (Ok (Some (num_generations (args app) + 1)), (w', app')) ∧
    Z.of_nat (length (pareto_fronts app')) =
      Z.of_nat (length (pareto_fronts app)) + num_generations (args app) + 1 ∧
    halloffame (gp_runner app') = Some hof ∧
    last (pareto_fronts app') = Some hof.
Proof.
  intros Hini Hps Hng Hfuel Hpop Hfreq.
  destruct (Application_run_ok fuel w app Hini Hps Hng Hfuel Hpop Hfreq)
    as (w' & app' & Hscript & Hrun & (_ & _ & [hof Hhof] & _) & _).
  exists w', app', hof. split; [done|].
  unfold run_script, get, modify in Hscript.
  unfold mbind at 1 2, M_bind at 1 2 in Hscript. cbn [fst snd] in Hscript.
  set (w0 := set_rng (rng_seed (seed (args app))) w) in Hscript.
  unfold mbind at 1, M_bind at 1 in Hscript.
  destruct (lift_runner (GPRunner_init (pop_size (args app))) (w0, app))
    as [[[]|e] s1] eqn:Hinit; [|done].
  unfold mbind at 1, M_bind at 1 in Hscript.
  destruct (Application_update s1) as [[[]|e] s2] eqn:Hupd; [|done].
  unfold mbind at 1, M_bind at 1 in Hscript.
  destruct (evolve_steps (Z.to_nat (num_generations (args app))) s2)
    as [[[]|e] s3] eqn:Hsteps; [|done].
  injection Hscript as _ ->.
  destruct (Application_update_pareto s1 s2 Hupd) as [Hpf2 Hhof2].
  pose proof (lift_runner_pareto (GPRunner_init (pop_size (args app))) (w0, app))
    as [Hpf1 _].
  rewrite Hinit in Hpf1. cbn [snd] in Hpf1.
  destruct (evolve_steps_pareto _ s2 (w', app') Hsteps) as [Hlen Hlast].
  cbn [snd] in Hlen, Hlast. split; [|split; [done|]].
  - rewrite Hlen, Hpf2, Hpf1, length_app. cbn. lia.
  - rewrite Hlast; [by rewrite Hhof|].
    rewrite Hpf2, <- Hhof2. apply last_snoc.
Qed.

(** *** The frequency zero *)

Lemma Application_update_zero (w : World) (app : Application) (lb : Logbook) f sc :
  logbook (gp_runner app) = Some lb → step_count (gp_runner app) = Some sc →
  checkpoint_file app = Some f → checkpoint_frequency (args app) = PyInt 0 →
  Application_update (w, app) =
    (Raise ZeroDivisionError, (logged_world w lb, logged_app app lb)).
Proof.
  intros Hlb Hsc Hf Hfr.
  destruct app as [a g cf pf ini], a as [ps ng sd fr], g as [? ? ? ? ? ? ? ?].
  simpl in *. simplify_eq. run_app. reflexivity.
Qed.

(** X17: the checkpoint frequency 0 is an [int], so checkpointing counts as
    valid, and with a checkpoint file set the first update computes
    [step_count % 0]: a first run raises [ZeroDivisionError] right after
    [init], having logged the record of generation 0 and written nothing. *)
Theorem zero_frequency_raises (fuel : nat) (bc : option (Application → bool))
    (w : World) (app : Application) (f : string) :
  _initialized app = false → 1 ≤ pop_size (args app) → populated →
  checkpoint_file app = Some f → checkpoint_frequency (args app) = PyInt 0 →
  valid_checkpointing app = true ∧
  ∃ w' app',
    Application_run fuel bc (w, app) = (Raise ZeroDivisionError, (w', app')) ∧
    files w' = files w ∧
    step_count (gp_runner app') = Some 0 ∧
    map event_tag (trace w') = map event_tag (trace w) ++ [TagInfo [0]].
Proof.
  intros Hini Hps Hpop Hf Hfr.
  split; [unfold valid_checkpointing; by rewrite Hf, Hfr|].
  set (w0 := set_rng (rng_seed (seed (args app))) w).
  destruct (GPRunner_init_pending (pop_size (args app)) w0 (gp_runner app) Hpop Hps)
    as (g1 & Hinit & (Hsc & _ & _ & _ & (es & e & Hlb & Hgen))).
  apply (lift_runner_ok _ _ _ app) in Hinit.
  pose proof (Application_update_zero w0 (set_gp_runner g1 app) _ f 0 Hlb Hsc Hf Hfr)
    as Hupd.
  eexists _, _. split; [|split; [|split]].
  - unfold Application_run, get, modify. unfold mbind at 1, M_bind at 1. cbn [fst snd].
    rewrite bool_decide_false by lia. rewrite Hini. cbn [negb].
    unfold mbind at 1 2, M_bind at 1 2. cbn [fst snd]. fold w0.
    rewrite (bind_ok _ _ _ _ _ Hinit), (bind_raise _ _ _ _ _ Hupd). reflexivity.
  - done.
  - done.
  - unfold logged_world, emit, w0. cbn [trace set_rng entries buffindex].
    rewrite map_app, drop_app_length. cbn. by rewrite Hgen.
Qed.

(** *** Checkpoint files *)

(** X18: [safe] replaces the file it is given and no other: what [load]
    reads from another file is not affected, and of two checkpoints written
    to one file the second is the one read back. *)
Theorem safe_replaces_one_file (f f' : string) (k1 k2 : gmap string PyObj) (w : World) :
  load f (safe f k2 (safe f k1 w)) = load f (safe f k2 w) ∧
  (f' ≠ f →
     load f' (safe f k1 w) = load f' w ∧
     Application_from_checkpoint f' (safe f k1 w) =
       (let '(r, w') := Application_from_checkpoint f' w in
        (r, set_rng (rng w') (safe f k1 w)))).
Proof.
  split.
  - by rewrite !load_safe.
  - intros Hne.
    assert (load f' (safe f k1 w) = load f' w) as Hload.
    { unfold load, safe, write_file. cbn [files]. by rewrite lookup_insert_ne. }
    split; [done|]. unfold Application_from_checkpoint. rewrite Hload.
    destruct (load f' w) as [cp|e]; [|by destruct w].
    match goal with |- context [match ?res with Ok _ => _ | Raise _ => _ end] =>
      destruct res as [[app r]|e] end; by destruct w.
Qed.

(** X19: what makes [from_checkpoint] fail.  A missing file is a
    [FileNotFoundError] and a checkpoint without the key [args] or [runner]
    a [KeyError]; [from_checkpoint] writes and logs nothing, and when it
    fails the global generator has not been set: the world is unchanged. *)
Theorem from_checkpoint_failures (f : string) (w : World) :
  (files w !! f = None →
     Application_from_checkpoint f w = (Raise FileNotFoundError, w)) ∧
  (∀ cp, load f w = Ok cp → cp !! "args" = None ∨ cp !! "runner" = None →
     Application_from_checkpoint f w = (Raise KeyError, w)) ∧
  (∀ e, (Application_from_checkpoint f w).1 = Raise e →
     (Application_from_checkpoint f w).2 = w) ∧
  files (Application_from_checkpoint f w).2 = files w ∧
  trace (Application_from_checkpoint f w).2 = trace w.
Proof.
  unfold Application_from_checkpoint. split; [|split; [|split]].
  - intros Hnone. unfold load. by rewrite Hnone.
  - intros cp -> Hkey.
    assert (dict_get cp "args" = Raise KeyError ∨
            ∃ a, dict_get cp "args" = Ok a ∧ dict_get cp "runner" = Raise KeyError)
      as [->|(a & -> & ->)]; [|done|done].
    unfold dict_get. destruct (cp !! "args") as [a|]; [|by left].
    destruct Hkey as [?| ->]; [done|]. right. by exists a.
  - intros e. destruct (load f w) as [cp|e']; [|done].
    match goal with |- context [match ?res with Ok _ => _ | Raise _ => _ end] =>
      destruct res as [[app r]|e'] end; [discriminate|done].
  - destruct (load f w) as [cp|e']; [|done].
    match goal with |- context [match ?res with Ok _ => _ | Raise _ => _ end] =>
      destruct res as [[app r]|e'] end; done.
Qed.

End MoreApplication.

(** *** The runner's own stream *)

Section RunnerStream.
Context `{HE : GPEnv}.

Lemma GPRunner_update_same_run (w1 w2 : World) (g1 g2 : GPRunner) :
  same_run g1 g2 →
  (GPRunner_update (w1, g1)).1 = (GPRunner_update (w2, g2)).1 ∧
  same_run (GPRunner_update (w1, g1)).2.2 (GPRunner_update (w2, g2)).2.2.
Proof.
  destruct g1 as [? ? ? ? ? ? tmp1 ?], g2 as [hof lb ms sc pop alg tmp2 prev].
  intros (? & ? & ? & ? & ? & ? & ?). simpl in *. subst.
  destruct w1 as [s1 fs1 tr1], w2 as [s2 fs2 tr2]. run_monad.
  destruct pop as [pop|]; [|done]. cbn.
  destruct hof as [hof|]; [|done]. cbn.
  destruct ms as [[|k]|]; cbn;
    destruct (assessment_runner pop) as [|ind rest]; cbn; try done;
    destruct lb as [lb|]; cbn; try done;
    destruct sc as [sc|]; done.
Qed.

Lemma GPRunner_init_same_run (n : Z) (w1 w2 : World) (g : GPRunner) (r : Rng) :
  _prev_state g = Some r →
  (GPRunner_init n (w1, g)).1 = (GPRunner_init n (w2, g)).1 ∧
  same_run (GPRunner_init n (w1, g)).2.2 (GPRunner_init n (w2, g)).2.2.
Proof.
  intros Hprev. destruct (create_population n r) as [pop0 r0] eqn:Hc.
  rewrite (GPRunner_init_update n w1 g pop0 r0) by (by rewrite Hprev).
  rewrite (GPRunner_init_update n w2 g pop0 r0) by (by rewrite Hprev).
  apply GPRunner_update_same_run. by repeat split.
Qed.

Lemma GPRunner_step_same_run (w1 w2 : World) (g : GPRunner) (r : Rng) :
  _prev_state g = Some r →
  (GPRunner_step (w1, g)).1 = (GPRunner_step (w2, g)).1 ∧
  same_run (GPRunner_step (w1, g)).2.2 (GPRunner_step (w2, g)).2.2.
Proof.
  intros Hprev.
  destruct (algorithm g) as [alg|] eqn:Halg;
    [|rewrite !GPRunner_step_unset by (by left); by repeat split].
  destruct (population g) as [pop|] eqn:Hpop;
    [|rewrite !GPRunner_step_unset by (by right); by repeat split].
  destruct (evolve alg pop r) as [[pop1 alg1] r1] eqn:He.
  destruct (step_count g) as [sc|] eqn:Hsc.
  - rewrite (GPRunner_step_update w1 g alg pop sc pop1 alg1 r1) by (by rewrite ?Hprev).
    rewrite (GPRunner_step_update w2 g alg pop sc pop1 alg1 r1) by (by rewrite ?Hprev).
    apply GPRunner_update_same_run. by repeat split.
  - rewrite (GPRunner_step_no_count w1 g alg pop pop1 alg1 r1) by (by rewrite ?Hprev).
    rewrite (GPRunner_step_no_count w2 g alg pop pop1 alg1 r1) by (by rewrite ?Hprev).
    by repeat split.
Qed.

(** X20: once a runner has a stream of its own ([_prev_state] is set, as it
    is after the first [init]), [init] and [step] draw from that stream
    only: their outcome and the runner they leave do not depend on the
    state of the global generator, up to the copy of that state kept in
    [_tmp_state].  Seeding the global generator again does not change what
    such a runner computes. *)
Theorem runner_draws_from_own_stream (w1 w2 : World) (g : GPRunner) (r : Rng) :
  _prev_state g = Some r →
  (∀ n, (GPRunner_init n (w1, g)).1 = (GPRunner_init n (w2, g)).1 ∧
        same_run (GPRunner_init n (w1, g)).2.2 (GPRunner_init n (w2, g)).2.2) ∧
  (GPRunner_step (w1, g)).1 = (GPRunner_step (w2, g)).1 ∧
  same_run (GPRunner_step (w1, g)).2.2 (GPRunner_step (w2, g)).2.2.
Proof.
  intros Hprev. split.
  - intros n. by apply (GPRunner_init_same_run n w1 w2 g r).
  - by apply (GPRunner_step_same_run w1 w2 g r).
Qed.

End RunnerStream.

(** *** The factories *)

Section FactoryProperties.
Context {Obj : Type} (name : Obj → string) (lower : string → string).

Lemma get_mapping_snoc (group : list Obj) (obj : Obj) :
  get_mapping name lower (group ++ [obj]) =
    <[lower (name obj) := obj]> (get_mapping name lower group).
Proof. unfold get_mapping. by rewrite foldl_app. Qed.

Lemma get_mapping_lookup (group : list Obj) (key : string) (func : Obj) :
  get_mapping name lower group !! key = Some func ↔
  ∃ l1 l2, group = l1 ++ func :: l2 ∧ lower (name func) = key ∧
           ∀ obj, obj ∈ l2 → lower (name obj) ≠ key.
Proof.
  induction group as [|x l IH] using rev_ind.
  - split; [done|]. intros (l1 & l2 & Heq & _). by destruct l1.
  - rewrite get_mapping_snoc.
    destruct (decide (lower (name x) = key)) as [Hx|Hx].
    + rewrite <- Hx, lookup_insert_eq. split.
      * intros [= <-]. exists l, []. split; [done|]. split; [done|].
        intros obj Hobj. by apply elem_of_nil in Hobj.
      * intros (l1 & l2 & Heq & Hkey & Hlast).
        destruct l2 as [|y l2 _] using rev_ind.
        -- apply app_inj_tail in Heq as [_ ->]. done.
        -- rewrite app_comm_cons, app_assoc in Heq.
           apply app_inj_tail in Heq as [_ ->].
           exfalso. apply (Hlast y); [|congruence].
           apply elem_of_app. right. by apply list_elem_of_singleton.
    + rewrite lookup_insert_ne by done. rewrite IH. split.
      * intros (l1 & l2 & -> & Hkey & Hlast).
        exists l1, (l2 ++ [x]). split; [by rewrite <- app_assoc|]. split; [done|].
        intros obj Hobj. apply elem_of_app in Hobj as [Hobj|Hobj]; [by apply Hlast|].
        apply list_elem_of_singleton in Hobj as ->. done.
      * intros (l1 & l2 & Heq & Hkey & Hlast).
        destruct l2 as [|y l2 _] using rev_ind.
        -- apply app_inj_tail in Heq as [_ ->]. done.
        -- rewrite app_comm_cons, app_assoc in Heq.
           apply app_inj_tail in Heq as [-> ->].
           exists l1, l2. split; [done|]. split; [done|].
           intros obj Hobj. apply Hlast. apply elem_of_app. by left.
Qed.

(** X21: the lookup of a factory.  For the mapping [get_mapping(group)],
    [get_from_mapping(key)] returns the last object of the group whose
    lower-cased name is [key]; it fails exactly when the group has no such
    object, and then with [RuntimeError], never with the [KeyError] of the
    dict.  On the empty mapping of [AFactory] itself every key fails. *)
Theorem factory_lookup (group : list Obj) (key : string) :
  (∀ func, get_from_mapping (get_mapping name lower group) key = Ok func ↔
     ∃ l1 l2, group = l1 ++ func :: l2 ∧ lower (name func) = key ∧
              ∀ obj, obj ∈ l2 → lower (name obj) ≠ key) ∧
  (∀ e, get_from_mapping (get_mapping name lower group) key = Raise e ↔
     e = RuntimeError ∧ ∀ obj, obj ∈ group → lower (name obj) ≠ key) ∧
  get_from_mapping (∅ : gmap string Obj) key = Raise RuntimeError.
Proof.
  split; [|split; [|done]].
  - intros func. rewrite <- get_mapping_lookup. unfold get_from_mapping.
    destruct (get_mapping name lower group !! key); split; congruence.
  - intros e. unfold get_from_mapping.
    destruct (get_mapping name lower group !! key) as [func|] eqn:Hlook.
    + split; [done|]. intros [_ Hnone].
      apply get_mapping_lookup in Hlook as (l1 & l2 & -> & Hkey & _).
      exfalso. apply (Hnone func); [|done].
      apply elem_of_app. right. by left.
    + split.
      * intros [= <-]. split; [done|]. intros obj Hobj Hkey.
        apply list_elem_of_split in Hobj as (l1 & l2 & ->).
        assert (∃ func, get_mapping name lower (l1 ++ obj :: l2) !! key = Some func)
          as [func Hsome]; [|congruence].
        clear Hlook. induction l2 as [|y l2 IH] using rev_ind.
        -- exists obj. apply get_mapping_lookup. exists l1, [].
           split; [done|]. split; [done|]. intros o Ho. by apply elem_of_nil in Ho.
        -- destruct IH as [func Hfunc].
           rewrite app_comm_cons, app_assoc, get_mapping_snoc.
           destruct (decide (lower (name y) = key)) as [<-|Hy].
           ++ exists y. by rewrite lookup_insert_eq.
           ++ exists func. by rewrite lookup_insert_ne.
      * by intros [-> _].
Qed.

End FactoryProperties.

(** * setup.py: reading the metadata files *)

Section SetupProperties.
Import Setup SetupSpec.

Lemma split_newline_spec (content : string) :
  ∃ l ls, split_newline content = l :: ls ∧
    join_newline (l :: ls) = content ∧
    Forall (λ s, has_newline s = false) (l :: ls) ∧
    length (l :: ls) = S (count_newlines content).
Proof.
  induction content as [|c rest (l & ls & Hsplit & Hjoin & Hall & Hlen)].
  - exists EmptyString, []. repeat split; by repeat constructor.
  - cbn [split_newline count_newlines]. destruct (Ascii.eqb c newline) eqn:Hc.
    + apply Ascii.eqb_eq in Hc as ->.
      exists EmptyString, (split_newline rest). split; [done|].
      rewrite Hsplit. split; [|split].
      * rewrite <- Hjoin. reflexivity.
      * by constructor.
      * cbn [length] in *. lia.
    + rewrite Hsplit. exists (String c l), ls. split; [done|].
      apply Forall_cons in Hall as [Hl Hls]. split; [|split].
      * rewrite <- Hjoin. by destruct ls.
      * constructor; [cbn; by rewrite Hc, Hl|done].
      * cbn [length] in *. lia.
Qed.

(** X23: [read] fails exactly when the file is missing.  Otherwise its two
    modes agree: the lines returned with [split=True], joined by newlines,
    are the content returned with [split=False]; there is one line more
    than the content has newlines (so at least one, also for an empty
    file), and no line holds a newline. *)
Theorem read_lines_join_to_content (fs : gmap string string) (fname : string) :
  (fs !! fname = None ↔ ∃ e, read fs fname true = Raise e) ∧
  (fs !! fname = None → ∀ split, read fs fname split = Raise FileNotFoundError) ∧
  (∀ content, fs !! fname = Some content →
     read fs fname false = Ok (Content content) ∧
     ∃ ls, read fs fname true = Ok (Lines ls) ∧
       join_newline ls = content ∧
       length ls = S (count_newlines content) ∧
       Forall (λ s, has_newline s = false) ls).
Proof.
  unfold read. split; [|split].
  - destruct (fs !! fname) as [content|]; split; try done.
    + by intros [e ?].
    + by eexists.
  - by intros ->.
  - intros content ->. split; [done|].
    destruct (split_newline_spec content) as (l & ls & -> & Hjoin & Hall & Hlen).
    by exists (l :: ls).
Qed.

End SetupProperties.

(** * The further properties on concrete inputs *)

Lemma toy_runner_ready : ready toy_runner 0.
Proof.
  split; [reflexivity|]. split; [by eexists|]. split; [by eexists|].
  split; by eexists.
Qed.

Lemma coupled_systems_keep_dimension_witness :
  square 1 [[1%Q]] ∧ fits 1 (NpScalar 0%Q) ∧
  ∃ d, van_der_pol (λ _, NpScalar 0%Q) (λ y, y) 1%Q 1%Q 1%Q (CouplingMatrix [[1%Q]])
         0%Q [1%Q; 2%Q] [] = Ok d ∧ length d = 2%nat.
Proof.
  assert (square 1 [[1%Q]]) as Hsq by (split; [reflexivity|by repeat constructor]).
  split; [exact Hsq|]. split; [exact I|].
  destruct (coupled_systems_keep_dimension (T := Q) (λ _, NpScalar 0%Q) (λ y, y)
              [[1%Q]] 1 0%Q [1%Q; 2%Q] [] Hsq I) as [H2 _].
  destruct (H2 eq_refl) as [Hv _]. exact (Hv 1%Q 1%Q 1%Q).
Defined.

Lemma coupling_matrices_symmetric_witness :
  global_coupling 3 = Ok [[-2; 1; 1]; [1; -2; 1]; [1; 1; -2]] ∧
  symmetric [[-2; 1; 1]; [1; -2; 1]; [1; 1; -2]].
Proof.
  split; [reflexivity|].
  apply (coupling_matrices_symmetric 3). left. reflexivity.
Defined.

Lemma circular_array_coupling_ring_witness :
  3 ≤ 4 ∧
  ∃ M, circular_array_coupling 4 = Ok M ∧
    mat_entry M 0 0 = Some (-2) ∧ mat_entry M 0 3 = Some 1 ∧ mat_entry M 0 2 = Some 0.
Proof.
  split; [lia|].
  destruct (circular_array_coupling_ring 4) as (M & HM & _ & Hent); [lia|].
  exists M. split; [exact HM|].
  split; [|split].
  - apply (Hent 0%nat 0%nat); simpl; lia.
  - apply (Hent 0%nat 3%nat); simpl; lia.
  - apply (Hent 0%nat 2%nat); simpl; lia.
Defined.


Lemma integrate_transposes_trajectory_witness :
  keeps_dimension (T := Q) ∧
  ∃ traj r,
    odeint (λ _ y _, Ok y) [1%Q; 2%Q] [0%Q; 1%Q] [] = Ok traj ∧
    integrate (λ _ y _, Ok y) [1%Q; 2%Q] [0%Q; 1%Q] [] = Ok r ∧
    length traj = 2%nat ∧ nd_entry r 1 0 = Some 2%Q.
Proof.
  split; [exact toy_keeps_dimension|].
  destruct (integrate_transposes_trajectory (λ _ y _, Ok y) [1%Q; 2%Q] [0%Q; 1%Q] [] 0%Q
              toy_keeps_dimension eq_refl eq_refl)
    as (traj & r & Hode & Hint & Hlen & H0 & Hent).
  exists traj, r. split; [exact Hode|]. split; [exact Hint|]. split; [exact Hlen|].
  rewrite Hent, H0. reflexivity.
Defined.

Lemma step_before_init_witness :
  GPRunner_step (toy_world, GPRunner_new) =
    (Raise AttributeError, (toy_world, set_tmp_state (Some 0) GPRunner_new)).
Proof.
  destruct (step_before_init toy_world GPRunner_new (or_introl eq_refl)) as [Hstep _].
  exact Hstep.
Defined.

Lemma init_empty_population_witness :
  ∃ g', GPRunner_init 0 (toy_world, GPRunner_new) = (Raise IndexError, (toy_world, g')) ∧
        step_count g' = Some 0.
Proof.
  destruct (init_empty_population 0 toy_world GPRunner_new [] 0 eq_refl eq_refl)
    as (g' & Hinit & Hsc & _).
  exists g'. split; [exact Hinit|exact Hsc].
Defined.

Lemma run_resumes_witness :
  ready toy_runner 0 ∧
  ∃ w' app',
    Application_run 2 None (toy_world, toy_resumed 2) = (Ok (Some 2), (w', app')) ∧
    step_count (gp_runner app') = Some 2 ∧ rng w' = 0.
Proof.
  split; [exact toy_runner_ready|].
  destruct (run_resumes 2 toy_world (toy_resumed 2) 0)
    as (w' & app' & _ & Hrun & Hsc & Hrng & _).
  - reflexivity.
  - simpl. lia.
  - exact toy_populated.
  - left. reflexivity.
  - exact toy_runner_ready.
  - simpl. lia.
  - simpl. lia.
  - exists w', app'. split; [exact Hrun|]. split; [exact Hsc|exact Hrng].
Defined.

Lemma run_nothing_left_witness :
  Application_run 0 None (toy_world, toy_resumed 0) =
    (Ok (Some 0), (toy_world, toy_resumed 0)).
Proof.
  apply (run_nothing_left 0 None toy_world (toy_resumed 0) 0).
  - reflexivity.
  - simpl. lia.
  - reflexivity.
  - left. simpl. lia.
Defined.

Lemma run_breaks_before_first_step_witness :
  ∃ w' app',
    Application_run 0 (Some (λ _, true)) (toy_world, toy_app 3 PyOther None) =
      (Ok (Some 1), (w', app')) ∧
    step_count (gp_runner app') = Some 0.
Proof.
  destruct (run_breaks_before_first_step 0 (λ _, true) toy_world (toy_app 3 PyOther None))
    as (w' & app' & Hrun & Hsc & _).
  - reflexivity.
  - simpl. lia.
  - exact toy_populated.
  - left. reflexivity.
  - intros a. reflexivity.
  - exists w', app'. split; [exact Hrun|exact Hsc].
Defined.

Lemma run_twice_reinitialises_witness :
  ∃ w1 app1 w2 app2,
    Application_run 1 None (toy_world, toy_app 1 PyOther None) =
      (Ok (Some 2), (w1, app1)) ∧
    Application_run 1 None (w1, app1) = (Ok (Some 2), (w2, app2)) ∧
    step_count (gp_runner app2) = Some 1.
Proof.
  destruct (run_twice_reinitialises 1 toy_world (toy_app 1 PyOther None))
    as (w1 & app1 & w2 & app2 & Hrun1 & _ & Hrun2 & _ & Hsc & _).
  - reflexivity.
  - simpl. lia.
  - simpl. lia.
  - simpl. lia.
  - exact toy_populated.
  - left. reflexivity.
  - exists w1, app1, w2, app2. split; [exact Hrun1|]. split; [exact Hrun2|exact Hsc].
Defined.

Lemma one_front_per_update_witness :
  ∃ w' app',
    Application_run 2 None (toy_world, toy_app 2 PyOther None) =
      (Ok (Some 3), (w', app')) ∧
    Z.of_nat (length (pareto_fronts app')) = 3.
Proof.
  destruct (one_front_per_update 2 toy_world (toy_app 2 PyOther None))
    as (w' & app' & hof & Hrun & Hlen & _).
  - reflexivity.
  - simpl. lia.
  - simpl. lia.
  - simpl. lia.
  - exact toy_populated.
  - left. reflexivity.
  - exists w', app'. split; [exact Hrun|exact Hlen].
Defined.

Lemma zero_frequency_raises_witness :
  ∃ w' app',
    Application_run 3 None (toy_world, toy_app 3 (PyInt 0) (Some "cp")) =
      (Raise ZeroDivisionError, (w', app')) ∧
    files w' = ∅.
Proof.
  destruct (zero_frequency_raises 3 None toy_world (toy_app 3 (PyInt 0) (Some "cp")) "cp")
    as (_ & w' & app' & Hrun & Hfiles & _).
  - reflexivity.
  - simpl. lia.
  - exact toy_populated.
  - reflexivity.
  - reflexivity.
  - exists w', app'. split; [exact Hrun|exact Hfiles].
Defined.

Lemma runner_draws_from_own_stream_witness :
  (GPRunner_init 2 (toy_world, set_prev_state (Some 5) GPRunner_new)).1 =
  (GPRunner_init 2 (set_rng 9 toy_world, set_prev_state (Some 5) GPRunner_new)).1.
Proof.
  destruct (runner_draws_from_own_stream toy_world (set_rng (9 : @Rng toy_env) toy_world)
              (set_prev_state (Some (5 : @Rng toy_env)) GPRunner_new) 5 eq_refl)
    as [Hinit _].
  exact (proj1 (Hinit 2)).
Defined.
